(** * Using Redis for embeddings search: ingestion and query adapters

    A shallow embedding of the code cells of
    [examples/vector_databases/redis/Using_Redis_for_embeddings_search.ipynb]:
    the index provisioning cell, [index_documents], [search_redis] and
    [create_hybrid_field], together with the parts of NumPy, redis-py and
    RediSearch those cells call.

    Layout: the NumPy float32 buffer encoding, the Python run time (objects,
    exceptions, a state-and-exception monad), the redis-py client against a
    model of the store, the notebook's own functions, the constants cell and
    the last cell with the notions their properties use, and a small
    instance of them; then the proofs, the further properties of the cells
    (failures, frames, what the store holds, how the cells compose), and the
    theorems at the instance. *)

From Stdlib Require Import ZArith QArith Qround List Strings.String Strings.Ascii Strings.Byte.
From Stdlib Require Import Floats.SpecFloat Lia.
From stdpp Require Import base option list gmap strings pretty sorting.

Local Open Scope Z_scope.

(* ===================================================================== *)
(** * NumPy: float32 arrays and their buffers *)
(* ===================================================================== *)

Module NumPy.

(** A Python [float] is an IEEE 754 value; [spec_float] carries it as sign,
    mantissa and exponent (value [m * 2^e]), with one NaN.  A float32 array
    element is the same type, restricted by [valid_float32]. *)
Definition prec32 : Z := 24.
Definition emax32 : Z := 128.

Definition valid_float32 (x : spec_float) : bool := valid_binary prec32 emax32 x.

(** The C cast double -> float that [np.array(..., dtype=np.float32)] and
    [astype(np.float32)] apply to every element: round to nearest, ties to
    even, overflow to infinity. *)
Definition float32_of_float (x : spec_float) : spec_float :=
  match x with
  | S754_finite s m e => binary_round prec32 emax32 s m e
  | _ => x
  end.

(** [np.array(xs, dtype=np.float32)] on a list of floats. *)
Definition array_float32 (xs : list spec_float) : list spec_float :=
  float32_of_float <$> xs.

(** The binary32 interchange format: 1 sign bit, 8 exponent bits (bias 127),
    23 fraction bits, as a 32-bit word in [Z]. *)
Definition join_bits32 (s : bool) (e m : Z) : Z :=
  Z.b2z s * 2 ^ 31 + e * 2 ^ 23 + m.

Definition float32_bits (x : spec_float) : Z :=
  match x with
  | S754_zero s => join_bits32 s 0 0
  | S754_infinity s => join_bits32 s 255 0
  | S754_nan => join_bits32 false 255 (2 ^ 22)
  | S754_finite s m e =>
      if 2 ^ 23 <=? Zpos m
      then join_bits32 s (e + 150) (Zpos m - 2 ^ 23)
      else join_bits32 s 0 (Zpos m)
  end.

Definition bits_float32 (w : Z) : spec_float :=
  let s := 2 ^ 31 <=? w in
  let e := (w / 2 ^ 23) mod 2 ^ 8 in
  let m := w mod 2 ^ 23 in
  if e =? 0 then
    match m with
    | Zpos p => S754_finite s p (-149)
    | _ => S754_zero s
    end
  else if e =? 255 then
    (if m =? 0 then S754_infinity s else S754_nan)
  else
    match m + 2 ^ 23 with
    | Zpos p => S754_finite s p (e - 150)
    | _ => S754_nan
    end.

(** Bytes of a 32-bit word.  [tobytes] writes the array's memory, so the
    order is the platform's ([sys.byteorder]). *)
Inductive byteorder := LittleEndian | BigEndian.

Definition byte_of_Z (z : Z) : byte :=
  match Byte.of_N (Z.to_N (z mod 256)) with
  | Some b => b
  | None => x00
  end.

Definition Z_of_byte (b : byte) : Z := Z.of_N (Byte.to_N b).

Definition word32_bytes (order : byteorder) (w : Z) : list byte :=
  let le := [byte_of_Z w; byte_of_Z (w / 2 ^ 8);
             byte_of_Z (w / 2 ^ 16); byte_of_Z (w / 2 ^ 24)] in
  match order with
  | LittleEndian => le
  | BigEndian => rev le
  end.

Definition bytes_word32 (order : byteorder) (b0 b1 b2 b3 : byte) : Z :=
  match order with
  | LittleEndian =>
      Z_of_byte b0 + Z_of_byte b1 * 2 ^ 8 + Z_of_byte b2 * 2 ^ 16 + Z_of_byte b3 * 2 ^ 24
  | BigEndian =>
      Z_of_byte b3 + Z_of_byte b2 * 2 ^ 8 + Z_of_byte b1 * 2 ^ 16 + Z_of_byte b0 * 2 ^ 24
  end.

(** [ndarray.tobytes()] of a one-dimensional float32 array: the elements
    one after the other, no header and no length. *)
Definition tobytes (order : byteorder) (a : list spec_float) : list byte :=
  flat_map (fun x => word32_bytes order (float32_bits x)) a.

(** Modelled from the spec: the deserializer of the round-trip property
    ("the stored vector fields, when deserialized from bytes").  The
    notebook only writes vectors; this is [np.frombuffer(b, dtype=np.float32)],
    the reader of the layout [tobytes] writes: four bytes per element, in
    the same byte order, and an error when the length is no multiple of
    four. *)
Fixpoint frombuffer (order : byteorder) (bs : list byte) : option (list spec_float) :=
  match bs with
  | [] => Some []
  | b0 :: b1 :: b2 :: b3 :: rest =>
      cons (bits_float32 (bytes_word32 order b0 b1 b2 b3)) <$> frombuffer order rest
  | _ => None
  end.

(** Two representations of the same number: equal signs and
    [m * 2^e = m' * 2^e']; zeros, infinities and NaN only equal
    themselves. *)
Definition same_float (x y : spec_float) : Prop :=
  match x, y with
  | S754_zero s, S754_zero s' => s = s'
  | S754_infinity s, S754_infinity s' => s = s'
  | S754_nan, S754_nan => True
  | S754_finite s m e, S754_finite s' m' e' =>
      s = s' /\
      if e' <=? e then Zpos m' = Zpos m * 2 ^ (e - e')
      else Zpos m = Zpos m' * 2 ^ (e' - e)
  | _, _ => False
  end.

(** A float is float32-representable when a float32 has its value. *)
Definition float32_representable (x : spec_float) : Prop :=
  exists y, valid_float32 y = true /\ same_float x y.

End NumPy.

(* ===================================================================== *)
(** * The Python run time *)
(* ===================================================================== *)

(** Heap addresses of Python objects. *)
Definition loc := positive.

(** Values a dict entry or an attribute can hold. *)
Inductive pyval :=
  | VInt (n : Z)
  | VStr (s : string)
  | VBytes (b : list byte)
  | VRef (l : loc).

(** One row of [article_df], with the dtypes the notebook reports after the
    vector columns went through [literal_eval] and [vector_id] through
    [str]: [id] is int64, the vector cells refer to list objects. *)
Record article := {
  row_id : Z;
  row_url : string;
  row_title : string;
  row_text : string;
  row_title_vector : loc;
  row_content_vector : loc;
  row_vector_id : string;
}.

Inductive pyobj :=
  | OList (xs : list spec_float)
  | ODict (d : gmap string pyval)
  | OFrame (rows : list article).

Inductive exn :=
  | KeyError (key : string)
  | AttributeError (attr : string)
  | ValueError (msg : string)
  | TypeError (msg : string)
  | DataError (msg : string)          (* redis.exceptions.DataError *)
  | ResponseError (msg : string)      (* redis.exceptions.ResponseError *)
  | ConnectionError (msg : string)    (* redis.exceptions.ConnectionError *)
  | TimeoutError (msg : string)       (* redis.exceptions.TimeoutError *)
  | OpenAIError (msg : string)        (* openai.error.OpenAIError *)
  | NotModelled (what : string).      (* a library path left out of the model *)

(** ** redis-py value types *)

Inductive field :=
  | TextField (name : string)
  | VectorField (name : string) (algorithm : string) (attributes : list (string * pyval)).

Inductive IndexType := HASH | JSON.

Record IndexDefinition := {
  definition_prefix : list string;
  definition_index_type : IndexType;
}.

(** [redis.commands.search.query.Query]: the attributes the notebook sets,
    with the constructor's defaults. *)
Record Query := {
  query_string : string;
  query_offset : Z;
  query_num : Z;
  query_return_fields : list string;
  query_sortby : option (string * bool);   (* field, ascending *)
  query_dialect : option Z;
}.

Definition mkQuery (query_string : string) : Query :=
  {| query_string := query_string; query_offset := 0; query_num := 10;
     query_return_fields := []; query_sortby := None; query_dialect := None |}.

Definition return_fields (q : Query) (fields : list string) : Query :=
  {| query_string := query_string q; query_offset := query_offset q;
     query_num := query_num q;
     query_return_fields := query_return_fields q ++ fields;
     query_sortby := query_sortby q; query_dialect := query_dialect q |}.

Definition sort_by (q : Query) (field : string) (asc : bool) : Query :=
  {| query_string := query_string q; query_offset := query_offset q;
     query_num := query_num q; query_return_fields := query_return_fields q;
     query_sortby := Some (field, asc); query_dialect := query_dialect q |}.

Definition paging (q : Query) (offset num : Z) : Query :=
  {| query_string := query_string q; query_offset := offset; query_num := num;
     query_return_fields := query_return_fields q;
     query_sortby := query_sortby q; query_dialect := query_dialect q |}.

Definition dialect (q : Query) (d : Z) : Query :=
  {| query_string := query_string q; query_offset := query_offset q;
     query_num := query_num q; query_return_fields := query_return_fields q;
     query_sortby := query_sortby q; query_dialect := Some d |}.

(** [redis.commands.search.document.Document]: the key and the returned
    fields, read as attributes. *)
Record Document := {
  doc_id : string;
  doc_fields : gmap string string;
}.

(** Commands the client sends. *)
Inductive command :=
  | FT_INFO (index : string)
  | FT_CREATE (index : string) (fields : list field) (definition : IndexDefinition)
  | HSET (key : string) (mapping : gmap string (list byte))
  | FT_SEARCH (index : string) (query : Query) (params : list (string * list byte)).

(** ** The world

    [heap] holds the Python objects; [hashes] and [indexes] are the store's
    keyspace and its search indexes; [trace] lists the commands issued so
    far; [stdout] the printed lines.  [faults] schedules, call by call, what
    lies outside the store model: [Some e] makes the next command raise [e]
    (connection lost, time-out, a rejection by the server), [None] lets it
    through, and an empty schedule lets every command through. *)
Record world := {
  heap : gmap loc pyobj;
  hashes : gmap string (gmap string (list byte));
  indexes : list (string * (list field * IndexDefinition));
  faults : list (option exn);
  trace : list command;
  stdout : list string;
}.

Definition set_heap (h : gmap loc pyobj) (w : world) : world :=
  {| heap := h; hashes := hashes w; indexes := indexes w;
     faults := faults w; trace := trace w; stdout := stdout w |}.
Definition set_hashes (h : gmap string (gmap string (list byte))) (w : world) : world :=
  {| heap := heap w; hashes := h; indexes := indexes w;
     faults := faults w; trace := trace w; stdout := stdout w |}.
Definition set_indexes (i : list (string * (list field * IndexDefinition))) (w : world) : world :=
  {| heap := heap w; hashes := hashes w; indexes := i;
     faults := faults w; trace := trace w; stdout := stdout w |}.
Definition set_faults (f : list (option exn)) (w : world) : world :=
  {| heap := heap w; hashes := hashes w; indexes := indexes w;
     faults := f; trace := trace w; stdout := stdout w |}.
Definition set_trace (t : list command) (w : world) : world :=
  {| heap := heap w; hashes := hashes w; indexes := indexes w;
     faults := faults w; trace := t; stdout := stdout w |}.
Definition set_stdout (o : list string) (w : world) : world :=
  {| heap := heap w; hashes := hashes w; indexes := indexes w;
     faults := faults w; trace := trace w; stdout := o |}.

(** ** State and exceptions *)

Inductive outcome (A : Type) :=
  | Return (a : A) (w : world)
  | Raise (e : exn) (w : world).
Arguments Return {A} a w.
Arguments Raise {A} e w.

Definition M (A : Type) : Type := world -> outcome A.

Definition ret {A} (a : A) : M A := fun w => Return a w.
Definition raise {A} (e : exn) : M A := fun w => Raise e w.
Definition bind {A B} (m : M A) (k : A -> M B) : M B :=
  fun w => match m w with
           | Return a w' => k a w'
           | Raise e w' => Raise e w'
           end.

Global Instance M_ret : MRet M := @ret.
Global Instance M_bind : MBind M := fun A B k m => bind m k.

(** [try: body / except: handler] with a bare [except], which catches every
    exception. *)
Definition try_except {A} (body handler : M A) : M A :=
  fun w => match body w with
           | Return a w' => Return a w'
           | Raise _ w' => handler w'
           end.

(** [for x in xs: body] and [for i, x in enumerate(xs): body]. *)
Fixpoint for_each {A} (body : A -> M unit) (xs : list A) : M unit :=
  match xs with
  | [] => ret tt
  | x :: xs' => body x;; for_each body xs'
  end.

Fixpoint for_enumerate {A} (body : Z -> A -> M unit) (i : Z) (xs : list A) : M unit :=
  match xs with
  | [] => ret tt
  | x :: xs' => body i x;; for_enumerate body (i + 1) xs'
  end.

Definition print (line : string) : M unit :=
  fun w => Return tt (set_stdout (stdout w ++ [line]) w).

(** ** Objects *)

Definition alloc (o : pyobj) : M loc :=
  fun w => let l := fresh (dom (heap w)) in
           Return l (set_heap (<[l := o]> (heap w)) w).

Definition deref (l : loc) : M pyobj :=
  fun w => match heap w !! l with
           | Some o => Return o w
           | None => Raise (NotModelled "dangling reference") w
           end.

(** [d[key]] *)
Definition getitem (d : loc) (key : string) : M pyval :=
  o ← deref d;
  match o with
  | ODict m =>
      match m !! key with
      | Some v => ret v
      | None => raise (KeyError key)
      end
  | _ => raise (TypeError "object is not subscriptable by a string")
  end.

(** [d[key] = v] *)
Definition setitem (d : loc) (key : string) (v : pyval) : M unit :=
  o ← deref d;
  match o with
  | ODict m => fun w => Return tt (set_heap (<[d := ODict (<[key := v]> m)]> (heap w)) w)
  | _ => raise (TypeError "object does not support item assignment")
  end.

(** [str(v)] for the values a key is built from.  The [repr] of a bytes or
    list object is left out of the model. *)
Definition py_str (v : pyval) : M string :=
  match v with
  | VInt n => ret (pretty n)
  | VStr s => ret s
  | VBytes _ => raise (NotModelled "str of a bytes object")
  | VRef _ => raise (NotModelled "str of a container")
  end.

(** [np.array(v, dtype=np.float32)] for a list of floats. *)
Definition np_array_float32 (v : pyval) : M (list spec_float) :=
  match v with
  | VRef l =>
      o ← deref l;
      match o with
      | OList xs => ret (NumPy.array_float32 xs)
      | _ => raise (NotModelled "np.array of a dict or a frame")
      end
  | _ => raise (NotModelled "np.array of a scalar")
  end.

(** [DataFrame.to_dict("records")]: one new dict per row, column name to
    cell.  A cell that refers to an object is copied as a reference. *)
Definition dict_of_row (r : article) : gmap string pyval :=
  <["id" := VInt (row_id r)]>
  (<["url" := VStr (row_url r)]>
  (<["title" := VStr (row_title r)]>
  (<["text" := VStr (row_text r)]>
  (<["title_vector" := VRef (row_title_vector r)]>
  (<["content_vector" := VRef (row_content_vector r)]>
  (<["vector_id" := VStr (row_vector_id r)]> ∅)))))).

Fixpoint alloc_records (rows : list article) : M (list loc) :=
  match rows with
  | [] => ret []
  | r :: rows' =>
      d ← alloc (ODict (dict_of_row r));
      ds ← alloc_records rows';
      ret (d :: ds)
  end.

Definition to_dict_records (documents : loc) : M (list loc) :=
  o ← deref documents;
  match o with
  | OFrame rows => alloc_records rows
  | _ => raise (AttributeError "to_dict")
  end.

(** ** Numbers in replies

    The store reports a distance as a decimal numeral,
    [sign digits . digits e sign digits]; [decimal_value] is the rational it
    denotes.  The spellings [nan] and [inf] are not numerals here. *)

Definition digit_value (c : ascii) : option Z :=
  let n := Z.of_N (N_of_ascii c) in
  if (48 <=? n) && (n <=? 57) then Some (n - 48) else None.

Fixpoint digits_value (acc : Z) (cs : list ascii) : option Z :=
  match cs with
  | [] => Some acc
  | c :: cs' =>
      match digit_value c with
      | Some d => digits_value (10 * acc + d) cs'
      | None => None
      end
  end.

Definition strip_sign (cs : list ascii) : bool * list ascii :=
  match cs with
  | "-"%char :: cs' => (true, cs')
  | "+"%char :: cs' => (false, cs')
  | _ => (false, cs)
  end.

(** Split at the first character satisfying [p]; the second part is absent
    when there is none. *)
Fixpoint split_on (p : ascii -> bool) (cs : list ascii) : list ascii * option (list ascii) :=
  match cs with
  | [] => ([], None)
  | c :: cs' =>
      if p c then ([], Some cs')
      else let '(a, b) := split_on p cs' in (c :: a, b)
  end.

Definition is_dot (c : ascii) : bool := Ascii.eqb c "."%char.
Definition is_exp (c : ascii) : bool := Ascii.eqb c "e"%char || Ascii.eqb c "E"%char.

Definition exponent_value (cs : list ascii) : option Z :=
  let '(neg, ds) := strip_sign cs in
  match ds with
  | [] => None
  | _ => (fun n => if neg then - n else n) <$> digits_value 0 ds
  end.

Definition decimal_value (s : string) : option Q :=
  let '(neg, cs) := strip_sign (list_ascii_of_string s) in
  let '(mant, ex) := split_on is_exp cs in
  let '(ip, fo) := split_on is_dot mant in
  let fp := default [] fo in
  match ip, fp with
  | [], [] => None
  | _, _ =>
      i ← digits_value 0 ip;
      f ← digits_value 0 fp;
      e ← match ex with
          | None => Some 0
          | Some ecs => exponent_value ecs
          end;
      let scale := 10 ^ Z.of_nat (length fp) in
      let q := (inject_Z (i * scale + f) / inject_Z scale * Qpower (inject_Z 10) e)%Q in
      Some (if neg then (- q)%Q else q)
  end.

(** [round(x, 3)] and the [repr] of its result, as an f-string prints it:
    the value rounded half-to-even to thousandths, written with the shortest
    fraction that has at least one digit (magnitudes below 1e16). *)
Definition round_half_even (q : Q) : Z :=
  let f := Qfloor q in
  match Qcompare (q - inject_Z f) (1 # 2) with
  | Lt => f
  | Gt => f + 1
  | Eq => if Z.even f then f else f + 1
  end.

Definition pad_left (width : nat) (s : string) : string :=
  String.concat "" (replicate (width - String.length s) "0"%string) +:+ s.

Definition repr_round3 (x : Q) : string :=
  let n := Z.abs (round_half_even (x * inject_Z 1000)) in
  let r := n mod 1000 in
  let frac :=
    if r mod 100 =? 0 then pretty (r / 100)
    else if r mod 10 =? 0 then pad_left 2 (pretty (r / 10))
    else pad_left 3 (pretty r) in
  (if Qlt_le_dec x 0 then "-" else "") +:+ pretty (n / 1000) +:+ "." +:+ frac.

(** The order [SORTBY] uses on a numeric field: by value, a document
    without the field (or with a value that is no numeral) after all
    others. *)
Definition sort_key (field : string) (d : Document) : option Q :=
  doc_fields d !! field ≫= decimal_value.

Definition key_le (a b : option Q) : Prop :=
  match a, b with
  | Some x, Some y => (x <= y)%Q
  | _, None => True
  | None, Some _ => False
  end.

Global Instance key_le_dec a b : Decision (key_le a b).
Proof.
  destruct a as [x|], b as [y|]; simpl;
    [destruct (Qlt_le_dec y x); [right; apply Qlt_not_le; assumption | left; assumption]
    | left; exact I | right; intros [] | left; exact I].
Defined.

Definition doc_le (field : string) (asc : bool) (d1 d2 : Document) : Prop :=
  if asc then key_le (sort_key field d1) (sort_key field d2)
  else key_le (sort_key field d2) (sort_key field d1).

Global Instance doc_le_dec field asc d1 d2 : Decision (doc_le field asc d1 d2).
Proof. unfold doc_le. destruct asc; apply _. Defined.

Definition apply_sortby (sortby : option (string * bool)) (docs : list Document) : list Document :=
  match sortby with
  | Some (field, asc) => merge_sort (doc_le field asc) docs
  | None => docs
  end.

Definition apply_limit (offset num : Z) (docs : list Document) : list Document :=
  take (Z.to_nat num) (drop (Z.to_nat offset) docs).

Definition apply_return (fields : list string) (d : Document) : Document :=
  match fields with
  | [] => d
  | _ => {| doc_id := doc_id d;
            doc_fields := filter (fun kv => kv.1 ∈ fields) (doc_fields d) |}
  end.

Fixpoint index_lookup (name : string) (ixs : list (string * (list field * IndexDefinition)))
  : option (list field * IndexDefinition) :=
  match ixs with
  | [] => None
  | (n, schema) :: ixs' => if String.eqb n name then Some schema else index_lookup name ixs'
  end.

(* ===================================================================== *)
(** * The redis-py client against the store *)
(* ===================================================================== *)

(** Every command is recorded in [trace] and consumes one entry of the fault
    schedule before the store serves it. *)
Definition send {A} (c : command) (serve : M A) : M A :=
  fun w =>
    let w1 := set_trace (trace w ++ [c]) w in
    match faults w1 with
    | [] => serve w1
    | None :: fs => serve (set_faults fs w1)
    | Some e :: fs => Raise e (set_faults fs w1)
    end.

(** [client.ft(index).info()] *)
Definition ft_info (index : string) : M unit :=
  send (FT_INFO index)
    (fun w => match index_lookup index (indexes w) with
              | Some _ => Return tt w
              | None => Raise (ResponseError "Unknown index name") w
              end).

(** [client.ft(index).create_index(fields=..., definition=...)] *)
Definition ft_create_index (index : string) (fields : list field)
    (definition : IndexDefinition) : M unit :=
  send (FT_CREATE index fields definition)
    (fun w => match index_lookup index (indexes w) with
              | Some _ => Raise (ResponseError "Index already exists") w
              | None => Return tt (set_indexes (indexes w ++ [(index, (fields, definition))]) w)
              end).

(** The client's encoder: bytes as they are, [str] as its UTF-8 bytes (a
    [string] here is that byte sequence already), [int] as its decimal
    numeral; anything else is refused with [DataError]. *)
Definition encode_value (v : pyval) : option (list byte) :=
  match v with
  | VBytes b => Some b
  | VStr s => Some (list_byte_of_string s)
  | VInt n => Some (list_byte_of_string (pretty n))
  | VRef _ => None
  end.

Definition encode_mapping (d : gmap string pyval) : option (gmap string (list byte)) :=
  if decide (map_Forall (fun _ v => is_Some (encode_value v)) d)
  then Some (omap encode_value d)
  else None.

(** [client.hset(name, mapping=mapping)]: sets the given fields of the hash
    at [name], keeps its other fields, and returns how many fields are new. *)
Definition hset (name : string) (mapping : loc) : M Z :=
  o ← deref mapping;
  match o with
  | ODict d =>
      if (size d =? 0)%nat then raise (DataError "'hset' with no key value pairs")
      else
        match encode_mapping d with
        | None => raise (DataError "Invalid input of type: 'list'")
        | Some items =>
            send (HSET name items)
              (fun w =>
                 let old := default ∅ (hashes w !! name) in
                 Return (Z.of_nat (size (items ∖ old)))
                        (set_hashes (<[name := items ∪ old]> (hashes w)) w))
        end
  | _ => raise (AttributeError "items")
  end.

(** [getattr(document, name)] *)
Definition attr (d : Document) (name : string) : option string :=
  if String.eqb name "id" then Some (doc_id d) else doc_fields d !! name.

Definition getattr (d : Document) (name : string) : M string :=
  match attr d name with
  | Some v => ret v
  | None => raise (AttributeError name)
  end.

(** The world an outcome leaves, and the commands issued between two
    worlds. *)
Definition world_of {A} (o : outcome A) : world :=
  match o with
  | Return _ w => w
  | Raise _ w => w
  end.

Definition commands_since (w w' : world) : list command :=
  drop (length (trace w)) (trace w').

Definition lines_since (w w' : world) : list string :=
  drop (length (stdout w)) (stdout w').

(** The list object a vector cell refers to. *)
Definition vector_of (h : gmap loc pyobj) (l : loc) : option (list spec_float) :=
  match h !! l with
  | Some (OList xs) => Some xs
  | _ => None
  end.

Definition row_ok (h : gmap loc pyobj) (r : article) : Prop :=
  is_Some (vector_of h (row_title_vector r)) /\
  is_Some (vector_of h (row_content_vector r)).

Definition vector_cells (r : article) : list (string * loc) :=
  [("title_vector"%string, row_title_vector r);
   ("content_vector"%string, row_content_vector r)].

Definition scalar_cells (r : article) : list (string * string) :=
  [("id", pretty (row_id r)); ("url", row_url r); ("title", row_title r);
   ("text", row_text r); ("vector_id", row_vector_id r)]%string.

(** [touches D m]: whatever [m] does, the objects outside [D] are left as
    they are. *)
Definition touches {A} (D : loc -> Prop) (m : M A) : Prop :=
  forall w l, ~ D l -> heap (world_of (m w)) !! l = heap w !! l.

(** How many indexes of the store have the name [name]. *)
Definition index_count (name : string) (w : world) : nat :=
  length (filter (fun ix => ix.1 = name) (indexes w)).

(** [IndexDefinition(prefix=[prefix], index_type=IndexType.HASH)] *)
Definition hash_definition (prefix : string) : IndexDefinition :=
  {| definition_prefix := [prefix]; definition_index_type := HASH |}.

Section Notebook.

(** The platform and the services outside the repository:
    - [native]: the byte order of the machine ([sys.byteorder]);
    - [rnd]: rounding of a real result to the nearest binary64, which
      [float(s)] and float subtraction apply; only its monotonicity is
      ever used;
    - [embedding_create model input]: the embedding service,
      [openai.Embedding.create(input=..., model=...)["data"][0]["embedding"]];
    - [engine keyspace schema query dialect params]: the store's evaluation
      of a query expression, filter and KNN clause included: the matching
      documents, each with its fields and the distance the clause yields,
      or the error it answers with. *)
Variable native : NumPy.byteorder.
Variable rnd : Q -> Q.
Variable embedding_create : string -> string -> exn + list spec_float.
Variable engine :
  gmap string (gmap string (list byte)) -> list field * IndexDefinition ->
  string -> option Z -> list (string * list byte) -> exn + list Document.

(** [client.ft(index).search(query, params).docs]: the store evaluates the
    expression, then applies SORTBY, LIMIT and RETURN. *)
Definition ft_search (index : string) (query : Query)
    (params : list (string * list byte)) : M (list Document) :=
  send (FT_SEARCH index query params)
    (fun w =>
       match index_lookup index (indexes w) with
       | None => Raise (ResponseError (index +:+ ": no such index")) w
       | Some schema =>
           if (query_offset query <? 0) || (query_num query <? 0)
           then Raise (ResponseError "LIMIT arguments must be non-negative") w
           else
             match engine (hashes w) schema (query_string query)
                          (query_dialect query) params with
             | inl e => Raise e w
             | inr matched =>
                 Return (apply_return (query_return_fields query) <$>
                           apply_limit (query_offset query) (query_num query)
                             (apply_sortby (query_sortby query) matched)) w
             end
       end).

(** [float(s)] on the numerals a reply carries.  Blanks around the
    numeral, underscores between digits and the spellings [nan] and [inf],
    which [float] reads too, raise here. *)
Definition py_float (s : string) : M Q :=
  match decimal_value s with
  | Some q => ret (rnd q)
  | None => raise (ValueError "could not convert string to float")
  end.

(** ** The notebook *)

Definition EMBEDDING_MODEL : string := "text-embedding-3-small".
Definition INDEX_NAME : string := "embeddings-index".
Definition PREFIX : string := "doc".
Definition DISTANCE_METRIC : string := "COSINE".

Definition fields (VECTOR_DIM VECTOR_NUMBER : Z) : list field :=
  let title := TextField "title" in
  let url := TextField "url" in
  let text := TextField "text" in
  let title_embedding :=
    VectorField "title_vector" "FLAT"
      [("TYPE", VStr "FLOAT32"); ("DIM", VInt VECTOR_DIM);
       ("DISTANCE_METRIC", VStr DISTANCE_METRIC);
       ("INITIAL_CAP", VInt VECTOR_NUMBER)] in
  let text_embedding :=
    VectorField "content_vector" "FLAT"
      [("TYPE", VStr "FLOAT32"); ("DIM", VInt VECTOR_DIM);
       ("DISTANCE_METRIC", VStr DISTANCE_METRIC);
       ("INITIAL_CAP", VInt VECTOR_NUMBER)] in
  [title; url; text; title_embedding; text_embedding].

(** The provisioning cell, over the globals it reads. *)
Definition ensure_index (index_name : string) (fields : list field)
    (prefix : string) : M unit :=
  try_except
    (ft_info index_name;;
     print "Index already exists")
    (ft_create_index index_name fields
       {| definition_prefix := [prefix]; definition_index_type := HASH |}).

(** The body of the [for doc in records] loop of [index_documents]. *)
Definition index_documents_body (prefix : string) (doc : loc) : M unit :=
  id ← getitem doc "id";
  id_str ← py_str id;
  let key := prefix +:+ ":" +:+ id_str in
  (* create byte vectors for title and content *)
  title_vector ← getitem doc "title_vector";
  title_array ← np_array_float32 title_vector;
  let title_embedding := NumPy.tobytes native title_array in
  content_vector ← getitem doc "content_vector";
  content_array ← np_array_float32 content_vector;
  let content_embedding := NumPy.tobytes native content_array in
  (* replace list of floats with byte vectors *)
  setitem doc "title_vector" (VBytes title_embedding);;
  setitem doc "content_vector" (VBytes content_embedding);;
  hset key doc;;
  ret tt.

Definition index_documents (prefix : string) (documents : loc) : M unit :=
  records ← to_dict_records documents;
  for_each (index_documents_body prefix) records.

Definition openai_Embedding_create (input model : string) : M (list spec_float) :=
  match embedding_create model input with
  | inl e => raise e
  | inr v => ret v
  end.

(** The body of the [for i, article in enumerate(results.docs)] loop of
    [search_redis]. *)
Definition print_result (i : Z) (article : Document) : M unit :=
  vector_score ← getattr article "vector_score";
  distance ← py_float vector_score;
  let score := rnd (1 - distance)%Q in
  title ← getattr article "title";
  print (pretty i +:+ ". " +:+ title +:+ " (Score: " +:+ repr_round3 score +:+ ")").

Definition search_redis (user_query index_name vector_field : string)
    (return_fields_arg : list string) (hybrid_fields : string) (k : Z)
  : M (list Document) :=
  (* Creates embedding vector from user query *)
  embedded_query ← openai_Embedding_create user_query EMBEDDING_MODEL;
  (* Prepare the Query *)
  let base_query :=
    hybrid_fields +:+ "=>[KNN " +:+ pretty k +:+ " @" +:+ vector_field
      +:+ " $vector AS vector_score]" in
  let query :=
    dialect (paging (sort_by (return_fields (mkQuery base_query) return_fields_arg)
                             "vector_score" true) 0 k) 2 in
  let params_dict :=
    [("vector"%string, NumPy.tobytes native (NumPy.array_float32 embedded_query))] in
  (* perform vector search *)
  docs ← ft_search index_name query params_dict;
  for_enumerate print_result 0 docs;;
  ret docs.

(** The defaults of [search_redis]'s keyword parameters. *)
Definition default_index_name : string := "embeddings-index".
Definition default_vector_field : string := "title_vector".
Definition default_return_fields : list string := ["title"; "url"; "text"; "vector_score"]%string.
Definition default_hybrid_fields : string := "*".
Definition default_k : Z := 20.

Definition dquote : string := String "034"%char EmptyString.

Definition create_hybrid_field (field_name value : string) : string :=
  "@" +:+ field_name +:+ ":" +:+ dquote +:+ value +:+ dquote.

(** ** Notions the statements below use *)

(** [float(article.vector_score)] and [1 - float(article.vector_score)]
    of a returned document. *)
Definition raw_distance (d : Document) : option Q :=
  rnd <$> (attr d "vector_score" ≫= decimal_value).

Definition normalized_score (d : Document) : option Q :=
  (fun x => rnd (1 - x)%Q) <$> raw_distance d.

(** The line [search_redis] prints for the [i]-th document. *)
Definition result_line (i : Z) (d : Document) : option string :=
  score ← normalized_score d;
  title ← attr d "title";
  Some (pretty i +:+ ". " +:+ title +:+ " (Score: " +:+ repr_round3 score +:+ ")").



(** The query and the parameters [search_redis] hands to the store, written
    out. *)
Definition knn_query (hybrid_fields vector_field : string) (fields : list string)
    (k : Z) : Query :=
  {| query_string :=
       hybrid_fields +:+ "=>[KNN " +:+ pretty k +:+ " @" +:+ vector_field
         +:+ " $vector AS vector_score]";
     query_offset := 0;
     query_num := k;
     query_return_fields := fields;
     query_sortby := Some ("vector_score"%string, true);
     query_dialect := Some 2 |}.

Definition knn_params (embedded_query : list spec_float) : list (string * list byte) :=
  [("vector"%string, NumPy.tobytes native (NumPy.array_float32 embedded_query))].

(** The dict [hset] receives for a row whose vector cells hold [tv] and
    [cv], and the command it becomes for the heap [h]. *)
Definition final_dict (tv cv : list spec_float) (r : article) : gmap string pyval :=
  <["content_vector" := VBytes (NumPy.tobytes native (NumPy.array_float32 cv))]>
    (<["title_vector" := VBytes (NumPy.tobytes native (NumPy.array_float32 tv))]>
       (dict_of_row r)).

Definition row_command (prefix : string) (h : gmap loc pyobj) (r : article) : command :=
  HSET (prefix +:+ ":" +:+ pretty (row_id r))
       (omap encode_value
          (final_dict (default [] (vector_of h (row_title_vector r)))
                      (default [] (vector_of h (row_content_vector r))) r)).

End Notebook.


(** How a query expression reads its double quotes: a phrase runs from a
    quote to the next one, a backslash takes the next character literally.
    [quoted_phrases] lists the phrases and is [None] when a quote is left
    open. *)
Fixpoint scan_phrases (inside : option string) (s : string) : option (list string) :=
  match s with
  | EmptyString =>
      match inside with
      | None => Some []
      | Some _ => None
      end
  | String c s' =>
      match inside with
      | None =>
          if Ascii.eqb c "034"%char then scan_phrases (Some EmptyString) s'
          else if Ascii.eqb c "\"%char then
            match s' with
            | String _ s'' => scan_phrases None s''
            | EmptyString => Some []
            end
          else scan_phrases None s'
      | Some cur =>
          if Ascii.eqb c "034"%char then cons cur <$> scan_phrases None s'
          else if Ascii.eqb c "\"%char then
            match s' with
            | String c' s'' => scan_phrases (Some (cur +:+ String c' EmptyString)) s''
            | EmptyString => None
            end
          else scan_phrases (Some (cur +:+ String c EmptyString)) s'
      end
  end.

Definition quoted_phrases (s : string) : option (list string) := scan_phrases None s.

Fixpoint count_dquotes (s : string) : nat :=
  match s with
  | EmptyString => 0
  | String c s' => (if Ascii.eqb c "034"%char then 1 else 0) + count_dquotes s'
  end.

(* ===================================================================== *)
(** * Notions and cells of the further properties *)
(* ===================================================================== *)

(** ** What a computation leaves alone *)

(** [respects R m]: whatever [m] does, and whether it returns or raises, the
    world it leaves is related by [R] to the world it started from.
    [same f] relates two worlds with the same observation [f]. *)
Definition respects {A} (R : relation world) (m : M A) : Prop :=
  forall w, R w (world_of (m w)).

Definition same {B} (f : world -> B) : relation world :=
  fun w w' => f w' = f w.

(** A relation that does not look at the Python objects, at the command
    trace, at the fault schedule or at the printed lines. *)
Definition blind_to_heap (R : relation world) : Prop :=
  forall h w, R w (set_heap h w).
Definition blind_to_trace (R : relation world) : Prop :=
  forall t w, R w (set_trace t w).
Definition blind_to_faults (R : relation world) : Prop :=
  forall fs w, R w (set_faults fs w).
Definition blind_to_stdout (R : relation world) : Prop :=
  forall o w, R w (set_stdout o w).

(** ** The keyspace after a run of commands *)

(** The keyspace once the store has served [HSET key items]: the fields of
    [items] are set in the hash at [key], its other fields stay. *)
Definition hset_served (key : string) (items : gmap string (list byte))
    (hs : gmap string (gmap string (list byte))) : gmap string (gmap string (list byte)) :=
  <[key := items ∪ default ∅ (hs !! key)]> hs.

Definition served (hs : gmap string (gmap string (list byte))) (c : command)
  : gmap string (gmap string (list byte)) :=
  match c with
  | HSET key items => hset_served key items hs
  | _ => hs
  end.

Definition served_all (hs : gmap string (gmap string (list byte))) (cs : list command)
  : gmap string (gmap string (list byte)) :=
  foldl served hs cs.

(** The last mapping a run of commands writes at [key]. *)
Fixpoint last_write (key : string) (cs : list command) : option (gmap string (list byte)) :=
  match cs with
  | [] => None
  | c :: cs' =>
      match last_write key cs' with
      | Some m => Some m
      | None =>
          match c with
          | HSET k m => if decide (k = key) then Some m else None
          | _ => None
          end
      end
  end.

(** The key [index_documents] writes a row at, and the columns of a row. *)
Definition row_key (prefix : string) (r : article) : string :=
  prefix +:+ ":" +:+ pretty (row_id r).

Definition columns : list string :=
  ["id"; "url"; "title"; "text"; "title_vector"; "content_vector"; "vector_id"]%string.

(** [writes_under prefix w w']: the keyspace of [w'] is the one of [w] after
    some writes, all at keys that start with [prefix] and a colon. *)
Definition writes_under (prefix : string) : relation world :=
  fun w w' =>
    exists cs,
      Forall (fun c => exists s m, c = HSET (prefix +:+ ":" +:+ s) m) cs /\
      hashes w' = served_all (hashes w) cs.

(** No command among the next [n] is scheduled to fail. *)
Definition no_fault_within (n : nat) (fs : list (option exn)) : Prop :=
  forall i e, (i < n)%nat -> fs !! i <> Some (Some e).

(** The mappings of a run all set the same fields. *)
Definition same_fields (D : gset string) (cs : list command) : Prop :=
  Forall (fun c => forall k m, c = HSET k m -> dom m = D) cs.

(** ** The cells around the functions *)

(** [len(v)] of a list, a dict, a frame (its number of rows) or a bytes
    object.  The length of a [str] counts code points, which a [string] of
    bytes does not show; it is left out. *)
Definition py_len (v : pyval) : M Z :=
  match v with
  | VRef l =>
      o ← deref l;
      match o with
      | OList xs => ret (Z.of_nat (length xs))
      | ODict d => ret (Z.of_nat (size d))
      | OFrame rows => ret (Z.of_nat (length rows))
      end
  | VBytes b => ret (Z.of_nat (length b))
  | VStr _ => raise (NotModelled "len of a str")
  | VInt _ => raise (TypeError "object of type 'int' has no len()")
  end.

(** [frame[column][0]]: the cell of [column] in the row labelled 0, which
    is the first row under the default index [read_csv] gives the frame;
    [KeyError] for a column the frame does not have, and for the label on a
    frame without rows. *)
Definition frame_column_first (frame : loc) (column : string) : M pyval :=
  o ← deref frame;
  match o with
  | OFrame rows =>
      if bool_decide (column ∈ columns) then
        match rows with
        | [] => raise (KeyError "0")
        | r :: _ =>
            match dict_of_row r !! column with
            | Some v => ret v
            | None => raise (KeyError column)
            end
        end
      else raise (KeyError column)
  | _ => raise (NotModelled "subscript of an object that is no frame")
  end.

(** The constants cell: [VECTOR_DIM] and [VECTOR_NUMBER], read off the
    frame.  The three other constants are the strings [INDEX_NAME],
    [PREFIX] and [DISTANCE_METRIC]. *)
Definition constants_cell (article_df : loc) : M (Z * Z) :=
  first_vector ← frame_column_first article_df "title_vector";
  VECTOR_DIM ← py_len first_vector;
  VECTOR_NUMBER ← py_len (VRef article_df);
  ret (VECTOR_DIM, VECTOR_NUMBER).

(** [Field.name] *)
Definition field_name (f : field) : string :=
  match f with
  | TextField name => name
  | VectorField name _ _ => name
  end.

(** ** Strings of a query and of a text *)

(** A string without double quote and without backslash, the two
    characters [scan_phrases] gives a meaning to. *)
Fixpoint plain (s : string) : bool :=
  match s with
  | EmptyString => true
  | String c s' =>
      negb (Ascii.eqb c "034"%char) && negb (Ascii.eqb c "\"%char) && plain s'
  end.

(** [c in s] for a character. *)
Fixpoint has_char (c : ascii) (s : string) : bool :=
  match s with
  | EmptyString => false
  | String c' s' => Ascii.eqb c' c || has_char c s'
  end.

Definition newline : ascii := "010"%char.

(** [s.split(sep)] for a separator of one character: the pieces between
    the separators, empty pieces included, so one piece more than there are
    separators. *)
Fixpoint str_split (sep : ascii) (s : string) : list string :=
  match s with
  | EmptyString => [EmptyString]
  | String c s' =>
      if Ascii.eqb c sep then EmptyString :: str_split sep s'
      else
        match str_split sep s' with
        | piece :: pieces => String c piece :: pieces
        | [] => [String c EmptyString]
        end
  end.

(** [sub in s] for strings. *)
Fixpoint str_contains (sub s : string) : bool :=
  String.prefix sub s ||
  match s with
  | EmptyString => false
  | String _ s' => str_contains sub s'
  end.

(** The exceptions of the last cell: those of [exn], and [IndexError] for
    a subscript out of range. *)
Inductive cell_exn :=
  | Raised (e : exn)
  | IndexError (msg : string).

(** The expression of the last cell,
    [[sentence for sentence in results[0].text.split(newline) if phrase in sentence][0]],
    over the phrase it looks for; [mention] is the cell. *)
Definition first_mention (phrase : string) (results : list Document) : cell_exn + string :=
  match results with
  | [] => inl (IndexError "list index out of range")
  | article :: _ =>
      match attr article "text" with
      | None => inl (Raised (AttributeError "text"))
      | Some text =>
          match List.filter (str_contains phrase) (str_split newline text) with
          | [] => inl (IndexError "list index out of range")
          | sentence :: _ => inr sentence
          end
      end
  end.

Definition mention (results : list Document) : cell_exn + string :=
  first_mention "Leonardo da Vinci" results.

(* ===================================================================== *)
(** * A small instance

    Two articles with three-dimensional vectors, a store that answers every
    command, an embedding service and an engine with fixed answers, and
    exact arithmetic for [rnd]. *)
(* ===================================================================== *)

Definition exact (q : Q) : Q := q.

(** 1.0, 0.5 and 0.1 as binary64 values. *)
Definition float_one : spec_float := S754_finite false 4503599627370496 (-52).
Definition float_half : spec_float := S754_finite false 4503599627370496 (-53).
Definition float_tenth : spec_float := S754_finite false 7205759403792794 (-56).
Definition float_zero : spec_float := S754_zero false.

Definition demo_rows : list article :=
  [ {| row_id := 1; row_url := "https://simple.wikipedia.org/wiki/April";
       row_title := "April"; row_text := "April is the fourth month of the year";
       row_title_vector := 1%positive; row_content_vector := 2%positive;
       row_vector_id := "0" |};
    {| row_id := 2; row_url := "https://simple.wikipedia.org/wiki/August";
       row_title := "August"; row_text := "August is the eighth month of the year";
       row_title_vector := 3%positive; row_content_vector := 4%positive;
       row_vector_id := "1" |} ].

Definition demo_heap : gmap loc pyobj :=
  <[1%positive := OList [float_one; float_zero; float_zero]]>
  (<[2%positive := OList [float_zero; float_one; float_tenth]]>
  (<[3%positive := OList [float_half; float_half; float_zero]]>
  (<[4%positive := OList [float_tenth; float_zero; float_one]]>
  (<[5%positive := OFrame demo_rows]> ∅)))).

Definition demo_world : world :=
  {| heap := demo_heap; hashes := ∅; indexes := []; faults := [];
     trace := []; stdout := [] |}.

(** The same world once the index exists, and with a connection that fails
    on the next command. *)
Definition demo_indexed : world :=
  set_indexes [(INDEX_NAME, (fields 3 2, hash_definition PREFIX))] demo_world.

Definition demo_unreachable : world :=
  set_faults [Some (ConnectionError "Connection refused")] demo_indexed.

Definition demo_embedding (model input : string) : exn + list spec_float :=
  inr [float_one; float_zero; float_zero].

Definition demo_engine (keyspace : gmap string (gmap string (list byte)))
    (schema : list field * IndexDefinition) (query : string) (dialect : option Z)
    (params : list (string * list byte)) : exn + list Document :=
  inr [ {| doc_id := "doc:2";
           doc_fields := <["title" := "August"]> (<["vector_score" := "0.14"]>
                         (<["url" := "https://simple.wikipedia.org/wiki/August"]> ∅)) |};
        {| doc_id := "doc:1";
           doc_fields := <["title" := "April"]> (<["vector_score" := "0.125"]>
                         (<["url" := "https://simple.wikipedia.org/wiki/April"]> ∅)) |};
        {| doc_id := "doc:3";
           doc_fields := <["title" := "Art"]> (<["vector_score" := "0.5"]>
                         (<["url" := "https://simple.wikipedia.org/wiki/Art"]> ∅)) |} ]%string.

Definition demo_search : outcome (list Document) :=
  search_redis NumPy.LittleEndian exact demo_embedding demo_engine
    "the fourth month" default_index_name default_vector_field
    default_return_fields default_hybrid_fields 2 demo_indexed.

Definition demo_docs : list Document :=
  match demo_search with
  | Return docs _ => docs
  | Raise _ _ => []
  end.

(** The instance, continued: an embedding service that is down, a frame
    without rows behind a store that is out of reach, a store that serves
    one write and fails the next, and a result whose text has three
    lines. *)
Definition demo_embedding_down (model input : string) : exn + list spec_float :=
  inl (OpenAIError "The server is overloaded").

Definition demo_empty_frame : world :=
  {| heap := <[1%positive := OFrame []]> ∅; hashes := ∅; indexes := [];
     faults := [Some (ConnectionError "Connection refused")];
     trace := []; stdout := [] |}.

Definition demo_flaky : world :=
  set_faults [None; Some (TimeoutError "Timeout reading from socket")] demo_world.

Definition demo_article : Document :=
  {| doc_id := "doc:7";
     doc_fields :=
       <["title" := "Art"]>
       (<["text" := "Art is a creative activity." +:+ String newline ""
                    +:+ "Leonardo da Vinci painted the Mona Lisa." +:+ String newline ""
                    +:+ "Many artists followed Leonardo da Vinci."]> ∅) |}%string.


(* ===================================================================== *)
(** * Proofs *)
(* ===================================================================== *)

(** ** Rounding to a binary format

    [binary_round] always lands in the format, and leaves a number of the
    format as it is. *)

Lemma iter_pos_Pos_iter {A} (f : A → A) p x : SpecFloat.iter_pos f p x = Pos.iter f x p.
Proof.
  revert x. induction p as [p IH|p IH|]; intros x; simpl; auto.
  - rewrite !IH. rewrite <- Pos.iter_swap. f_equal. now rewrite Pos.iter_swap.
  - now rewrite !IH.
Qed.

Lemma shr_1_m mrs : 0 <= shr_m mrs → shr_m (shr_1 mrs) = shr_m mrs / 2.
Proof.
  destruct mrs as [m r s]. simpl. intros Hm.
  destruct m as [|[p|p|]|p]; cbn [shr_m]; try lia.
  - reflexivity.
  - apply Z.div_unique with 1; lia.
  - apply Z.div_unique with 0; lia.
  - reflexivity.
Qed.

Lemma shr_iter_m p mrs :
  0 <= shr_m mrs → shr_m (SpecFloat.iter_pos shr_1 p mrs) = shr_m mrs / 2 ^ Zpos p.
Proof.
  intros Hm. rewrite iter_pos_Pos_iter.
  induction p as [|p IH] using Pos.peano_ind.
  - simpl. rewrite shr_1_m by done. reflexivity.
  - rewrite Pos.iter_succ, shr_1_m.
    + rewrite IH, Pos2Z.inj_succ, Z.pow_succ_r by lia.
      rewrite Z.div_div by lia. f_equal. lia.
    + rewrite IH. apply Z.div_pos; lia.
Qed.

Lemma shr_iter_exact p m :
  SpecFloat.iter_pos shr_1 p (Build_shr_record (Zpos (Pos.iter xO m p)) false false)
  = Build_shr_record (Zpos m) false false.
Proof.
  rewrite iter_pos_Pos_iter.
  induction p as [|p IH] using Pos.peano_ind.
  - reflexivity.
  - rewrite Pos.iter_succ_r, Pos.iter_succ. exact IH.
Qed.

Lemma Pos_iter_xO m p : Zpos (Pos.iter xO m p) = Zpos m * 2 ^ Zpos p.
Proof.
  induction p as [|p IH] using Pos.peano_ind.
  - simpl. lia.
  - rewrite Pos.iter_succ, Pos2Z.inj_xO, IH, Pos2Z.inj_succ, Z.pow_succ_r by lia. lia.
Qed.

Lemma digits2_pos_bounds m :
  2 ^ (Zpos (digits2_pos m) - 1) <= Zpos m < 2 ^ Zpos (digits2_pos m).
Proof.
  induction m as [m IH|m IH|]; simpl digits2_pos.
  - rewrite Pos2Z.inj_succ, Z.pow_succ_r by lia.
    replace (Z.succ (Z.pos (digits2_pos m)) - 1) with (Z.succ (Zpos (digits2_pos m) - 1)) by lia.
    rewrite Z.pow_succ_r by lia. lia.
  - rewrite Pos2Z.inj_succ, Z.pow_succ_r by lia.
    replace (Z.succ (Z.pos (digits2_pos m)) - 1) with (Z.succ (Zpos (digits2_pos m) - 1)) by lia.
    rewrite Z.pow_succ_r by lia. lia.
  - simpl. lia.
Qed.

Lemma digits2_unique m d :
  2 ^ (d - 1) <= Zpos m < 2 ^ d → Zpos (digits2_pos m) = d.
Proof.
  intros [H1 H2]. pose proof (digits2_pos_bounds m) as [H3 H4].
  assert (0 < d).
  { destruct (Z.ltb_spec 0 d); auto. exfalso.
    assert (2 ^ d <= 1); [|lia].
    destruct (Z.eq_dec d 0) as [->|]; [simpl; lia | rewrite Z.pow_neg_r; lia]. }
  destruct (Z.lt_trichotomy (Zpos (digits2_pos m)) d) as [Hlt|[?|Hgt]]; auto; exfalso.
  - assert (2 ^ Zpos (digits2_pos m) <= 2 ^ (d - 1)) by (apply Z.pow_le_mono_r; lia). lia.
  - assert (2 ^ d <= 2 ^ (Zpos (digits2_pos m) - 1)) by (apply Z.pow_le_mono_r; lia). lia.
Qed.

Lemma shr_m_of_loc m l : shr_m (shr_record_of_loc m l) = m.
Proof. destruct l as [|[]]; reflexivity. Qed.

Lemma shr_spec mrs e n :
  0 <= shr_m mrs → 0 <= n →
  shr_m (fst (shr mrs e n)) = shr_m mrs / 2 ^ n ∧ snd (shr mrs e n) = e + n.
Proof.
  intros Hm Hn. destruct n as [|p|p]; simpl; try lia.
  - rewrite Z.div_1_r. lia.
  - split; [|reflexivity]. apply shr_iter_m; assumption.
Qed.

Lemma shr_nonpos mrs e n : n <= 0 → shr mrs e n = (mrs, e).
Proof. destruct n; simpl; auto; lia. Qed.

Lemma round_nearest_even_cases m l :
  round_nearest_even m l = m ∨ round_nearest_even m l = m + 1.
Proof. destruct l as [|[]]; simpl; auto. destruct (Z.even m); auto. Qed.

Lemma pow2_div_bounds m d n :
  0 <= n → n < d → 2 ^ (d - 1) <= m < 2 ^ d →
  2 ^ (d - 1 - n) <= m / 2 ^ n < 2 ^ (d - n).
Proof.
  intros Hn Hd [H1 H2].
  assert (0 < 2 ^ n) by (apply Z.pow_pos_nonneg; lia).
  split.
  - apply Z.div_le_lower_bound; [lia|].
    rewrite <- Z.pow_add_r by lia. replace (n + (d - 1 - n)) with (d - 1) by lia. done.
  - apply Z.div_lt_upper_bound; [lia|].
    rewrite <- Z.pow_add_r by lia. replace (n + (d - n)) with d by lia. done.
Qed.

Lemma pow2_div_small m d n :
  0 <= d <= n → 0 <= m < 2 ^ d → m / 2 ^ n = 0.
Proof.
  intros Hd [H1 H2]. apply Z.div_small. split; [done|].
  assert (2 ^ d <= 2 ^ n) by (apply Z.pow_le_mono_r; lia). lia.
Qed.

Section Valid.
Variables prec emax : Z.
Hypothesis Hprec : 0 < prec.
Hypothesis Hemax : prec < emax.

Local Abbreviation fexp := (fexp prec emax).
Local Abbreviation emin := (emin prec emax).

Lemma binary_round_aux_valid s p e l :
  e <= fexp (Zpos (digits2_pos p) + e) →
  valid_binary prec emax (binary_round_aux prec emax s (Zpos p) e l) = true.
Proof.
  intros Hal. unfold binary_round_aux, shr_fexp.
  set (d := Zpos (digits2_pos p)) in *.
  set (E := fexp (d + e)) in *.
  change (Zdigits2 (Zpos p)) with d. fold E.
  pose proof (digits2_pos_bounds p) as Hd. fold d in Hd.
  assert (HE : E = Z.max (d + e - prec) emin) by reflexivity.
  assert (Hemin : emin = 3 - emax - prec) by reflexivity.
  destruct (shr_spec (shr_record_of_loc (Zpos p) l) e (E - e)) as [Hm' He'].
  { rewrite shr_m_of_loc. lia. } { lia. }
  destruct (shr (shr_record_of_loc (Z.pos p) l) e (E - e)) as [mrs' e'].
  simpl in Hm', He'. rewrite shr_m_of_loc in Hm'.
  replace e' with E in * by lia. clear He'.
  set (m' := shr_m mrs') in *.
  set (m1 := round_nearest_even m' (loc_of_shr_record mrs')).
  assert (Hm1 : m1 = m' ∨ m1 = m' + 1) by apply round_nearest_even_cases.
  assert (Hm'0 : 0 <= m') by (rewrite Hm'; apply Z.div_pos; [lia|apply Z.pow_pos_nonneg; lia]).
  (* bounds on the shifted mantissa *)
  assert (Hub : m' < 2 ^ prec).
  { destruct (Z.ltb_spec (E - e) d) as [Hlt|Hge].
    - pose proof (pow2_div_bounds (Zpos p) d (E - e) ltac:(lia) Hlt Hd) as [_ Hu].
      rewrite <- Hm' in Hu.
      assert (2 ^ (d - (E - e)) <= 2 ^ prec) by (apply Z.pow_le_mono_r; lia). lia.
    - rewrite Hm', (pow2_div_small (Zpos p) d (E - e)); [|lia|lia].
      apply Z.pow_pos_nonneg; lia. }
  assert (Hlb : emin < E → 2 ^ (prec - 1) <= m').
  { intros HlE. assert (E = d + e - prec) by lia.
    pose proof (pow2_div_bounds (Zpos p) d (E - e) ltac:(lia) ltac:(lia) Hd) as [Hl _].
    rewrite <- Hm' in Hl. replace (d - 1 - (E - e)) with (prec - 1) in Hl by lia. done. }
  destruct (Z.eq_dec m1 0) as [Hz|Hnz].
  - (* rounds to zero *)
    rewrite Hz. rewrite shr_nonpos; [reflexivity|].
    change (Zdigits2 0) with 0. unfold SpecFloat.fexp. fold emin. lia.
  - destruct (Z.eq_dec m1 (2 ^ prec)) as [Hc|Hnc].
    + (* carry into the next binade *)
      assert (Hp1 : 0 < 2 ^ (prec - 1)) by (apply Z.pow_pos_nonneg; lia).
      assert (Hpp : 2 ^ prec = 2 * 2 ^ (prec - 1)).
      { rewrite <- Z.pow_succ_r by lia. f_equal. lia. }
      destruct m1 as [|q|q] eqn:Eq1; try lia.
      assert (Hdq : Zpos (digits2_pos q) = prec + 1).
      { apply digits2_unique. rewrite Hc. replace (prec + 1 - 1) with prec by lia.
        split; [lia|]. rewrite Z.pow_add_r by lia. change (2 ^ 1) with 2. lia. }
      change (Zdigits2 (Zpos q)) with (Zpos (digits2_pos q)). rewrite Hdq.
      assert (Hn2 : fexp (prec + 1 + E) - E = 1) by (unfold SpecFloat.fexp; fold emin; lia).
      rewrite Hn2. unfold shr. cbn [SpecFloat.iter_pos].
      change (shr_record_of_loc (Zpos q) loc_Exact)
        with (Build_shr_record (Zpos q) false false).
      assert (Hq2 : Zpos q / 2 = 2 ^ (prec - 1)).
      { rewrite Hc, Hpp. rewrite Z.mul_comm, Z.div_mul by lia. done. }
      pose proof (shr_1_m (Build_shr_record (Zpos q) false false) ltac:(simpl; lia)) as Hs.
      cbn [shr_m] in Hs. rewrite Hq2 in Hs.
      destruct (shr_m (shr_1 (Build_shr_record (Zpos q) false false))) as [|q'|q'] eqn:Eq2; try lia.
      destruct (E + 1 <=? emax - prec) eqn:Hle; [|reflexivity].
      simpl. unfold bounded, canonical_mantissa. rewrite Hle, andb_true_r.
      apply Z.eqb_eq.
      assert (Zpos (digits2_pos q') = prec).
      { apply digits2_unique. rewrite Hs. split; [lia|]. rewrite Hpp. lia. }
      rewrite H. unfold SpecFloat.fexp. fold emin. lia.
    + (* no carry: the mantissa already fits *)
      destruct m1 as [|q|q] eqn:Eq1; try lia.
      pose proof (digits2_pos_bounds q) as Hdq.
      set (d1 := Zpos (digits2_pos q)) in *.
      change (Zdigits2 (Zpos q)) with d1.
      assert (Hd1 : d1 <= prec).
      { destruct (Z.leb_spec d1 prec); auto. exfalso.
        assert (2 ^ prec <= 2 ^ (d1 - 1)) by (apply Z.pow_le_mono_r; lia). lia. }
      assert (Hd1' : emin < E → d1 = prec).
      { intros HlE. specialize (Hlb HlE).
        destruct (Z.eq_dec d1 prec); auto. exfalso.
        assert (2 ^ d1 <= 2 ^ (prec - 1)) by (apply Z.pow_le_mono_r; lia). lia. }
      assert (Hfe : fexp (d1 + E) = E).
      { unfold SpecFloat.fexp. fold emin. destruct (Z.eq_dec E emin); [lia|].
        rewrite Hd1' by lia. lia. }
      rewrite shr_nonpos by lia. cbn [shr_m shr_record_of_loc].
      destruct (E <=? emax - prec) eqn:Hle; [|reflexivity].
      simpl. unfold bounded, canonical_mantissa. rewrite Hle, andb_true_r.
      apply Z.eqb_eq. exact Hfe.
Qed.
Lemma digits2_pos_shift m k :
  Zpos (digits2_pos (Pos.iter xO m k)) = Zpos (digits2_pos m) + Zpos k.
Proof.
  apply digits2_unique. rewrite Pos_iter_xO.
  pose proof (digits2_pos_bounds m) as [Hl Hu].
  assert (0 < 2 ^ Zpos k) by (apply Z.pow_pos_nonneg; lia).
  replace (Zpos (digits2_pos m) + Zpos k - 1)
    with ((Zpos (digits2_pos m) - 1) + Zpos k) by lia.
  rewrite !Z.pow_add_r by lia. nia.
Qed.

Lemma binary_round_valid s m e :
  valid_binary prec emax (binary_round prec emax s m e) = true.
Proof.
  unfold binary_round, shl_align.
  set (d := Zpos (digits2_pos m)).
  destruct (fexp (d + e) - e) as [|k|k] eqn:Hk.
  - apply binary_round_aux_valid. fold d. lia.
  - apply binary_round_aux_valid. fold d. lia.
  - apply binary_round_aux_valid. rewrite digits2_pos_shift. fold d.
    replace (d + Zpos k + fexp (d + e)) with (d + e) by lia. lia.
Qed.

(** Once the first shift has produced a mantissa of the format, with
    nothing shifted out, rounding changes nothing. *)
Lemma binary_round_aux_settled s mx ex l m e :
  shr_fexp prec emax mx ex l = (Build_shr_record (Zpos m) false false, e) →
  bounded prec emax m e = true →
  binary_round_aux prec emax s mx ex l = S754_finite s m e.
Proof.
  intros Hshr Hb. unfold binary_round_aux. rewrite Hshr.
  unfold bounded, canonical_mantissa in Hb.
  apply andb_true_iff in Hb as [Hc He]. apply Z.eqb_eq in Hc.
  cbn [shr_m loc_of_shr_record round_nearest_even].
  unfold shr_fexp. change (Zdigits2 (Zpos m)) with (Zpos (digits2_pos m)).
  rewrite Hc, Z.sub_diag. cbn [shr shr_record_of_loc shr_m]. now rewrite He.
Qed.

Lemma binary_round_exact s m e m' e' :
  bounded prec emax m' e' = true →
  (if e' <=? e then Zpos m' = Zpos m * 2 ^ (e - e')
   else Zpos m = Zpos m' * 2 ^ (e' - e)) →
  binary_round prec emax s m e = S754_finite s m' e'.
Proof.
  intros Hb Hv. pose proof Hb as Hb'.
  unfold bounded, canonical_mantissa in Hb'.
  apply andb_true_iff in Hb' as [Hc _]. apply Z.eqb_eq in Hc.
  unfold binary_round, shl_align.
  destruct (Z.leb_spec e' e) as [Hle|Hlt].
  - (* the float32 mantissa is the given one shifted left *)
    destruct (e - e') as [|k|k] eqn:Hk; try lia.
    + assert (e = e') by lia. subst e'.
      change (2 ^ 0) with 1 in Hv. assert (m' = m) by lia. subst m'.
      rewrite Hc, Z.sub_diag.
      apply binary_round_aux_settled; [|assumption].
      unfold shr_fexp. change (Zdigits2 (Zpos m)) with (Zpos (digits2_pos m)).
      now rewrite Hc, Z.sub_diag.
    + assert (Hm : m' = Pos.iter xO m k).
      { apply Pos2Z.inj. rewrite Pos_iter_xO. exact Hv. }
      assert (Hd : Zpos (digits2_pos m) + e = Zpos (digits2_pos m') + e').
      { rewrite Hm, digits2_pos_shift. lia. }
      rewrite Hd, Hc. replace (e' - e) with (Zneg k) by lia. rewrite <- Hm.
      apply binary_round_aux_settled; [|assumption].
      unfold shr_fexp. change (Zdigits2 (Zpos m')) with (Zpos (digits2_pos m')).
      now rewrite Hc, Z.sub_diag.
  - (* the given mantissa is the float32 one shifted left *)
    destruct (e' - e) as [|k|k] eqn:Hk; try lia.
    assert (Hm : m = Pos.iter xO m' k).
    { apply Pos2Z.inj. rewrite Pos_iter_xO. exact Hv. }
    assert (Hd : Zpos (digits2_pos m) + e = Zpos (digits2_pos m') + e').
    { rewrite Hm, digits2_pos_shift. lia. }
    rewrite Hd, Hc, Hk.
    apply binary_round_aux_settled; [|assumption].
    unfold shr_fexp. change (Zdigits2 (Zpos m)) with (Zpos (digits2_pos m)).
    rewrite Hd, Hc, Hk. cbn [shr shr_record_of_loc].
    rewrite Hm, shr_iter_exact. f_equal. lia.
Qed.
End Valid.

(** ** The float32 buffer encoding *)

Module NumPyFacts.
Import NumPy.

Lemma float32_of_float_valid x : valid_float32 (float32_of_float x) = true.
Proof.
  destruct x as [s|s| |s m e]; try reflexivity.
  apply binary_round_valid; unfold prec32, emax32; lia.
Qed.

Lemma array_float32_valid xs : Forall (fun x => valid_float32 x = true) (array_float32 xs).
Proof.
  unfold array_float32. apply Forall_fmap, Forall_forall.
  intros x _. apply float32_of_float_valid.
Qed.

Lemma float32_of_float_exact x y :
  valid_float32 y = true → same_float x y → float32_of_float x = y.
Proof.
  intros Hy Hxy.
  destruct x as [s|s| |s m e], y as [s'|s'| |s' m' e']; simpl in Hxy;
    try contradiction; try (subst; reflexivity).
  destruct Hxy as [-> Hv]. simpl.
  apply binary_round_exact; auto.
Qed.

(** What validity says about a finite float32: at most 24 mantissa bits,
    exponent between -149 and 104, and a short mantissa only at -149. *)
Lemma valid_float32_finite s m e :
  valid_float32 (S754_finite s m e) = true →
  Zpos m < 2 ^ 24 ∧ -149 <= e <= 104 ∧ (2 ^ 23 <= Zpos m ∨ e = -149).
Proof.
  unfold valid_float32, valid_binary, bounded, canonical_mantissa, fexp, emin,
    prec32, emax32.
  intros H. apply andb_true_iff in H as [Hc He].
  apply Z.eqb_eq in Hc. apply Z.leb_le in He.
  pose proof (digits2_pos_bounds m) as [Hl Hu].
  set (d := Zpos (digits2_pos m)) in *.
  assert (Hd : d <= 24) by lia.
  assert (2 ^ d <= 2 ^ 24) by (apply Z.pow_le_mono_r; lia).
  repeat split; try lia.
  destruct (Z.eq_dec d 24) as [Heq|Hne].
  - left. rewrite Heq in Hl. exact Hl.
  - right. lia.
Qed.

Lemma join_bits32_fields s e m :
  0 <= e < 256 → 0 <= m < 2 ^ 23 →
  let w := join_bits32 s e m in
  (2 ^ 31 <=? w) = s ∧ (w / 2 ^ 23) mod 2 ^ 8 = e ∧ w mod 2 ^ 23 = m ∧ 0 <= w < 2 ^ 32.
Proof.
  intros He Hm. unfold join_bits32.
  change (2 ^ 31) with 2147483648. change (2 ^ 23) with 8388608 in *.
  change (2 ^ 8) with 256. change (2 ^ 32) with 4294967296.
  cbv zeta. repeat split.
  - destruct s; simpl Z.b2z; [apply Z.leb_le | apply Z.leb_gt]; lia.
  - destruct s; simpl Z.b2z; Z.div_mod_to_equations; lia.
  - destruct s; simpl Z.b2z; Z.div_mod_to_equations; lia.
  - destruct s; simpl Z.b2z; lia.
  - destruct s; simpl Z.b2z; lia.
Qed.

Lemma float32_bits_range x :
  valid_float32 x = true → 0 <= float32_bits x < 2 ^ 32.
Proof.
  intros Hx. destruct x as [s|s| |s m e]; simpl.
  - apply (join_bits32_fields s 0 0); change (2 ^ 23) with 8388608; lia.
  - apply (join_bits32_fields s 255 0); change (2 ^ 23) with 8388608; lia.
  - apply (join_bits32_fields false 255 (2 ^ 22));
      change (2 ^ 23) with 8388608; change (2 ^ 22) with 4194304; lia.
  - apply valid_float32_finite in Hx as (Hm & He & Hn).
    destruct (Z.leb_spec (2 ^ 23) (Zpos m)).
    + apply (join_bits32_fields s (e + 150) (Zpos m - 2 ^ 23));
        change (2 ^ 23) with 8388608 in *; change (2 ^ 24) with 16777216 in *; lia.
    + apply (join_bits32_fields s 0 (Zpos m)); lia.
Qed.

Lemma bits_float32_bits x :
  valid_float32 x = true → bits_float32 (float32_bits x) = x.
Proof.
  intros Hx. unfold bits_float32. destruct x as [s|s| |s m e]; simpl float32_bits.
  - destruct (join_bits32_fields s 0 0) as (-> & -> & -> & _);
      [change (2 ^ 23) with 8388608; lia..|reflexivity].
  - destruct (join_bits32_fields s 255 0) as (-> & -> & -> & _);
      [change (2 ^ 23) with 8388608; lia..|reflexivity].
  - destruct (join_bits32_fields false 255 (2 ^ 22)) as (_ & -> & -> & _);
      [change (2 ^ 23) with 8388608; change (2 ^ 22) with 4194304; lia..|reflexivity].
  - apply valid_float32_finite in Hx as (Hm & He & Hn).
    destruct (Z.leb_spec (2 ^ 23) (Zpos m)) as [Hnorm|Hsub].
    + destruct (join_bits32_fields s (e + 150) (Zpos m - 2 ^ 23)) as (-> & -> & -> & _);
        [change (2 ^ 23) with 8388608 in *; change (2 ^ 24) with 16777216 in *; lia..|].
      destruct (Z.eqb_spec (e + 150) 0); [lia|].
      destruct (Z.eqb_spec (e + 150) 255); [lia|].
      replace (Zpos m - 2 ^ 23 + 2 ^ 23) with (Zpos m) by lia.
      f_equal. lia.
    + destruct (join_bits32_fields s 0 (Zpos m)) as (-> & -> & -> & _); [lia..|].
      simpl. f_equal. lia.
Qed.

Lemma Z_of_byte_of_Z z : Z_of_byte (byte_of_Z z) = z mod 256.
Proof.
  unfold Z_of_byte, byte_of_Z.
  assert (Hr : 0 <= z mod 256 < 256) by (apply Z.mod_pos_bound; lia).
  destruct (Byte.of_N (Z.to_N (z mod 256))) as [b|] eqn:Hb.
  - apply Byte.to_of_N in Hb. rewrite Hb. apply Z2N.id. lia.
  - apply Byte.of_N_None_iff in Hb. lia.
Qed.

Lemma bytes_word32_bytes order w :
  0 <= w < 2 ^ 32 →
  match word32_bytes order w with
  | [b0; b1; b2; b3] => bytes_word32 order b0 b1 b2 b3 = w
  | _ => False
  end.
Proof.
  intros Hw. change (2 ^ 32) with 4294967296 in Hw.
  destruct order; simpl; rewrite !Z_of_byte_of_Z;
    change (2 ^ 8) with 256; change (2 ^ 16) with 65536;
    change (2 ^ 24) with 16777216; Z.div_mod_to_equations; lia.
Qed.

(** Four bytes per element, whatever the values. *)
Lemma length_tobytes order a : length (tobytes order a) = (4 * length a)%nat.
Proof.
  unfold tobytes. induction a as [|x a IH]; [reflexivity|].
  simpl flat_map. rewrite length_app, IH. destruct order; simpl; lia.
Qed.

(** Reading back what [tobytes] wrote gives the array. *)
Lemma frombuffer_tobytes order a :
  Forall (fun x => valid_float32 x = true) a →
  frombuffer order (tobytes order a) = Some a.
Proof.
  unfold tobytes. induction 1 as [|x a Hx _ IH]; [reflexivity|].
  simpl flat_map.
  pose proof (bytes_word32_bytes order _ (float32_bits_range x Hx)) as Hw.
  destruct (word32_bytes order (float32_bits x)) as [|b0 [|b1 [|b2 [|b3 [|]]]]];
    try contradiction.
  simpl. rewrite IH, Hw, bits_float32_bits by assumption. reflexivity.
Qed.

(** A representable list is left as it is by the conversion, up to the
    representation of each number. *)
Lemma array_float32_representable xs :
  Forall float32_representable xs → Forall2 same_float xs (array_float32 xs).
Proof.
  unfold array_float32. induction 1 as [|x xs [y [Hy Hxy]] _ IH]; simpl.
  - constructor.
  - constructor; [|exact IH]. fold (float32_of_float x).
    now rewrite (float32_of_float_exact x y).
Qed.

End NumPyFacts.

(** ** The monad *)

Ltac unfold_M := unfold mbind, M_bind, mret, M_ret in *.

Lemma bind_Return {A B} (m : M A) (k : A → M B) w a w' :
  m w = Return a w' → (m ≫= k) w = k a w'.
Proof. unfold_M. unfold bind. now intros ->. Qed.

Lemma bind_Raise {A B} (m : M A) (k : A → M B) w e w' :
  m w = Raise e w' → (m ≫= k) w = Raise e w'.
Proof. unfold_M. unfold bind. now intros ->. Qed.

Lemma bind_inv_Return {A B} (m : M A) (k : A → M B) w b w'' :
  (m ≫= k) w = Return b w'' → ∃ a w', m w = Return a w' ∧ k a w' = Return b w''.
Proof.
  unfold_M. unfold bind. destruct (m w) as [a w'|e w']; [eauto|discriminate].
Qed.

(** ** Heap footprints *)

Lemma touches_ret {A} D (a : A) : touches D (ret a).
Proof. now intros w l _. Qed.

Lemma touches_raise {A} D e : touches D (@raise A e).
Proof. now intros w l _. Qed.

Lemma touches_bind {A B} D (m : M A) (k : A → M B) :
  touches D m → (∀ a, touches D (k a)) → touches D (m ≫= k).
Proof.
  intros Hm Hk w l Hl. unfold_M. unfold bind.
  specialize (Hm w l Hl). destruct (m w) as [a w'|e w']; simpl in *.
  - rewrite <- Hm. now apply Hk.
  - exact Hm.
Qed.

Lemma touches_deref D l : touches D (deref l).
Proof. intros w l' _. unfold deref. now destruct (heap w !! l). Qed.

Lemma touches_getitem D d key : touches D (getitem d key).
Proof.
  unfold getitem. apply touches_bind; [apply touches_deref|].
  intros [xs|m|rows]; try apply touches_raise.
  destruct (m !! key); [apply touches_ret | apply touches_raise].
Qed.

Lemma touches_setitem (D : loc → Prop) d key v : D d → touches D (setitem d key v).
Proof.
  intros Hd. unfold setitem. apply touches_bind; [apply touches_deref|].
  intros [xs|m|rows]; try apply touches_raise.
  intros w l Hl. simpl. apply lookup_insert_ne. congruence.
Qed.

Lemma touches_py_str D v : touches D (py_str v).
Proof. destruct v; simpl; first [apply touches_ret | apply touches_raise]. Qed.

Lemma touches_np_array_float32 D v : touches D (np_array_float32 v).
Proof.
  destruct v; simpl; try apply touches_raise.
  apply touches_bind; [apply touches_deref|].
  intros [xs|m|rows]; first [apply touches_ret | apply touches_raise].
Qed.

Lemma touches_send {A} D c (serve : M A) : touches D serve → touches D (send c serve).
Proof.
  intros Hs w l Hl. unfold send. cbn [faults set_trace].
  destruct (faults w) as [|[e|] fs].
  - now rewrite Hs.
  - reflexivity.
  - now rewrite Hs.
Qed.

Lemma touches_hset D name mapping : touches D (hset name mapping).
Proof.
  unfold hset. apply touches_bind; [apply touches_deref|].
  intros [xs|m|rows]; try apply touches_raise.
  destruct (size m =? 0)%nat; [apply touches_raise|].
  destruct (encode_mapping m); [|apply touches_raise].
  apply touches_send. now intros w l _.
Qed.

Lemma touches_for_each {A} (D : loc → Prop) (body : A → M unit) xs :
  (∀ x, x ∈ xs → touches D (body x)) → touches D (for_each body xs).
Proof.
  induction xs as [|x xs IH]; intros Hb; simpl.
  - apply touches_ret.
  - apply touches_bind.
    + apply Hb. left.
    + intros _. apply IH. intros y Hy. apply Hb. now right.
Qed.

(** ** [to_dict("records")] *)

Lemma set_heap_set_heap h1 h2 w : set_heap h2 (set_heap h1 w) = set_heap h2 w.
Proof. reflexivity. Qed.

Lemma set_heap_id w : set_heap (heap w) w = w.
Proof. now destruct w. Qed.

(** The dicts are new objects, one per row, and nothing else changes. *)
Lemma alloc_records_spec rows w :
  ∃ ds h',
    alloc_records rows w = Return ds (set_heap h' w) ∧
    heap w ⊆ h' ∧
    NoDup ds ∧
    Forall (λ d, heap w !! d = None) ds ∧
    Forall2 (λ d r, h' !! d = Some (ODict (dict_of_row r))) ds rows.
Proof.
  revert w. induction rows as [|r rows IH]; intros w.
  - exists [], (heap w). simpl. unfold ret. rewrite set_heap_id.
    split; [reflexivity|]. split; [reflexivity|].
    split; [constructor|]. split; constructor.
  - simpl. unfold_M. unfold bind at 1. unfold alloc at 1.
    set (l := fresh (dom (heap w))).
    assert (Hl : heap w !! l = None).
    { apply not_elem_of_dom. apply is_fresh. }
    set (w1 := set_heap (<[l:=ODict (dict_of_row r)]> (heap w)) w).
    destruct (IH w1) as (ds & h' & Hrun & Hsub & Hnd & Hfresh & Hat).
    unfold bind. rewrite Hrun. unfold ret.
    exists (l :: ds), h'. subst w1. cbn [heap set_heap] in *.
    rewrite set_heap_set_heap in *.
    assert (Hl' : h' !! l = Some (ODict (dict_of_row r))).
    { eapply lookup_weaken; [|exact Hsub]. apply lookup_insert_eq. }
    repeat split.
    + etrans; [|exact Hsub]. now apply insert_subseteq.
    + constructor; [|exact Hnd]. intros Hin.
      rewrite Forall_forall in Hfresh. specialize (Hfresh l Hin).
      rewrite lookup_insert_eq in Hfresh. discriminate.
    + constructor; [exact Hl|].
      eapply Forall_impl; [exact Hfresh|]. intros d Hd. simpl in Hd.
      destruct (decide (l = d)) as [->|Hne].
      * rewrite lookup_insert_eq in Hd. discriminate.
      * now rewrite lookup_insert_ne in Hd.
    + constructor; assumption.
Qed.

Lemma to_dict_records_fresh documents w :
  match to_dict_records documents w with
  | Return ds w' =>
      heap w ⊆ heap w' ∧ Forall (λ d, heap w !! d = None) ds
  | Raise _ w' => w' = w
  end.
Proof.
  unfold to_dict_records. unfold_M. unfold bind, deref.
  destruct (heap w !! documents) as [[xs|m|rows]|]; try reflexivity.
  destruct (alloc_records_spec rows w) as (ds & h' & -> & Hsub & _ & Hfresh & _).
  auto.
Qed.


Lemma getitem_dict d key m v w :
  heap w !! d = Some (ODict m) → m !! key = Some v → getitem d key w = Return v w.
Proof.
  intros Hd Hk. unfold getitem. unfold_M. unfold bind, deref. now rewrite Hd, Hk.
Qed.

Lemma setitem_dict d key m v w :
  heap w !! d = Some (ODict m) →
  setitem d key v w = Return tt (set_heap (<[d := ODict (<[key := v]> m)]> (heap w)) w).
Proof. intros Hd. unfold setitem. unfold_M. unfold bind, deref. now rewrite Hd. Qed.

Lemma np_array_float32_list l xs w :
  vector_of (heap w) l = Some xs →
  np_array_float32 (VRef l) w = Return (NumPy.array_float32 xs) w.
Proof.
  unfold vector_of. intros Hl. simpl. unfold_M. unfold bind, deref.
  destruct (heap w !! l) as [[ys|m|rows]|]; try discriminate.
  now injection Hl as ->.
Qed.

Lemma hset_dict name d m items w :
  heap w !! d = Some (ODict m) → size m ≠ 0%nat → encode_mapping m = Some items →
  faults w = [] →
  hset name d w =
    Return (Z.of_nat (size (items ∖ default ∅ (hashes w !! name))))
      (set_hashes (<[name := items ∪ default ∅ (hashes w !! name)]> (hashes w))
         (set_trace (trace w ++ [HSET name items]) w)).
Proof.
  intros Hd Hsz Henc Hf. unfold hset. unfold_M. unfold bind, deref. rewrite Hd.
  destruct (Nat.eqb_spec (size m) 0) as [|_]; [contradiction|].
  rewrite Henc. unfold send. cbn [faults set_trace]. rewrite Hf. reflexivity.
Qed.


Section Ingestion.
Variable native : NumPy.byteorder.
Variable prefix : string.

Lemma touches_index_documents_body doc : touches (λ l, l = doc) (index_documents_body native prefix doc).
Proof.
  unfold index_documents_body.
  repeat first
    [ apply touches_ret
    | apply touches_getitem | apply touches_py_str | apply touches_np_array_float32
    | apply touches_setitem; reflexivity | apply touches_hset
    | apply touches_bind; [|intros ?] ].
Qed.

(** The objects reachable before the call are the same objects after it,
    whether the call returns or raises. *)
Lemma index_documents_heap documents w :
  heap w ⊆ heap (world_of (index_documents native prefix documents w)).
Proof.
  unfold index_documents. unfold_M. unfold bind.
  pose proof (to_dict_records_fresh documents w) as Hrec.
  destruct (to_dict_records documents w) as [ds w1|e w1].
  - destruct Hrec as [Hsub Hfresh].
    apply map_subseteq_spec. intros l o Hl.
    assert (Hnot : ¬ (λ l, l ∈ ds) l).
    { intros Hin. rewrite Forall_forall in Hfresh. rewrite (Hfresh l Hin) in Hl. discriminate. }
    rewrite (touches_for_each (λ l, l ∈ ds) (index_documents_body native prefix) ds); [| |exact Hnot].
    + eapply lookup_weaken; eassumption.
    + intros d Hd w' l' Hl'. apply touches_index_documents_body. intros ->. contradiction.
  - subst w1. reflexivity.
Qed.


Lemma encode_final_dict tv cv r :
  encode_mapping (final_dict native tv cv r) = Some (omap encode_value (final_dict native tv cv r)).
Proof.
  unfold encode_mapping. rewrite decide_True; [reflexivity|].
  intros k v Hk. unfold final_dict, dict_of_row in Hk.
  repeat match type of Hk with
         | <[?i:=_]> _ !! k = _ =>
             destruct (decide (i = k)) as [<-|?];
             [rewrite lookup_insert_eq in Hk; try congruence;
              injection Hk as <-; simpl; eauto
             |rewrite lookup_insert_ne in Hk by assumption]
         end.
  rewrite lookup_empty in Hk. discriminate.
Qed.

Lemma index_documents_body_run d r tv cv w :
  heap w !! d = Some (ODict (dict_of_row r)) →
  vector_of (heap w) (row_title_vector r) = Some tv →
  vector_of (heap w) (row_content_vector r) = Some cv →
  faults w = [] →
  ∃ w', index_documents_body native prefix d w = Return tt w' ∧
        trace w' = trace w ++ [row_command native prefix (heap w) r] ∧
        heap w' = <[d := ODict (final_dict native tv cv r)]> (heap w) ∧
        faults w' = [] ∧ stdout w' = stdout w ∧ indexes w' = indexes w.
Proof.
  intros Hd Htv Hcv Hf. unfold index_documents_body.
  erewrite bind_Return; [|eapply getitem_dict; [exact Hd|reflexivity]].
  erewrite bind_Return; [|reflexivity].
  erewrite bind_Return; [|eapply getitem_dict; [exact Hd|reflexivity]].
  erewrite bind_Return; [|apply np_array_float32_list; exact Htv].
  erewrite bind_Return; [|eapply getitem_dict; [exact Hd|reflexivity]].
  erewrite bind_Return; [|apply np_array_float32_list; exact Hcv].
  erewrite bind_Return; [|apply setitem_dict; exact Hd].
  erewrite bind_Return; [|apply setitem_dict; cbn [heap set_heap]; apply lookup_insert_eq].
  cbn [heap set_heap]. rewrite insert_insert_eq.
  fold (final_dict native tv cv r).
  erewrite bind_Return.
  2:{ apply hset_dict with (m := final_dict native tv cv r).
      - cbn [heap set_heap]. apply lookup_insert_eq.
      - intros Hsz. apply map_size_empty_iff in Hsz.
        assert (H : final_dict native tv cv r !! "content_vector" = None) by (rewrite Hsz; apply lookup_empty).
        unfold final_dict in H. rewrite lookup_insert_eq in H. discriminate.
      - apply encode_final_dict.
      - exact Hf. }
  unfold ret. eexists. split; [reflexivity|].
  cbn [trace heap faults stdout indexes set_hashes set_trace set_heap].
  unfold row_command. rewrite Htv, Hcv. simpl default. auto.
Qed.

Lemma vector_of_insert_dict h d m m' l xs :
  h !! d = Some (ODict m) → vector_of h l = Some xs →
  vector_of (<[d := ODict m']> h) l = Some xs.
Proof.
  unfold vector_of. intros Hd Hl.
  destruct (decide (d = l)) as [->|Hne].
  - rewrite Hd in Hl. discriminate.
  - now rewrite lookup_insert_ne.
Qed.

Lemma row_command_agree h h0 r :
  row_ok h0 r →
  (∀ l xs, vector_of h0 l = Some xs → vector_of h l = Some xs) →
  row_command native prefix h r = row_command native prefix h0 r.
Proof.
  intros [[tv Htv] [cv Hcv]] Hagree. unfold row_command.
  now rewrite (Hagree _ _ Htv), (Hagree _ _ Hcv), Htv, Hcv.
Qed.

Lemma for_each_index_documents_body h0 ds rows w :
  NoDup ds →
  Forall2 (λ d r, heap w !! d = Some (ODict (dict_of_row r))) ds rows →
  Forall (row_ok h0) rows →
  (∀ l xs, vector_of h0 l = Some xs → vector_of (heap w) l = Some xs) →
  faults w = [] →
  ∃ w', for_each (index_documents_body native prefix) ds w = Return tt w' ∧
        trace w' = trace w ++ (row_command native prefix h0 <$> rows) ∧
        faults w' = [] ∧ stdout w' = stdout w ∧ indexes w' = indexes w.
Proof.
  revert rows w. induction ds as [|d ds IH]; intros rows w Hnd Hat Hok Hagree Hf.
  - apply Forall2_nil_inv_l in Hat as ->.
    exists w. simpl. rewrite app_nil_r. auto.
  - apply Forall2_cons_inv_l in Hat as (r & rows' & Hd & Hat & ->).
    rename rows' into rows.
    apply NoDup_cons in Hnd as [Hnotin Hnd].
    apply Forall_cons in Hok as [Hr Hok].
    pose proof Hr as [[tv Htv] [cv Hcv]].
    destruct (index_documents_body_run d r tv cv w Hd (Hagree _ _ Htv) (Hagree _ _ Hcv) Hf)
      as (w1 & Hrun & Htr & Hheap & Hf1 & Hout & Hix).
    destruct (IH rows w1) as (w' & Hrun' & Htr' & Hf' & Hout' & Hix'); auto.
    + rewrite Hheap. clear -Hat Hnotin.
      induction Hat as [|d' r' ds rows Hd' Hat IH]; constructor.
      * rewrite lookup_insert_ne; [exact Hd'|]. intros ->. apply Hnotin. left.
      * apply IH. intros Hin. apply Hnotin. now right.
    + intros l xs Hl. rewrite Hheap.
      eapply vector_of_insert_dict; [exact Hd|]. now apply Hagree.
    + exists w'. simpl for_each. rewrite (bind_Return _ _ _ _ _ Hrun).
      split; [exact Hrun'|].
      rewrite Htr', Htr, (row_command_agree (heap w) h0 r Hr Hagree).
      rewrite fmap_cons, <- app_assoc. simpl. split; [reflexivity|].
      split; [assumption|]. split; congruence.
Qed.

Lemma commands_since_app w w' cs :
  trace w' = trace w ++ cs → commands_since w w' = cs.
Proof. unfold commands_since. intros ->. apply drop_app_length. Qed.

(** A frame whose vector cells hold lists is ingested to the end when no
    command fails: one [HSET] per row, in row order, and nothing else. *)
Lemma index_documents_run documents rows w :
  heap w !! documents = Some (OFrame rows) →
  Forall (row_ok (heap w)) rows →
  faults w = [] →
  ∃ w', index_documents native prefix documents w = Return tt w' ∧
        commands_since w w' = row_command native prefix (heap w) <$> rows ∧
        stdout w' = stdout w ∧ indexes w' = indexes w.
Proof.
  intros Hdoc Hok Hf. unfold index_documents.
  unfold to_dict_records. unfold_M. unfold bind at 1. unfold bind at 1.
  unfold deref. rewrite Hdoc.
  destruct (alloc_records_spec rows w) as (ds & h' & -> & Hsub & Hnd & Hfresh & Hat).
  destruct (for_each_index_documents_body (heap w) ds rows (set_heap h' w))
    as (w' & Hrun & Htr & _ & Hout & Hix); auto.
  - intros l xs. unfold vector_of. cbn [heap set_heap].
    destruct (heap w !! l) as [o|] eqn:Hl; [|discriminate].
    now rewrite (lookup_weaken _ _ _ _ Hl Hsub).
  - exists w'. split; [exact Hrun|]. split; [|auto].
    now apply commands_since_app.
Qed.

(** What the command of a row holds. *)
Lemma row_command_vector h r col l xs key m :
  row_command native prefix h r = HSET key m →
  (col, l) ∈ vector_cells r → vector_of h l = Some xs →
  m !! col = Some (NumPy.tobytes native (NumPy.array_float32 xs)).
Proof.
  intros Hc Hin Hl. unfold row_command in Hc. injection Hc as _ <-.
  rewrite lookup_omap. unfold final_dict, vector_cells in *.
  apply elem_of_cons in Hin as [Heq|Hin].
  - injection Heq as -> ->. rewrite lookup_insert_ne by done.
    rewrite lookup_insert_eq. simpl. now rewrite Hl.
  - apply list_elem_of_singleton in Hin. injection Hin as -> ->.
    rewrite lookup_insert_eq. simpl. now rewrite Hl.
Qed.

Lemma row_command_other h r col key m :
  row_command native prefix h r = HSET key m →
  col ≠ "title_vector"%string → col ≠ "content_vector"%string →
  m !! col = dict_of_row r !! col ≫= encode_value.
Proof.
  intros Hc H1 H2. unfold row_command in Hc. injection Hc as _ <-.
  rewrite lookup_omap. unfold final_dict.
  now rewrite !lookup_insert_ne by congruence.
Qed.

Lemma row_command_scalar h r col s key m :
  row_command native prefix h r = HSET key m →
  (col, s) ∈ scalar_cells r →
  m !! col = Some (list_byte_of_string s).
Proof.
  intros Hc Hin. unfold scalar_cells in Hin.
  repeat (apply elem_of_cons in Hin as [Heq|Hin];
          [injection Heq as -> ->;
           rewrite (row_command_other h r _ key m Hc) by discriminate;
           reflexivity|]).
  now apply elem_of_nil in Hin.
Qed.

Lemma row_command_key h r key m :
  row_command native prefix h r = HSET key m →
  key = prefix +:+ ":" +:+ pretty (row_id r).
Proof. unfold row_command. now intros [= <- _]. Qed.

End Ingestion.

(** ** Index provisioning *)

Lemma index_lookup_None name ixs :
  index_lookup name ixs = None ↔ name ∉ ixs.*1.
Proof.
  induction ixs as [|[n s] ixs IH]; simpl.
  - split; [intros _; apply not_elem_of_nil|reflexivity].
  - destruct (String.eqb_spec n name) as [->|Hne].
    + split; [discriminate|]. intros H. exfalso. apply H. left.
    + rewrite IH, not_elem_of_cons.
      split; [intros H; split; [congruence|exact H]|intros [_ H]; exact H].
Qed.

Lemma index_lookup_app_new name schema ixs :
  index_lookup name (ixs ++ [(name, schema)]) ≠ None.
Proof.
  rewrite index_lookup_None, fmap_app. intros H. apply H.
  apply elem_of_app. right. left.
Qed.

Lemma filter_absent name (ixs : list (string * (list field * IndexDefinition))) :
  name ∉ ixs.*1 → filter (λ ix, ix.1 = name) ixs = [].
Proof.
  induction ixs as [|[n s] ixs IH]; [reflexivity|]. simpl.
  rewrite not_elem_of_cons. intros [Hne Hnot].
  rewrite filter_cons_False by (simpl; congruence). auto.
Qed.

Lemma filter_present_NoDup name (ixs : list (string * (list field * IndexDefinition))) :
  NoDup ixs.*1 → name ∈ ixs.*1 → length (filter (λ ix, ix.1 = name) ixs) = 1%nat.
Proof.
  induction ixs as [|[n s] ixs IH]; simpl.
  - intros _ H. now apply elem_of_nil in H.
  - rewrite NoDup_cons. intros [Hnotin Hnd] Hin.
    destruct (decide (n = name)) as [->|Hne].
    + rewrite filter_cons_True by reflexivity.
      now rewrite filter_absent.
    + rewrite filter_cons_False by (simpl; congruence).
      apply IH; [assumption|]. apply elem_of_cons in Hin as [?|?]; [congruence|assumption].
Qed.

Lemma send_trace {A} c (serve : M A) w :
  (∀ w0, trace (world_of (serve w0)) = trace w0) →
  trace (world_of (send c serve w)) = trace w ++ [c].
Proof.
  intros Hs. unfold send. cbn [faults set_trace].
  destruct (faults w) as [|[e|] fs]; try rewrite Hs; reflexivity.
Qed.

Lemma ft_info_trace name w : trace (world_of (ft_info name w)) = trace w ++ [FT_INFO name].
Proof.
  apply send_trace. intros w0. now destruct (index_lookup name (indexes w0)).
Qed.

Lemma ft_create_index_trace name fields def w :
  trace (world_of (ft_create_index name fields def w)) = trace w ++ [FT_CREATE name fields def].
Proof.
  apply send_trace. intros w0. now destruct (index_lookup name (indexes w0)).
Qed.

Lemma ensure_index_present name fields prefix w :
  faults w = [] → index_lookup name (indexes w) ≠ None →
  ensure_index name fields prefix w =
    Return tt (set_stdout (stdout w ++ ["Index already exists"%string])
                 (set_trace (trace w ++ [FT_INFO name]) w)).
Proof.
  intros Hf Hix. unfold ensure_index, try_except. unfold_M. unfold bind, ft_info, send.
  cbn [faults set_trace indexes]. rewrite Hf.
  destruct (index_lookup name (indexes w)); [reflexivity|contradiction].
Qed.

Lemma ensure_index_absent name fields prefix w :
  faults w = [] → index_lookup name (indexes w) = None →
  ensure_index name fields prefix w =
    Return tt (set_indexes (indexes w ++ [(name, (fields, hash_definition prefix))])
                 (set_trace (trace w ++ [FT_INFO name; FT_CREATE name fields (hash_definition prefix)]) w)).
Proof.
  intros Hf Hix. unfold ensure_index, try_except. unfold_M. unfold bind, ft_info, send.
  cbn [faults set_trace indexes]. rewrite Hf, Hix.
  unfold ft_create_index, send. cbn [faults set_trace indexes trace]. rewrite Hf, Hix.
  unfold set_indexes, set_trace, hash_definition. cbn. rewrite <- app_assoc. reflexivity.
Qed.


(** ** The store's ordering *)

Global Instance key_le_total : Total key_le.
Proof.
  intros [x|] [y|]; simpl; auto.
  destruct (Qlt_le_dec y x) as [H|H]; [right; now apply Qlt_le_weak|now left].
Qed.

Global Instance key_le_trans : Transitive key_le.
Proof.
  intros [x|] [y|] [z|]; simpl; try tauto. apply Qle_trans.
Qed.

Global Instance doc_le_total field asc : Total (doc_le field asc).
Proof. intros d1 d2. unfold doc_le. destruct asc; apply key_le_total. Qed.

Global Instance doc_le_trans field asc : Transitive (doc_le field asc).
Proof.
  intros d1 d2 d3. unfold doc_le. destruct asc; intros H1 H2.
  - now transitivity (sort_key field d2).
  - now transitivity (sort_key field d2).
Qed.



Lemma apply_sortby_sorted field asc docs :
  StronglySorted (doc_le field asc) (apply_sortby (Some (field, asc)) docs).
Proof. simpl. apply StronglySorted_merge_sort; apply _. Qed.

Lemma apply_limit_length offset num docs :
  0 <= num → Z.of_nat (length (apply_limit offset num docs)) <= num.
Proof.
  intros Hn. unfold apply_limit. rewrite length_take. lia.
Qed.


Section Search.
Variable native : NumPy.byteorder.
Variable rnd : Q → Q.
Variable embedding_create : string → string → exn + list spec_float.
Variable engine :
  gmap string (gmap string (list byte)) → list field * IndexDefinition →
  string → option Z → list (string * list byte) → exn + list Document.
Hypothesis rnd_mono : ∀ x y : Q, (x <= y)%Q → (rnd x <= rnd y)%Q.

Lemma search_redis_unfold user_query index_name vector_field fields hybrid_fields k :
  search_redis native rnd embedding_create engine user_query index_name vector_field
    fields hybrid_fields k
  = (embedded_query ← openai_Embedding_create embedding_create user_query EMBEDDING_MODEL;
     docs ← ft_search engine index_name (knn_query hybrid_fields vector_field fields k)
              (knn_params native embedded_query);
     for_enumerate (print_result rnd) 0 docs;;
     ret docs).
Proof. reflexivity. Qed.

(** *** The print loop *)

Lemma print_result_inv i d w w' :
  print_result rnd i d w = Return tt w' →
  ∃ line, result_line rnd i d = Some line ∧ w' = set_stdout (stdout w ++ [line]) w.
Proof.
  unfold print_result, result_line, normalized_score, raw_distance, getattr, py_float.
  unfold_M. unfold bind.
  destruct (attr d "vector_score") as [vs|]; simpl; [|discriminate].
  destruct (decimal_value vs) as [q|]; simpl; [|discriminate].
  destruct (attr d "title") as [t|]; simpl; [|discriminate].
  unfold print. intros H. injection H as <-. eauto.
Qed.

Lemma print_result_world i d w :
  trace (world_of (print_result rnd i d w)) = trace w.
Proof.
  unfold print_result, getattr, py_float. unfold_M. unfold bind.
  destruct (attr d "vector_score") as [vs|]; simpl; [|reflexivity].
  destruct (decimal_value vs) as [q|]; simpl; [|reflexivity].
  destruct (attr d "title") as [t|]; reflexivity.
Qed.

Lemma for_enumerate_trace i docs w :
  trace (world_of (for_enumerate (print_result rnd) i docs w)) = trace w.
Proof.
  revert i w. induction docs as [|d docs IH]; intros i w; [reflexivity|].
  simpl. unfold_M. unfold bind.
  pose proof (print_result_world i d w) as H.
  destruct (print_result rnd i d w) as [[] w1|e w1]; simpl in H.
  - now rewrite IH.
  - exact H.
Qed.

Lemma for_enumerate_inv i docs w w' :
  for_enumerate (print_result rnd) i docs w = Return tt w' →
  ∃ lines,
    w' = set_stdout (stdout w ++ lines) w ∧
    length lines = length docs ∧
    ∀ j d, docs !! j = Some d →
      ∃ line, result_line rnd (i + Z.of_nat j) d = Some line ∧ lines !! j = Some line.
Proof.
  revert i w. induction docs as [|d docs IH]; intros i w; simpl.
  - unfold ret. intros H. injection H as <-. exists [].
    rewrite app_nil_r. split; [now destruct w|]. split; [reflexivity|].
    intros j d Hj. discriminate.
  - intros H. apply bind_inv_Return in H as ([] & w1 & H1 & H2).
    apply print_result_inv in H1 as (line & Hline & ->).
    apply IH in H2 as (lines & -> & Hlen & Hlines).
    exists (line :: lines). split; [|split].
    + unfold set_stdout. cbn. now rewrite <- app_assoc.
    + simpl. now rewrite Hlen.
    + intros [|j] d' Hj; simpl in Hj.
      * injection Hj as <-. exists line. now rewrite Z.add_0_r.
      * destruct (Hlines j d' Hj) as (l & Hl & Hlk). exists l. split; [|exact Hlk].
        rewrite <- Hl. f_equal. lia.
Qed.

(** *** The store's reply *)

Lemma send_inv {A} c (serve : M A) w a w1 :
  send c serve w = Return a w1 →
  ∃ w0, serve w0 = Return a w1 ∧ trace w0 = trace w ++ [c] ∧ stdout w0 = stdout w ∧
        indexes w0 = indexes w ∧ hashes w0 = hashes w.
Proof.
  unfold send. cbn [faults set_trace].
  destruct (faults w) as [|[e|] fs]; [|discriminate|]; intros H; eexists; (split; [exact H|auto]).
Qed.

Lemma ft_search_inv index query params w docs w1 :
  ft_search engine index query params w = Return docs w1 →
  ∃ matched,
    docs = apply_return (query_return_fields query) <$>
             apply_limit (query_offset query) (query_num query)
               (apply_sortby (query_sortby query) matched) ∧
    0 <= query_num query ∧
    trace w1 = trace w ++ [FT_SEARCH index query params] ∧
    stdout w1 = stdout w.
Proof.
  intros H. apply send_inv in H as (w0 & H & Htr & Hout & _ & _).
  destruct (index_lookup index (indexes w0)) as [schema|]; [|discriminate].
  destruct (Z.ltb_spec (query_offset query) 0); [discriminate|].
  destruct (Z.ltb_spec (query_num query) 0); [discriminate|]. simpl in H.
  destruct (engine _ _ _ _ _) as [e|matched]; [discriminate|].
  injection H as <- <-. eauto.
Qed.

Lemma ft_search_trace index query params w :
  trace (world_of (ft_search engine index query params w))
  = trace w ++ [FT_SEARCH index query params].
Proof.
  apply send_trace. intros w0.
  destruct (index_lookup index (indexes w0)); [|reflexivity].
  destruct (_ || _); [reflexivity|].
  now destruct (engine _ _ _ _ _).
Qed.

(** *** What a returning call establishes *)

Lemma search_redis_inv user_query index_name vector_field fields hybrid_fields k w docs w' :
  search_redis native rnd embedding_create engine user_query index_name vector_field
    fields hybrid_fields k w = Return docs w' →
  ∃ v w1 lines,
    embedding_create EMBEDDING_MODEL user_query = inr v ∧
    ft_search engine index_name (knn_query hybrid_fields vector_field fields k)
      (knn_params native v) w = Return docs w1 ∧
    w' = set_stdout (stdout w1 ++ lines) w1 ∧
    length lines = length docs ∧
    ∀ j d, docs !! j = Some d →
      ∃ line, result_line rnd (Z.of_nat j) d = Some line ∧ lines !! j = Some line.
Proof.
  rewrite search_redis_unfold. intros H.
  apply bind_inv_Return in H as (v & w0 & Hemb & H).
  unfold openai_Embedding_create in Hemb.
  destruct (embedding_create EMBEDDING_MODEL user_query) as [e|v'] eqn:Hv; [discriminate|].
  unfold ret in Hemb. injection Hemb as -> ->.
  apply bind_inv_Return in H as (docs' & w1 & Hs & H).
  apply bind_inv_Return in H as ([] & w2 & Hloop & H).
  unfold ret in H. injection H as -> ->.
  apply for_enumerate_inv in Hloop as (lines & -> & Hlen & Hlines).
  exists v, w1, lines. repeat split; auto.
Qed.




(** *** Calls that return *)

Lemma print_result_run i d line w :
  result_line rnd i d = Some line →
  print_result rnd i d w = Return tt (set_stdout (stdout w ++ [line]) w).
Proof.
  unfold print_result, result_line, normalized_score, raw_distance, getattr, py_float.
  unfold_M. unfold bind.
  destruct (attr d "vector_score") as [vs|]; simpl; [|discriminate].
  destruct (decimal_value vs) as [q|]; simpl; [|discriminate].
  destruct (attr d "title") as [t|]; simpl; [|discriminate].
  now intros [= <-].
Qed.

Lemma for_enumerate_run i docs w :
  Forall (λ d, ∀ j, is_Some (result_line rnd j d)) docs →
  ∃ w', for_enumerate (print_result rnd) i docs w = Return tt w'.
Proof.
  intros Hall. revert i w. induction Hall as [|d docs Hd _ IH]; intros i w.
  - exists w. reflexivity.
  - destruct (Hd i) as [line Hline]. simpl.
    rewrite (bind_Return _ _ _ _ _ (print_result_run i d line w Hline)). apply IH.
Qed.

Lemma attr_apply_return_keep fields d name :
  fields = [] ∨ name ∈ fields → attr (apply_return fields d) name = attr d name.
Proof.
  intros Hf. unfold attr, apply_return.
  destruct fields as [|f fs]; [reflexivity|]. simpl.
  destruct (String.eqb name "id"); [reflexivity|].
  destruct Hf as [|Hin]; [discriminate|].
  destruct (doc_fields d !! name) as [v|] eqn:Hv.
  - apply map_lookup_filter_Some. auto.
  - apply map_lookup_filter_None. left. exact Hv.
Qed.

Lemma result_line_apply_return fields d j :
  fields = [] ∨ ("title"%string ∈ fields ∧ "vector_score"%string ∈ fields) →
  result_line rnd j (apply_return fields d) = result_line rnd j d.
Proof.
  intros Hf. unfold result_line, normalized_score, raw_distance.
  rewrite !attr_apply_return_keep by tauto. reflexivity.
Qed.

(** A call returns when the embedding service answers, the store serves the
    query, and every matching document has a numeral for [vector_score] and
    a title among the returned fields. *)
Lemma search_redis_returns
    user_query index_name vector_field fields hybrid_fields k w v schema matched :
  embedding_create EMBEDDING_MODEL user_query = inr v →
  faults w = [] →
  index_lookup index_name (indexes w) = Some schema →
  0 <= k →
  engine (hashes w) schema
    (query_string (knn_query hybrid_fields vector_field fields k)) (Some 2)
    (knn_params native v) = inr matched →
  fields = [] ∨ ("title"%string ∈ fields ∧ "vector_score"%string ∈ fields) →
  Forall (λ d, ∀ j, is_Some (result_line rnd j d)) matched →
  ∃ docs w',
    search_redis native rnd embedding_create engine user_query index_name vector_field
      fields hybrid_fields k w = Return docs w'.
Proof.
  intros Hv Hf Hix Hk Heng Hfields Hall.
  rewrite search_redis_unfold. unfold_M. unfold bind at 1.
  unfold openai_Embedding_create. rewrite Hv. unfold ret at 1.
  unfold bind at 1. unfold ft_search, send. cbn [faults set_trace indexes hashes].
  rewrite Hf, Hix.
  cbn [knn_query query_offset query_num query_string query_dialect query_sortby
       query_return_fields] in *.
  destruct (Z.ltb_spec k 0); [lia|]. simpl orb. cbv iota. rewrite Heng.
  set (docs := apply_return fields <$> _).
  assert (Hdocs : Forall (λ d, ∀ j, is_Some (result_line rnd j d)) docs).
  { subst docs. apply Forall_fmap. unfold apply_limit.
    apply Forall_take, Forall_drop. simpl apply_sortby.
    rewrite merge_sort_Permutation.
    eapply Forall_impl; [exact Hall|]. intros d Hd j. simpl.
    now rewrite result_line_apply_return. }
  unfold bind.
  match goal with
  | |- context [for_enumerate _ 0 docs ?w0] =>
      destruct (for_enumerate_run 0 docs w0 Hdocs) as [w' Hloop]
  end.
  rewrite Hloop. unfold ret. eauto.
Qed.




(** C2: the query [search_redis] submits for filter expression F, vector
    field V and k is the expression [F=>[KNN k @V $vector AS vector_score]]:
    F joined to a k-nearest-neighbour clause over V whose [$vector]
    parameter is the serialized query vector, with LIMIT 0 k and an ascending
    sort on the distance the clause yields; with F the wildcard the filter
    part is just the wildcard. *)
Theorem search_redis_query
    user_query index_name vector_field fields hybrid_fields k w v :
  embedding_create EMBEDDING_MODEL user_query = inr v →
  commands_since w
    (world_of (search_redis native rnd embedding_create engine user_query index_name
                 vector_field fields hybrid_fields k w))
  = [FT_SEARCH index_name
       {| query_string :=
            hybrid_fields +:+ "=>[KNN " +:+ pretty k +:+ " @" +:+ vector_field
              +:+ " $vector AS vector_score]";
          query_offset := 0;
          query_num := k;
          query_return_fields := fields;
          query_sortby := Some ("vector_score"%string, true);
          query_dialect := Some 2 |}
       [("vector"%string, NumPy.tobytes native (NumPy.array_float32 v))]] ∧
  (hybrid_fields = "*"%string →
   query_string (knn_query hybrid_fields vector_field fields k)
   = "*=>[KNN " +:+ pretty k +:+ " @" +:+ vector_field +:+ " $vector AS vector_score]").
Proof.
  intros Hv. split; [|now intros ->]. apply commands_since_app.
  rewrite search_redis_unfold. unfold_M. unfold bind at 1.
  unfold openai_Embedding_create. rewrite Hv. unfold ret.
  unfold bind at 1.
  pose proof (ft_search_trace index_name (knn_query hybrid_fields vector_field fields k)
                (knn_params native v) w) as Ht.
  destruct (ft_search _ _ _ _ w) as [docs w1|e w1]; simpl in Ht; [|exact Ht].
  unfold bind.
  pose proof (for_enumerate_trace 0 docs w1) as Hl.
  destruct (for_enumerate (print_result rnd) 0 docs w1) as [[] w2|e w2];
    unfold ret; simpl in *; rewrite Hl, Ht; reflexivity.
Qed.

End Search.

(** C6: provisioning is idempotent with respect to existence: when the
    store serves every command, two runs of the provisioning step with the
    same schema both return, the second one issues the existence probe and
    nothing else (no second creation), and the store then holds exactly one
    index of that name. *)
Theorem ensure_index_twice name fields prefix w :
  faults w = [] →
  NoDup (indexes w).*1 →
  ∃ w1 w2,
    ensure_index name fields prefix w = Return tt w1 ∧
    ensure_index name fields prefix w1 = Return tt w2 ∧
    commands_since w1 w2 = [FT_INFO name] ∧
    indexes w2 = indexes w1 ∧
    index_count name w2 = 1%nat.
Proof.
  intros Hf Hnd.
  destruct (index_lookup name (indexes w)) as [schema|] eqn:Hix.
  - assert (Hpresent : index_lookup name (indexes w) ≠ None) by congruence.
    eexists _, _. split; [now apply ensure_index_present|].
    split; [apply ensure_index_present; assumption|].
    split; [apply commands_since_app; reflexivity|].
    split; [reflexivity|].
    unfold index_count. cbn [indexes set_stdout set_trace].
    apply filter_present_NoDup; [assumption|].
    destruct (decide (name ∈ (indexes w).*1)) as [|Hn]; [assumption|].
    apply index_lookup_None in Hn. congruence.
  - eexists _, _. split; [now apply ensure_index_absent|].
    split; [apply ensure_index_present; [assumption|apply index_lookup_app_new]|].
    split; [apply commands_since_app; reflexivity|].
    split; [reflexivity|].
    unfold index_count. cbn [indexes set_stdout set_trace set_indexes].
    rewrite filter_app, filter_absent by now apply index_lookup_None.
    rewrite filter_cons_True by reflexivity. reflexivity.
Qed.

(** C7: whatever error the existence probe fails with, the provisioning
    step goes on to create the index: the run continues as [create_index]
    from the state the failed probe left, and the commands issued are the
    probe followed by the creation. *)
Theorem ensure_index_probe_failure name fields prefix w e w1 :
  ft_info name w = Raise e w1 →
  ensure_index name fields prefix w = ft_create_index name fields (hash_definition prefix) w1 ∧
  commands_since w (world_of (ensure_index name fields prefix w))
    = [FT_INFO name; FT_CREATE name fields (hash_definition prefix)].
Proof.
  intros Hinfo.
  assert (Hrun : ensure_index name fields prefix w
                 = ft_create_index name fields (hash_definition prefix) w1).
  { unfold ensure_index, try_except. unfold_M. unfold bind. now rewrite Hinfo. }
  split; [exact Hrun|].
  apply commands_since_app. rewrite Hrun, ft_create_index_trace.
  pose proof (ft_info_trace name w) as Ht. rewrite Hinfo in Ht. simpl in Ht.
  rewrite Ht, <- app_assoc. reflexivity.
Qed.

(** ** Ingestion: the claims *)

Lemma string_app_cancel_l (s a b : string) : s +:+ a = s +:+ b → a = b.
Proof. induction s as [|c s IH]; simpl; [auto|]. intros [= H]. auto. Qed.

(** C1: for every record ingested by [index_documents], each embedding
    vector is serialized at exactly 4 bytes per element, and deserializing
    the bytes gives the original sequence up to float32 rounding: the
    float32 conversion of the sequence in general, and the sequence itself
    (number for number) when it is float32-representable. *)
Theorem index_documents_vector_round_trip native prefix documents rows w :
  heap w !! documents = Some (OFrame rows) →
  Forall (row_ok (heap w)) rows →
  faults w = [] →
  ∃ w', index_documents native prefix documents w = Return tt w' ∧
    ∀ i r, rows !! i = Some r →
      ∃ key m, commands_since w w' !! i = Some (HSET key m) ∧
        ∀ col l, (col, l) ∈ vector_cells r →
          ∃ xs b, vector_of (heap w) l = Some xs ∧ m !! col = Some b ∧
            length b = (4 * length xs)%nat ∧
            NumPy.frombuffer native b = Some (NumPy.array_float32 xs) ∧
            (Forall NumPy.float32_representable xs →
             ∃ ys, NumPy.frombuffer native b = Some ys ∧
                   Forall2 NumPy.same_float xs ys).
Proof.
  intros Hdoc Hok Hf.
  destruct (index_documents_run native prefix documents rows w Hdoc Hok Hf)
    as (w' & Hrun & Hcmds & _ & _).
  exists w'. split; [exact Hrun|]. intros i r Hi.
  destruct (row_command native prefix (heap w) r) as [| |key m|] eqn:Hc;
    try discriminate.
  exists key, m. split.
  { rewrite Hcmds, list_lookup_fmap, Hi. simpl. now rewrite Hc. }
  intros col l Hin.
  assert (Hl : is_Some (vector_of (heap w) l)).
  { rewrite Forall_forall in Hok.
    destruct (Hok r) as [Ht Hcv]; [eapply list_elem_of_lookup_2; eassumption|].
    unfold vector_cells in Hin.
    apply elem_of_cons in Hin as [[= -> ->]|Hin]; [exact Ht|].
    apply list_elem_of_singleton in Hin as [= -> ->]. exact Hcv. }
  destruct Hl as [xs Hxs].
  exists xs, (NumPy.tobytes native (NumPy.array_float32 xs)).
  split; [exact Hxs|].
  split; [eapply row_command_vector; eassumption|].
  split; [rewrite NumPyFacts.length_tobytes; unfold NumPy.array_float32;
          now rewrite length_fmap|].
  assert (Hback : NumPy.frombuffer native (NumPy.tobytes native (NumPy.array_float32 xs))
                  = Some (NumPy.array_float32 xs)).
  { apply NumPyFacts.frombuffer_tobytes, NumPyFacts.array_float32_valid. }
  split; [exact Hback|].
  intros Hrep. exists (NumPy.array_float32 xs). split; [exact Hback|].
  now apply NumPyFacts.array_float32_representable.
Qed.

(** C5: [index_documents] performs exactly one write per record of the
    input, keyed by [prefix + ":" + id] of that record, and distinct ids
    give distinct keys. *)
Theorem index_documents_one_write_per_record native prefix documents rows w :
  heap w !! documents = Some (OFrame rows) →
  Forall (row_ok (heap w)) rows →
  faults w = [] →
  ∃ w', index_documents native prefix documents w = Return tt w' ∧
    length (commands_since w w') = length rows ∧
    (∀ i r, rows !! i = Some r →
       ∃ m, commands_since w w' !! i
            = Some (HSET (prefix +:+ ":" +:+ pretty (row_id r)) m)) ∧
    (∀ r1 r2 : article, row_id r1 ≠ row_id r2 →
       prefix +:+ ":" +:+ pretty (row_id r1) ≠ prefix +:+ ":" +:+ pretty (row_id r2)).
Proof.
  intros Hdoc Hok Hf.
  destruct (index_documents_run native prefix documents rows w Hdoc Hok Hf)
    as (w' & Hrun & Hcmds & _ & _).
  exists w'. split; [exact Hrun|]. split; [|split].
  - now rewrite Hcmds, length_fmap.
  - intros i r Hi. eexists. rewrite Hcmds, list_lookup_fmap, Hi. reflexivity.
  - intros r1 r2 Hne Heq. apply Hne.
    apply string_app_cancel_l, string_app_cancel_l in Heq.
    now apply (inj pretty) in Heq.
Qed.

(** C8: for every record, every field other than [title_vector] and
    [content_vector] reaches the store as the row holds it: [id], [url],
    [title], [text] and [vector_id] are written as the bytes of their
    string form, and in general a field other than the two vectors is the
    client's encoding of the row's own cell. *)
Theorem index_documents_other_fields_unchanged native prefix documents rows w :
  heap w !! documents = Some (OFrame rows) →
  Forall (row_ok (heap w)) rows →
  faults w = [] →
  ∃ w', index_documents native prefix documents w = Return tt w' ∧
    ∀ i r, rows !! i = Some r →
      ∃ key m, commands_since w w' !! i = Some (HSET key m) ∧
        (∀ col s, (col, s) ∈ scalar_cells r →
           m !! col = Some (list_byte_of_string s)) ∧
        (∀ col, col ≠ "title_vector"%string → col ≠ "content_vector"%string →
           m !! col = dict_of_row r !! col ≫= encode_value).
Proof.
  intros Hdoc Hok Hf.
  destruct (index_documents_run native prefix documents rows w Hdoc Hok Hf)
    as (w' & Hrun & Hcmds & _ & _).
  exists w'. split; [exact Hrun|]. intros i r Hi.
  destruct (row_command native prefix (heap w) r) as [| |key m|] eqn:Hc;
    try discriminate.
  exists key, m. split; [|split].
  - rewrite Hcmds, list_lookup_fmap, Hi. simpl. now rewrite Hc.
  - intros col s Hin. eapply row_command_scalar; eassumption.
  - intros col H1 H2. eapply row_command_other; eassumption.
Qed.

(** C9: [index_documents] does not mutate its [documents] argument: every
    object that existed before the call, the frame and the float lists of
    its vector cells among them, is the same after it, whether the call
    returns or raises; the byte vectors are stored in dicts that did not
    exist before. *)
Theorem index_documents_does_not_mutate native prefix documents w :
  heap w ⊆ heap (world_of (index_documents native prefix documents w)) ∧
  ∀ rows, heap w !! documents = Some (OFrame rows) →
    heap (world_of (index_documents native prefix documents w)) !! documents
      = Some (OFrame rows) ∧
    Forall (λ r, ∀ col l xs, (col, l) ∈ vector_cells r →
                   vector_of (heap w) l = Some xs →
                   vector_of (heap (world_of (index_documents native prefix documents w))) l
                   = Some xs) rows.
Proof.
  pose proof (index_documents_heap native prefix documents w) as Hsub.
  split; [exact Hsub|]. intros rows Hdoc. split.
  - eapply lookup_weaken; eassumption.
  - apply Forall_forall. intros r _ col l xs _. unfold vector_of.
    destruct (heap w !! l) as [[ys|d|fr]|] eqn:Hl; try discriminate.
    intros [= ->]. now rewrite (lookup_weaken _ _ _ _ Hl Hsub).
Qed.

(** ** Query fragments *)

Lemma count_dquotes_app a b :
  count_dquotes (a +:+ b) = (count_dquotes a + count_dquotes b)%nat.
Proof. induction a as [|c a IH]; simpl; [reflexivity|]. rewrite IH. lia. Qed.

Lemma count_dquotes_hybrid_field field_name value :
  count_dquotes (create_hybrid_field field_name value)
  = (count_dquotes field_name + count_dquotes value + 2)%nat.
Proof.
  unfold create_hybrid_field. rewrite !count_dquotes_app. simpl. lia.
Qed.

(** C10: [create_hybrid_field] returns exactly the at-sign, the field name,
    a colon, a double quote, the value and a double quote, the value copied
    as it is, with no escaping: a double quote in the value is one more
    double quote in the fragment.  For the value made of a, a double quote
    and b the fragment has an odd number of quotes, so its quoting is left
    open, and so is the quoting of the query expression built from it; a
    value without a quote gives the one phrase that was meant. *)
Theorem create_hybrid_field_verbatim :
  (∀ field_name value,
     create_hybrid_field field_name value
     = "@" +:+ field_name +:+ ":" +:+ dquote +:+ value +:+ dquote) ∧
  (∀ field_name value,
     count_dquotes (create_hybrid_field field_name value)
     = (count_dquotes field_name + count_dquotes value + 2)%nat) ∧
  ∃ value,
    count_dquotes value = 1%nat ∧
    (∀ field_name, count_dquotes field_name = 0%nat →
       Nat.Odd (count_dquotes (create_hybrid_field field_name value))) ∧
    quoted_phrases (create_hybrid_field "title" value) = None ∧
    quoted_phrases
      (query_string (knn_query (create_hybrid_field "title" value) "title_vector" [] 5))
      = None ∧
    quoted_phrases (create_hybrid_field "title" "Scottish") = Some ["Scottish"%string] ∧
    quoted_phrases
      (query_string (knn_query (create_hybrid_field "title" "Scottish") "title_vector" [] 5))
      = Some ["Scottish"%string].
Proof.
  split; [reflexivity|]. split; [apply count_dquotes_hybrid_field|].
  exists ("a" +:+ dquote +:+ "b").
  split; [reflexivity|]. split; [|repeat split; reflexivity].
  intros field_name Hf. rewrite count_dquotes_hybrid_field, Hf. exists 1%nat. reflexivity.
Qed.

(* ===================================================================== *)
(** * Further properties of the cells *)
(* ===================================================================== *)

(** ** What a computation leaves alone *)

Global Instance same_preorder {B} (f : world → B) : PreOrder (same f).
Proof.
  split; [now intros w|]. intros w1 w2 w3. unfold same. congruence.
Qed.

Lemma respects_ret {A} R `{!Reflexive R} (a : A) : respects R (ret a).
Proof. intros w. simpl. reflexivity. Qed.

Lemma respects_raise {A} R `{!Reflexive R} e : respects R (@raise A e).
Proof. intros w. simpl. reflexivity. Qed.

Lemma respects_bind {A B} R `{!Transitive R} (m : M A) (k : A → M B) :
  respects R m → (∀ a, respects R (k a)) → respects R (m ≫= k).
Proof.
  intros Hm Hk w. unfold_M. unfold bind.
  specialize (Hm w). destruct (m w) as [a w'|e w']; simpl in *.
  - etrans; [exact Hm|apply Hk].
  - exact Hm.
Qed.

Lemma respects_try_except {A} R `{!Transitive R} (body handler : M A) :
  respects R body → respects R handler → respects R (try_except body handler).
Proof.
  intros Hb Hh w. unfold try_except.
  specialize (Hb w). destruct (body w) as [a w'|e w']; simpl in *.
  - exact Hb.
  - etrans; [exact Hb|apply Hh].
Qed.

Lemma respects_for_each {A} R `{!PreOrder R} (body : A → M unit) xs :
  (∀ x, respects R (body x)) → respects R (for_each body xs).
Proof.
  intros Hb. induction xs as [|x xs IH]; simpl.
  - apply respects_ret, _.
  - apply respects_bind; [apply _|apply Hb|intros _; exact IH].
Qed.

Lemma respects_for_enumerate {A} R `{!PreOrder R} (body : Z → A → M unit) i xs :
  (∀ j x, respects R (body j x)) → respects R (for_enumerate body i xs).
Proof.
  intros Hb. revert i. induction xs as [|x xs IH]; intros i; simpl.
  - apply respects_ret, _.
  - apply respects_bind; [apply _|apply Hb|intros _; apply IH].
Qed.

Lemma respects_send {A} R `{!Transitive R} c (serve : M A) :
  blind_to_trace R → blind_to_faults R → respects R serve → respects R (send c serve).
Proof.
  intros Ht Hf Hs w. unfold send. cbn [faults set_trace].
  destruct (faults w) as [|[e|] fs].
  - etrans; [apply (Ht (trace w ++ [c]))|apply Hs].
  - simpl. etrans; [apply (Ht (trace w ++ [c]))|apply Hf].
  - etrans; [apply (Ht (trace w ++ [c]))|]. etrans; [apply (Hf fs)|apply Hs].
Qed.

Lemma respects_print R line : blind_to_stdout R → respects R (print line).
Proof. intros Ho w. apply Ho. Qed.

Lemma respects_deref R `{!Reflexive R} l : respects R (deref l).
Proof. intros w. unfold deref. destruct (heap w !! l); simpl; reflexivity. Qed.

Lemma respects_getitem R `{!PreOrder R} d key : respects R (getitem d key).
Proof.
  unfold getitem. apply respects_bind; [apply _|apply respects_deref, _|].
  intros [xs|m|rows]; try (apply respects_raise, _).
  destruct (m !! key); [apply respects_ret, _ | apply respects_raise, _].
Qed.

Lemma respects_setitem R `{!PreOrder R} d key v : blind_to_heap R → respects R (setitem d key v).
Proof.
  intros Hh. unfold setitem. apply respects_bind; [apply _|apply respects_deref, _|].
  intros [xs|m|rows]; try (apply respects_raise, _).
  intros w. apply Hh.
Qed.

Lemma respects_py_str R `{!Reflexive R} v : respects R (py_str v).
Proof. destruct v; simpl; first [apply respects_ret, _ | apply respects_raise, _]. Qed.

Lemma respects_np_array_float32 R `{!PreOrder R} v : respects R (np_array_float32 v).
Proof.
  destruct v; simpl; try (apply respects_raise, _).
  apply respects_bind; [apply _|apply respects_deref, _|].
  intros [xs|m|rows]; first [apply respects_ret, _ | apply respects_raise, _].
Qed.

Lemma respects_getattr R `{!Reflexive R} d name : respects R (getattr d name).
Proof.
  unfold getattr. destruct (attr d name); [apply respects_ret, _|apply respects_raise, _].
Qed.

Lemma respects_alloc_records R `{!PreOrder R} rows :
  blind_to_heap R → respects R (alloc_records rows).
Proof.
  intros Hh. induction rows as [|r rows IH]; simpl.
  - apply respects_ret, _.
  - apply respects_bind; [apply _|intros w; apply Hh|]. intros d.
    apply respects_bind; [apply _|exact IH|]. intros ds. apply respects_ret, _.
Qed.

Lemma respects_to_dict_records R `{!PreOrder R} documents :
  blind_to_heap R → respects R (to_dict_records documents).
Proof.
  intros Hh. unfold to_dict_records.
  apply respects_bind; [apply _|apply respects_deref, _|].
  intros [xs|m|rows]; try (apply respects_raise, _). now apply respects_alloc_records.
Qed.

Lemma respects_ft_info R `{!PreOrder R} name :
  blind_to_trace R → blind_to_faults R → respects R (ft_info name).
Proof.
  intros Ht Hf. apply respects_send; [apply _|assumption..|].
  intros w. destruct (index_lookup name (indexes w)); simpl; reflexivity.
Qed.

(** *** The provisioning cell *)

Lemma index_lookup_app_l name ixs ixs' s :
  index_lookup name ixs = Some s → index_lookup name (ixs ++ ixs') = Some s.
Proof.
  induction ixs as [|[n s0] ixs IH]; simpl; [discriminate|].
  destruct (String.eqb n name); auto.
Qed.

(** Every run of the cell, whatever the faults: the index list is left as
    it is, or the index is appended to a list that had none of that name. *)
Lemma ensure_index_indexes name fields prefix w :
  let w' := world_of (ensure_index name fields prefix w) in
  indexes w' = indexes w ∨
  (index_lookup name (indexes w) = None ∧
   indexes w' = indexes w ++ [(name, (fields, hash_definition prefix))]).
Proof.
  destruct w as [h hs ixs fs tr out].
  unfold ensure_index, try_except. unfold_M. unfold bind, ft_info, ft_create_index, send, print.
  cbn [faults set_trace indexes].
  destruct fs as [|[e|] [|[e'|] fs]]; cbn [faults set_faults set_trace indexes];
    destruct (index_lookup name ixs) eqn:Hix; cbn; rewrite ?Hix; cbn; auto.
Qed.

Lemma respects_ensure_index R `{!PreOrder R} name fields prefix :
  blind_to_trace R → blind_to_faults R → blind_to_stdout R →
  (∀ ixs w, R w (set_indexes ixs w)) →
  respects R (ensure_index name fields prefix).
Proof.
  intros Ht Hf Ho Hi. unfold ensure_index.
  apply respects_try_except; [apply _| |].
  - apply respects_bind; [apply _|now apply respects_ft_info|].
    intros _. now apply respects_print.
  - apply respects_send; [apply _|assumption..|].
    intros w. destruct (index_lookup name (indexes w)); simpl; [reflexivity|apply Hi].
Qed.

(** X1: the provisioning cell never drops or replaces an index, and never
    touches the keyspace or the Python objects: in every run, returning or
    raising and whatever commands fail, every index that existed keeps its
    schema, at most one index is added, and hashes and heap are as before. *)
Theorem ensure_index_keeps_existing name fields prefix w :
  let w' := world_of (ensure_index name fields prefix w) in
  (∀ other schema, index_lookup other (indexes w) = Some schema →
                   index_lookup other (indexes w') = Some schema) ∧
  (length (indexes w') ≤ length (indexes w) + 1)%nat ∧
  hashes w' = hashes w ∧ heap w' = heap w.
Proof.
  intros w'. split; [|split; [|split]].
  - intros other schema Hs.
    destruct (ensure_index_indexes name fields prefix w) as [H|[_ H]]; fold w' in H; rewrite H.
    + exact Hs.
    + now apply index_lookup_app_l.
  - destruct (ensure_index_indexes name fields prefix w) as [H|[_ H]]; fold w' in H; rewrite H.
    + lia.
    + rewrite length_app. simpl. lia.
  - now apply (respects_ensure_index (same hashes)).
  - now apply (respects_ensure_index (same heap)).
Qed.

(** X2: when the cell returns, the index exists, whatever happened on the
    way (probe served, or probe failed and creation served). *)
Theorem ensure_index_returns_with_index name fields prefix w w' :
  ensure_index name fields prefix w = Return tt w' →
  index_lookup name (indexes w') ≠ None.
Proof.
  assert (Hnew : ∀ ixs, index_lookup name (ixs ++ [(name, (fields, hash_definition prefix))]) ≠ None)
    by (intros; apply index_lookup_app_new).
  destruct w as [h hs ixs fs tr out].
  unfold ensure_index, try_except. unfold_M. unfold bind, ft_info, ft_create_index, send, print.
  cbn [faults set_trace indexes].
  destruct fs as [|[e|] [|[e'|] fs]]; cbn [faults set_faults set_trace indexes];
    destruct (index_lookup name ixs) eqn:Hix; cbn; rewrite ?Hix; cbn;
    try discriminate; intros [= <-]; cbn; solve [congruence | apply Hnew].
Qed.

(** X3: the schema and the prefix handed to the cell are not compared with
    an index that already exists: whatever [fields] and [prefix] are, the
    cell returns after the probe, prints its one line, and the index keeps
    the schema it had. *)
Theorem ensure_index_ignores_new_schema name fields prefix w schema :
  faults w = [] →
  index_lookup name (indexes w) = Some schema →
  ∃ w', ensure_index name fields prefix w = Return tt w' ∧
        index_lookup name (indexes w') = Some schema ∧
        commands_since w w' = [FT_INFO name] ∧
        lines_since w w' = ["Index already exists"%string].
Proof.
  intros Hf Hix. eexists. split.
  - apply ensure_index_present; [exact Hf|congruence].
  - cbn [indexes set_stdout set_trace]. split; [exact Hix|]. split.
    + apply commands_since_app. reflexivity.
    + unfold lines_since. cbn [stdout set_stdout set_trace]. apply drop_app_length.
Qed.

(** X4: a probe that fails for a reason of its own (a lost connection, a
    time-out) on an index that exists sends the cell into the creation,
    which the store refuses: the cell raises the store's error and the
    index is as it was. *)
Theorem ensure_index_existing_probe_fault name fields prefix w schema e fs :
  index_lookup name (indexes w) = Some schema →
  faults w = Some e :: fs →
  (∀ e', head fs ≠ Some (Some e')) →
  ∃ w', ensure_index name fields prefix w
          = Raise (ResponseError "Index already exists") w' ∧
        indexes w' = indexes w ∧
        commands_since w w' = [FT_INFO name; FT_CREATE name fields (hash_definition prefix)].
Proof.
  intros Hix Hf Hfs.
  unfold ensure_index, try_except. unfold_M. unfold bind, ft_info, ft_create_index, send, print.
  cbn [faults set_trace indexes]. rewrite Hf. cbn [faults set_faults set_trace indexes].
  destruct fs as [|[e'|] fs]; cbn [faults set_faults set_trace indexes trace].
  - rewrite Hix. eexists. split; [reflexivity|]. split; [reflexivity|].
    apply commands_since_app. cbn. now rewrite <- app_assoc.
  - exfalso. now apply (Hfs e').
  - rewrite Hix. eexists. split; [reflexivity|]. split; [reflexivity|].
    apply commands_since_app. cbn. now rewrite <- app_assoc.
Qed.

(** X5: the cell sends the probe first and at most one more command, the
    creation; it prints its line exactly when it stops after the probe, and
    then it returns.  In no run does it write to the keyspace or search. *)
Theorem ensure_index_commands name fields prefix w :
  (ensure_index name fields prefix w
     = Return tt (world_of (ensure_index name fields prefix w)) ∧
   commands_since w (world_of (ensure_index name fields prefix w)) = [FT_INFO name] ∧
   lines_since w (world_of (ensure_index name fields prefix w))
     = ["Index already exists"%string]) ∨
  (commands_since w (world_of (ensure_index name fields prefix w))
     = [FT_INFO name; FT_CREATE name fields (hash_definition prefix)] ∧
   lines_since w (world_of (ensure_index name fields prefix w)) = []).
Proof.
  destruct w as [h hs ixs fs tr out].
  unfold ensure_index, try_except. unfold_M. unfold bind, ft_info, ft_create_index, send, print.
  unfold commands_since, lines_since.
  cbn [faults set_trace indexes].
  destruct fs as [|[e|] [|[e'|] fs]]; cbn [faults set_faults set_trace indexes];
    destruct (index_lookup name ixs) eqn:Hix; cbn; rewrite ?Hix; cbn;
    rewrite <- ?app_assoc, ?drop_app_length, ?drop_all; auto.
Qed.

(** ** Search: failures, frame and the choice of the results *)

Lemma StronglySorted_take_drop {A} (R : relation A) n l x y :
  StronglySorted R l → x ∈ take n l → y ∈ drop n l → R x y.
Proof.
  intros H. revert n. induction H as [|z l Hl IH Hz]; intros n Hx Hy.
  - rewrite take_nil in Hx. now apply elem_of_nil in Hx.
  - destruct n as [|n]; simpl in *.
    + now apply elem_of_nil in Hx.
    + apply elem_of_cons in Hx as [->|Hx].
      * rewrite Forall_forall in Hz. apply Hz. eapply subseteq_drop. exact Hy.
      * eapply IH; eassumption.
Qed.

Section SearchEdges.
Variable native : NumPy.byteorder.
Variable rnd : Q → Q.
Variable embedding_create : string → string → exn + list spec_float.
Variable engine :
  gmap string (gmap string (list byte)) → list field * IndexDefinition →
  string → option Z → list (string * list byte) → exn + list Document.

Lemma respects_print_result R `{!PreOrder R} i d :
  blind_to_stdout R → respects R (print_result rnd i d).
Proof.
  intros Ho. unfold print_result.
  apply respects_bind; [apply _|apply respects_getattr, _|]. intros vs.
  apply respects_bind; [apply _| |].
  { unfold py_float. destruct (decimal_value vs); [apply respects_ret, _|apply respects_raise, _]. }
  intros q. apply respects_bind; [apply _|apply respects_getattr, _|].
  intros t. now apply respects_print.
Qed.

Lemma respects_ft_search R `{!PreOrder R} index query params :
  blind_to_trace R → blind_to_faults R → respects R (ft_search engine index query params).
Proof.
  intros Ht Hf. apply respects_send; [apply _|assumption..|]. intros w.
  destruct (index_lookup index (indexes w)); [|simpl; reflexivity].
  destruct (_ || _); [simpl; reflexivity|].
  destruct (engine _ _ _ _ _); simpl; reflexivity.
Qed.

Lemma respects_search_redis R `{!PreOrder R}
    user_query index_name vector_field fields hybrid_fields k :
  blind_to_trace R → blind_to_faults R → blind_to_stdout R →
  respects R (search_redis native rnd embedding_create engine user_query index_name
                vector_field fields hybrid_fields k).
Proof.
  intros Ht Hf Ho. rewrite search_redis_unfold.
  apply respects_bind; [apply _| |].
  { unfold openai_Embedding_create.
    destruct (embedding_create _ _); [apply respects_raise, _|apply respects_ret, _]. }
  intros v. apply respects_bind; [apply _|now apply respects_ft_search|]. intros docs.
  apply respects_bind; [apply _| |intros; apply respects_ret, _].
  apply respects_for_enumerate; [apply _|]. intros j d. now apply respects_print_result.
Qed.

(** X6: a search reads and never writes: in every run, returning or
    raising, the keyspace, the indexes and the Python objects are what they
    were before the call. *)
Theorem search_redis_read_only
    user_query index_name vector_field fields hybrid_fields k w :
  hashes (world_of (search_redis native rnd embedding_create engine user_query index_name
                      vector_field fields hybrid_fields k w)) = hashes w ∧
  indexes (world_of (search_redis native rnd embedding_create engine user_query index_name
                       vector_field fields hybrid_fields k w)) = indexes w ∧
  heap (world_of (search_redis native rnd embedding_create engine user_query index_name
                    vector_field fields hybrid_fields k w)) = heap w.
Proof.
  split; [|split].
  - now apply (respects_search_redis (same hashes)).
  - now apply (respects_search_redis (same indexes)).
  - now apply (respects_search_redis (same heap)).
Qed.

(** X7: when the embedding service fails, [search_redis] raises the
    service's error before anything else happens: no command is sent and
    nothing is printed, the world is the one of the call. *)
Theorem search_redis_embedding_failure
    user_query index_name vector_field fields hybrid_fields k w e :
  embedding_create EMBEDDING_MODEL user_query = inl e →
  search_redis native rnd embedding_create engine user_query index_name vector_field
    fields hybrid_fields k w = Raise e w.
Proof.
  intros He. rewrite search_redis_unfold. unfold_M. unfold bind, openai_Embedding_create.
  now rewrite He.
Qed.

(** X8: an error of the store on the query (a missing index, a rejected
    expression, a lost connection) is the error of [search_redis], and no
    line has been printed when it is raised. *)
Theorem search_redis_store_failure
    user_query index_name vector_field fields hybrid_fields k w v e w1 :
  embedding_create EMBEDDING_MODEL user_query = inr v →
  ft_search engine index_name (knn_query hybrid_fields vector_field fields k)
    (knn_params native v) w = Raise e w1 →
  search_redis native rnd embedding_create engine user_query index_name vector_field
    fields hybrid_fields k w = Raise e w1 ∧
  stdout w1 = stdout w ∧
  commands_since w w1
  = [FT_SEARCH index_name (knn_query hybrid_fields vector_field fields k)
       (knn_params native v)].
Proof.
  intros Hv Hs. split; [|split].
  - rewrite search_redis_unfold. unfold_M. unfold bind at 1.
    unfold openai_Embedding_create. rewrite Hv. unfold ret at 1.
    unfold bind. now rewrite Hs.
  - pose proof (respects_ft_search (same stdout) index_name
                  (knn_query hybrid_fields vector_field fields k) (knn_params native v)) as H.
    specialize (H ltac:(done) ltac:(done) w). now rewrite Hs in H.
  - apply commands_since_app.
    pose proof (ft_search_trace engine index_name
                  (knn_query hybrid_fields vector_field fields k) (knn_params native v) w) as H.
    now rewrite Hs in H.
Qed.

Lemma attr_apply_return_drop fields d name :
  fields ≠ [] → name ∉ fields → name ≠ "id"%string →
  attr (apply_return fields d) name = None.
Proof.
  intros Hne Hnot Hid. unfold attr, apply_return.
  destruct fields as [|f fs]; [contradiction|]. simpl.
  destruct (String.eqb_spec name "id") as [|_]; [contradiction|].
  apply map_lookup_filter_None. right. intros v _. exact Hnot.
Qed.

(** What a reply of the store is made of: the answer of the engine on the
    keyspace and the schema of the index, sorted, cut and projected. *)
Lemma ft_search_inv_engine index query params w docs w1 :
  ft_search engine index query params w = Return docs w1 →
  ∃ schema matched,
    index_lookup index (indexes w) = Some schema ∧
    engine (hashes w) schema (query_string query) (query_dialect query) params
      = inr matched ∧
    docs = apply_return (query_return_fields query) <$>
             apply_limit (query_offset query) (query_num query)
               (apply_sortby (query_sortby query) matched) ∧
    stdout w1 = stdout w.
Proof.
  intros H. apply send_inv in H as (w0 & H & Htr & Hout & Hix & Hhs).
  rewrite Hix, Hhs in H.
  destruct (index_lookup index (indexes w)) as [schema|]; [|discriminate].
  destruct (_ || _); [discriminate|].
  destruct (engine _ _ _ _ _) as [e|matched] eqn:He; [discriminate|].
  injection H as <- <-. eauto 10.
Qed.

(** X9: [search_redis] reads [vector_score] and [title] of every result,
    so a list of return fields that leaves one of them out makes the call
    fail on the first result: with a non-empty [return_fields] without
    [vector_score] or without [title] and a store that returns at least one
    document, the call raises once the query has been served, and prints
    nothing; the error is [AttributeError] for [vector_score] when that is
    left out, and [AttributeError] for [title] when only the title is left
    out and the distance of the first result is a numeral. *)
Theorem search_redis_missing_field
    user_query index_name vector_field fields hybrid_fields k w v d docs w1 :
  fields ≠ [] →
  "vector_score"%string ∉ fields ∨ "title"%string ∉ fields →
  embedding_create EMBEDDING_MODEL user_query = inr v →
  ft_search engine index_name (knn_query hybrid_fields vector_field fields k)
    (knn_params native v) w = Return (d :: docs) w1 →
  ∃ e,
    search_redis native rnd embedding_create engine user_query index_name vector_field
      fields hybrid_fields k w = Raise e w1 ∧
    stdout w1 = stdout w ∧
    ("vector_score"%string ∉ fields → e = AttributeError "vector_score") ∧
    ("vector_score"%string ∈ fields →
     is_Some (attr d "vector_score" ≫= decimal_value) →
     e = AttributeError "title").
Proof.
  intros Hne Hnot Hv Hs.
  destruct (ft_search_inv_engine _ _ _ _ _ _ Hs) as (schema & matched & _ & _ & Hdocs & Hout).
  cbn [knn_query query_return_fields] in Hdocs.
  destruct (apply_limit _ _ _) as [|d0 ds]; [discriminate|].
  injection Hdocs as -> _.
  assert (Hrun : search_redis native rnd embedding_create engine user_query index_name
                   vector_field fields hybrid_fields k w
                 = match print_result rnd 0 (apply_return fields d0) w1 with
                   | Return _ w2 =>
                       (for_enumerate (print_result rnd) (0 + 1) docs ≫= λ _, ret (apply_return fields d0 :: docs)) w2
                   | Raise e w2 => Raise e w2
                   end).
  { rewrite search_redis_unfold. unfold_M. unfold bind at 1.
    unfold openai_Embedding_create. rewrite Hv. unfold ret at 1.
    unfold bind at 1. rewrite Hs. simpl for_enumerate. unfold_M.
    unfold bind at 1. unfold bind at 1.
    now destruct (print_result rnd 0 (apply_return fields d0) w1). }
  rewrite Hrun. unfold print_result. unfold_M. unfold bind, getattr, py_float.
  destruct (decide ("vector_score"%string ∈ fields)) as [Hin|Hout'].
  - destruct Hnot as [Hnot|Hnot]; [contradiction|].
    destruct (attr (apply_return fields d0) "vector_score") as [vs|] eqn:Hvs.
    + unfold ret at 1. destruct (decimal_value vs) as [q|] eqn:Hq.
      * unfold ret at 1. rewrite attr_apply_return_drop by (assumption || discriminate).
        eexists. split; [reflexivity|]. split; [exact Hout|]. split; [contradiction|reflexivity].
      * eexists. split; [reflexivity|]. split; [exact Hout|]. split; [contradiction|].
        intros _ [q Hq']. simpl in Hq'. rewrite Hq in Hq'. discriminate.
    + eexists. split; [reflexivity|]. split; [exact Hout|]. split; [contradiction|].
      intros _ [q Hq']. discriminate.
  - rewrite attr_apply_return_drop by (assumption || discriminate).
    eexists. split; [reflexivity|]. split; [exact Hout|]. split; [reflexivity|contradiction].
Qed.

(** X10: the results are the [k] nearest of the documents the engine
    matches: a returning call returns min(k, matches) documents, they are
    the projections of the documents kept, and no document left out sorts
    before a document kept. *)
Theorem search_redis_top_k
    user_query index_name vector_field fields hybrid_fields k w docs w' :
  search_redis native rnd embedding_create engine user_query index_name vector_field
    fields hybrid_fields k w = Return docs w' →
  ∃ v schema matched kept rest,
    embedding_create EMBEDDING_MODEL user_query = inr v ∧
    index_lookup index_name (indexes w) = Some schema ∧
    engine (hashes w) schema
      (query_string (knn_query hybrid_fields vector_field fields k)) (Some 2)
      (knn_params native v) = inr matched ∧
    matched ≡ₚ kept ++ rest ∧
    docs = apply_return fields <$> kept ∧
    length docs = (Z.to_nat k `min` length matched)%nat ∧
    ∀ d1 d2, d1 ∈ kept → d2 ∈ rest → doc_le "vector_score" true d1 d2.
Proof.
  intros Hrun.
  apply search_redis_inv in Hrun as (v & w1 & lines & Hv & Hs & _).
  apply ft_search_inv_engine in Hs as (schema & matched & Hix & He & Hdocs & _).
  cbn [knn_query query_return_fields query_offset query_num query_sortby query_dialect
       query_string] in *.
  set (sorted := apply_sortby (Some ("vector_score"%string, true)) matched) in *.
  exists v, schema, matched, (take (Z.to_nat k) sorted), (drop (Z.to_nat k) sorted).
  split; [exact Hv|]. split; [exact Hix|]. split; [exact He|].
  assert (Hperm : sorted ≡ₚ matched) by apply merge_sort_Permutation.
  split; [now rewrite take_drop|]. split; [exact Hdocs|]. split.
  - rewrite Hdocs, length_fmap. unfold apply_limit. simpl drop.
    rewrite length_take. now rewrite Hperm.
  - intros d1 d2 H1 H2. eapply StronglySorted_take_drop; [|exact H1|exact H2].
    apply apply_sortby_sorted.
Qed.






End SearchEdges.

(** ** The keyspace after a run of writes *)

Lemma served_all_app hs cs1 cs2 :
  served_all hs (cs1 ++ cs2) = served_all (served_all hs cs1) cs2.
Proof. apply foldl_app. Qed.

Lemma union_absorb (m m0 old : gmap string (list byte)) :
  dom m0 ⊆ dom m → m ∪ (m0 ∪ old) = m ∪ old.
Proof.
  intros Hdom. apply map_eq. intros col. rewrite !lookup_union.
  destruct (m !! col) as [b|] eqn:Hm; simpl.
  - now rewrite !union_Some_l.
  - assert (H0 : m0 !! col = None).
    { apply not_elem_of_dom. intros Hin. apply Hdom in Hin.
      now apply not_elem_of_dom in Hm. }
    rewrite H0. now rewrite !(left_id None _).
Qed.

Lemma served_lookup_ne hs c key :
  (∀ m, c ≠ HSET key m) → served hs c !! key = hs !! key.
Proof.
  intros Hc. destruct c as [| |k m|]; try reflexivity. simpl. unfold hset_served.
  apply lookup_insert_ne. intros ->. now apply (Hc m).
Qed.

(** The hash at [key] after a run: the last mapping written at [key], on
    top of what the hash held before the run. *)
Lemma served_all_lookup D hs cs key :
  same_fields D cs →
  served_all hs cs !! key =
    match last_write key cs with
    | Some m => Some (m ∪ default ∅ (hs !! key))
    | None => hs !! key
    end.
Proof.
  intros HD. revert hs. induction HD as [|c cs Hc HD IH]; intros hs; [reflexivity|].
  change (served_all hs (c :: cs)) with (served_all (served hs c) cs).
  rewrite IH. simpl last_write.
  destruct (last_write key cs) as [m|] eqn:Hlast.
  - f_equal. destruct c as [| |k m0|]; try reflexivity. simpl. unfold hset_served.
    destruct (decide (k = key)) as [->|Hne].
    + rewrite lookup_insert_eq. simpl. apply union_absorb.
      rewrite (Hc _ _ eq_refl).
      assert (Hm : dom m = D); [|now rewrite Hm].
      clear -HD Hlast. induction HD as [|c cs Hc HD IH]; [discriminate|].
      simpl in Hlast. destruct (last_write key cs) as [m'|].
      * injection Hlast as ->. now apply IH.
      * destruct c as [| |k m0|]; try discriminate.
        destruct (decide (k = key)); [|discriminate].
        injection Hlast as ->. now apply (Hc k).
    + now rewrite lookup_insert_ne.
  - destruct c as [| |k m0|]; try reflexivity. simpl. unfold hset_served.
    destruct (decide (k = key)) as [->|Hne].
    + now rewrite lookup_insert_eq.
    + now rewrite lookup_insert_ne.
Qed.

Lemma last_write_None key cs :
  last_write key cs = None ↔ ∀ m, HSET key m ∉ cs.
Proof.
  induction cs as [|c cs IH]; simpl.
  - split; [intros _ m; apply not_elem_of_nil|reflexivity].
  - destruct (last_write key cs) as [m|].
    + split; [discriminate|]. intros H. exfalso.
      assert (Hn : Some m = None); [|discriminate].
      apply IH. intros m' Hin. apply (H m'). now right.
    + destruct IH as [IH _]. specialize (IH eq_refl).
      destruct c as [| |k m0|];
        try (split; [|reflexivity]; intros _ m Hin;
             apply elem_of_cons in Hin as [?|Hin]; [discriminate|now apply (IH m)]).
      destruct (decide (k = key)) as [->|Hne].
      * split; [discriminate|]. intros H. exfalso. apply (H m0). left.
      * split; [|reflexivity]. intros _ m Hin.
        apply elem_of_cons in Hin as [[= ? ?]|Hin]; [congruence|now apply (IH m)].
Qed.

Lemma last_write_app_last key cs1 m cs2 :
  (∀ m', HSET key m' ∉ cs2) → last_write key (cs1 ++ HSET key m :: cs2) = Some m.
Proof.
  intros Hcs2. apply last_write_None in Hcs2.
  induction cs1 as [|c cs1 IH]; simpl.
  - rewrite Hcs2. now rewrite decide_True.
  - now rewrite IH.
Qed.

Lemma last_write_Some key cs m :
  last_write key cs = Some m → HSET key m ∈ cs.
Proof.
  induction cs as [|c cs IH]; simpl; [discriminate|].
  destruct (last_write key cs) as [m'|].
  - intros [= ->]. right. now apply IH.
  - destruct c as [| |k m0|]; try discriminate.
    destruct (decide (k = key)) as [->|]; [|discriminate]. intros [= ->]. left.
Qed.

(** A run of writes never removes a hash, nor a field of a hash. *)
Lemma served_all_grows hs cs key old :
  hs !! key = Some old →
  ∃ new, served_all hs cs !! key = Some new ∧ dom old ⊆ dom new.
Proof.
  revert hs old. induction cs as [|c cs IH]; intros hs old Hold.
  - exists old. split; [exact Hold|reflexivity].
  - change (served_all hs (c :: cs)) with (served_all (served hs c) cs).
    assert (H1 : ∃ mid, served hs c !! key = Some mid ∧ dom old ⊆ dom mid).
    { destruct c as [| |k m|]; try (exists old; split; [exact Hold|reflexivity]).
      simpl. unfold hset_served. destruct (decide (k = key)) as [->|Hne].
      - rewrite lookup_insert_eq, Hold. simpl. eexists. split; [reflexivity|].
        rewrite dom_union. set_solver.
      - rewrite lookup_insert_ne by assumption. exists old. split; [exact Hold|reflexivity]. }
    destruct H1 as (mid & Hmid & Hsub).
    destruct (IH _ _ Hmid) as (new & Hnew & Hsub').
    exists new. split; [exact Hnew|]. etrans; eassumption.
Qed.

Lemma served_all_other hs cs key :
  (∀ m, HSET key m ∉ cs) → served_all hs cs !! key = hs !! key.
Proof.
  revert hs. induction cs as [|c cs IH]; intros hs Hnot; [reflexivity|].
  change (served_all hs (c :: cs)) with (served_all (served hs c) cs).
  rewrite IH.
  - apply served_lookup_ne. intros m ->. apply (Hnot m). left.
  - intros m Hin. apply (Hnot m). now right.
Qed.

Lemma served_all_dom hs cs :
  (∀ c, c ∈ cs → ∃ k m, c = HSET k m) →
  ∀ key, is_Some (served_all hs cs !! key) ↔
         is_Some (hs !! key) ∨ ∃ m, HSET key m ∈ cs.
Proof.
  revert hs. induction cs as [|c cs IH]; intros hs Hall key.
  - simpl. split; [auto|]. intros [H|[m H]]; [exact H|]. now apply elem_of_nil in H.
  - change (served_all hs (c :: cs)) with (served_all (served hs c) cs).
    rewrite IH by (intros c' Hc'; apply Hall; now right).
    destruct (Hall c) as (k & m & ->); [left|]. simpl. unfold hset_served.
    destruct (decide (k = key)) as [->|Hne].
    + rewrite lookup_insert_eq. split; [|eauto]. intros _. right. exists m. left.
    + rewrite lookup_insert_ne by assumption. split.
      * intros [H|[m' H]]; [now left|]. right. exists m'. now right.
      * intros [H|[m' H]]; [now left|].
        apply elem_of_cons in H as [[= ? ?]|H]; [congruence|]. right. eauto.
Qed.

(** ** Ingestion under a fault schedule *)

Lemma send_served {A} c (serve : M A) w :
  (∀ e, head (faults w) ≠ Some (Some e)) →
  send c serve w = serve (set_faults (tail (faults w)) (set_trace (trace w ++ [c]) w)).
Proof.
  intros Hf. destruct w as [h hs ixs fs tr out]. unfold send. cbn in *.
  destruct fs as [|[e|] fs]; try reflexivity. exfalso. now apply (Hf e).
Qed.

Lemma send_fault {A} c (serve : M A) w e fs :
  faults w = Some e :: fs →
  send c serve w = Raise e (set_faults fs (set_trace (trace w ++ [c]) w)).
Proof. intros Hf. unfold send. cbn [faults set_trace]. now rewrite Hf. Qed.

Lemma hset_send name d m items w :
  heap w !! d = Some (ODict m) → size m ≠ 0%nat → encode_mapping m = Some items →
  hset name d w =
    send (HSET name items)
      (λ w0, Return (Z.of_nat (size (items ∖ default ∅ (hashes w0 !! name))))
               (set_hashes (served (hashes w0) (HSET name items)) w0)) w.
Proof.
  intros Hd Hsz Henc. unfold hset. unfold_M. unfold bind, deref. rewrite Hd.
  destruct (Nat.eqb_spec (size m) 0) as [|_]; [contradiction|].
  now rewrite Henc.
Qed.

Section IngestionFaults.
Variable native : NumPy.byteorder.
Variable prefix : string.

Lemma final_dict_size tv cv r : size (final_dict native tv cv r) ≠ 0%nat.
Proof.
  intros Hsz. apply map_size_empty_iff in Hsz.
  assert (H : final_dict native tv cv r !! "content_vector" = None)
    by (rewrite Hsz; apply lookup_empty).
  unfold final_dict in H. rewrite lookup_insert_eq in H. discriminate.
Qed.

(** Up to the write, the body of the loop only replaces the two vector
    cells of the row's dict. *)
Lemma index_documents_body_send d r tv cv w :
  heap w !! d = Some (ODict (dict_of_row r)) →
  vector_of (heap w) (row_title_vector r) = Some tv →
  vector_of (heap w) (row_content_vector r) = Some cv →
  index_documents_body native prefix d w =
    (send (row_command native prefix (heap w) r)
       (λ w0, Return (Z.of_nat (size (omap encode_value (final_dict native tv cv r)
                                      ∖ default ∅ (hashes w0 !! row_key prefix r))))
                (set_hashes (served (hashes w0) (row_command native prefix (heap w) r)) w0))
     ≫= λ _, ret tt)
      (set_heap (<[d := ODict (final_dict native tv cv r)]> (heap w)) w).
Proof.
  intros Hd Htv Hcv. unfold index_documents_body.
  erewrite bind_Return; [|eapply getitem_dict; [exact Hd|reflexivity]].
  erewrite bind_Return; [|reflexivity].
  erewrite bind_Return; [|eapply getitem_dict; [exact Hd|reflexivity]].
  erewrite bind_Return; [|apply np_array_float32_list; exact Htv].
  erewrite bind_Return; [|eapply getitem_dict; [exact Hd|reflexivity]].
  erewrite bind_Return; [|apply np_array_float32_list; exact Hcv].
  erewrite bind_Return; [|apply setitem_dict; exact Hd].
  erewrite bind_Return; [|apply setitem_dict; cbn [heap set_heap]; apply lookup_insert_eq].
  cbn [heap set_heap]. rewrite insert_insert_eq.
  fold (final_dict native tv cv r).
  unfold row_command. rewrite Htv, Hcv. simpl default.
  rewrite set_heap_set_heap. unfold_M. unfold bind.
  erewrite hset_send; [reflexivity| |apply final_dict_size|apply encode_final_dict].
  cbn [heap set_heap]. apply lookup_insert_eq.
Qed.

Lemma index_documents_body_served d r tv cv w :
  heap w !! d = Some (ODict (dict_of_row r)) →
  vector_of (heap w) (row_title_vector r) = Some tv →
  vector_of (heap w) (row_content_vector r) = Some cv →
  (∀ e, head (faults w) ≠ Some (Some e)) →
  ∃ w', index_documents_body native prefix d w = Return tt w' ∧
        trace w' = trace w ++ [row_command native prefix (heap w) r] ∧
        heap w' = <[d := ODict (final_dict native tv cv r)]> (heap w) ∧
        hashes w' = served (hashes w) (row_command native prefix (heap w) r) ∧
        faults w' = tail (faults w) ∧ stdout w' = stdout w ∧ indexes w' = indexes w.
Proof.
  intros Hd Htv Hcv Hf.
  rewrite (index_documents_body_send d r tv cv w Hd Htv Hcv).
  unfold_M. unfold bind. rewrite send_served by exact Hf.
  unfold ret. eexists. split; [reflexivity|]. cbn. auto 10.
Qed.

Lemma index_documents_body_fault d r tv cv w e fs :
  heap w !! d = Some (ODict (dict_of_row r)) →
  vector_of (heap w) (row_title_vector r) = Some tv →
  vector_of (heap w) (row_content_vector r) = Some cv →
  faults w = Some e :: fs →
  ∃ w', index_documents_body native prefix d w = Raise e w' ∧
        trace w' = trace w ++ [row_command native prefix (heap w) r] ∧
        hashes w' = hashes w ∧
        faults w' = fs ∧ stdout w' = stdout w ∧ indexes w' = indexes w.
Proof.
  intros Hd Htv Hcv Hf.
  rewrite (index_documents_body_send d r tv cv w Hd Htv Hcv).
  unfold_M. unfold bind. erewrite send_fault by exact Hf.
  eexists. split; [reflexivity|]. cbn. auto 10.
Qed.

Lemma no_fault_within_head n fs :
  no_fault_within (S n) fs → ∀ e, head fs ≠ Some (Some e).
Proof.
  intros H e He. apply (H 0%nat e); [lia|]. now destruct fs.
Qed.

Lemma no_fault_within_tail n fs :
  no_fault_within (S n) fs → no_fault_within n (tail fs).
Proof.
  intros H i e Hi. rewrite lookup_tail. apply H. lia.
Qed.

Lemma Forall2_dicts_insert (h : gmap loc pyobj) d o ds (rows : list article) :
  d ∉ ds →
  Forall2 (λ d' r, h !! d' = Some (ODict (dict_of_row r))) ds rows →
  Forall2 (λ d' r, <[d := o]> h !! d' = Some (ODict (dict_of_row r))) ds rows.
Proof.
  intros Hnotin Hat.
  induction Hat as [|d' r' ds rows Hd' Hat IH]; constructor.
  - rewrite lookup_insert_ne; [exact Hd'|]. intros ->. apply Hnotin. left.
  - apply IH. intros Hin. apply Hnotin. now right.
Qed.

Lemma for_each_served h0 ds rows w :
  NoDup ds →
  Forall2 (λ d r, heap w !! d = Some (ODict (dict_of_row r))) ds rows →
  Forall (row_ok h0) rows →
  (∀ l xs, vector_of h0 l = Some xs → vector_of (heap w) l = Some xs) →
  no_fault_within (length rows) (faults w) →
  ∃ w', for_each (index_documents_body native prefix) ds w = Return tt w' ∧
        trace w' = trace w ++ (row_command native prefix h0 <$> rows) ∧
        hashes w' = served_all (hashes w) (row_command native prefix h0 <$> rows) ∧
        faults w' = drop (length rows) (faults w) ∧
        stdout w' = stdout w ∧ indexes w' = indexes w.
Proof.
  revert rows w. induction ds as [|d ds IH]; intros rows w Hnd Hat Hok Hagree Hf.
  - apply Forall2_nil_inv_l in Hat as ->.
    exists w. simpl. rewrite app_nil_r. auto 10.
  - apply Forall2_cons_inv_l in Hat as (r & rows' & Hd & Hat & ->).
    rename rows' into rows.
    apply NoDup_cons in Hnd as [Hnotin Hnd].
    apply Forall_cons in Hok as [Hr Hok].
    pose proof Hr as [[tv Htv] [cv Hcv]].
    simpl length in Hf.
    destruct (index_documents_body_served d r tv cv w Hd (Hagree _ _ Htv) (Hagree _ _ Hcv)
                (no_fault_within_head _ _ Hf))
      as (w1 & Hrun & Htr & Hheap & Hhs & Hf1 & Hout & Hix).
    destruct (IH rows w1) as (w' & Hrun' & Htr' & Hhs' & Hf' & Hout' & Hix'); auto.
    + rewrite Hheap. now apply Forall2_dicts_insert.
    + intros l xs Hl. rewrite Hheap.
      eapply vector_of_insert_dict; [exact Hd|]. now apply Hagree.
    + rewrite Hf1. now apply no_fault_within_tail.
    + exists w'. simpl for_each. rewrite (bind_Return _ _ _ _ _ Hrun).
      split; [exact Hrun'|].
      rewrite Htr', Hhs', Hf', Htr, Hhs, Hf1, (row_command_agree native prefix (heap w) h0 r Hr Hagree).
      rewrite fmap_cons, <- app_assoc. simpl.
      repeat split; try congruence.
      destruct (faults w); simpl; rewrite ?drop_nil; reflexivity.
Qed.

Lemma for_each_fault h0 ds rows w n e :
  NoDup ds →
  Forall2 (λ d r, heap w !! d = Some (ODict (dict_of_row r))) ds rows →
  Forall (row_ok h0) (take (S n) rows) →
  (∀ l xs, vector_of h0 l = Some xs → vector_of (heap w) l = Some xs) →
  no_fault_within n (faults w) →
  faults w !! n = Some (Some e) →
  (n < length rows)%nat →
  ∃ w', for_each (index_documents_body native prefix) ds w = Raise e w' ∧
        trace w' = trace w ++ (row_command native prefix h0 <$> take (S n) rows) ∧
        hashes w' = served_all (hashes w) (row_command native prefix h0 <$> take n rows) ∧
        faults w' = drop (S n) (faults w) ∧
        stdout w' = stdout w ∧ indexes w' = indexes w.
Proof.
  revert rows w n. induction ds as [|d ds IH]; intros rows w n Hnd Hat Hok Hagree Hf He Hn.
  - apply Forall2_nil_inv_l in Hat as ->. simpl in Hn. lia.
  - apply Forall2_cons_inv_l in Hat as (r & rows' & Hd & Hat & ->).
    rename rows' into rows.
    apply NoDup_cons in Hnd as [Hnotin Hnd].
    rewrite firstn_cons in Hok.
    apply Forall_cons in Hok as [Hr Hok].
    pose proof Hr as [[tv Htv] [cv Hcv]].
    destruct n as [|n].
    + destruct (faults w) as [|f fs] eqn:Hfs; [discriminate|].
      simpl in He. injection He as ->.
      destruct (index_documents_body_fault d r tv cv w e fs Hd (Hagree _ _ Htv) (Hagree _ _ Hcv) Hfs)
        as (w' & Hrun & Htr & Hhs & Hf' & Hout & Hix).
      exists w'. simpl for_each. rewrite (bind_Raise _ _ _ _ _ Hrun).
      split; [reflexivity|].
      rewrite Htr, (row_command_agree native prefix (heap w) h0 r Hr Hagree).
      simpl. rewrite ?take_0. simpl. auto 10.
    + destruct (index_documents_body_served d r tv cv w Hd (Hagree _ _ Htv) (Hagree _ _ Hcv)
                  (no_fault_within_head _ _ Hf))
        as (w1 & Hrun & Htr & Hheap & Hhs & Hf1 & Hout & Hix).
      destruct (IH rows w1 n) as (w' & Hrun' & Htr' & Hhs' & Hf' & Hout' & Hix'); auto.
      * rewrite Hheap. now apply Forall2_dicts_insert.
      * intros l xs Hl. rewrite Hheap.
        eapply vector_of_insert_dict; [exact Hd|]. now apply Hagree.
      * rewrite Hf1. now apply no_fault_within_tail.
      * rewrite Hf1, lookup_tail. exact He.
      * simpl in Hn. lia.
      * exists w'. simpl for_each. rewrite (bind_Return _ _ _ _ _ Hrun).
        split; [exact Hrun'|].
        rewrite Htr', Hhs', Hf', Htr, Hhs, Hf1,
          (row_command_agree native prefix (heap w) h0 r Hr Hagree).
        rewrite !firstn_cons, !fmap_cons, <- app_assoc. simpl.
        repeat split; try congruence.
        destruct (faults w); simpl; rewrite ?drop_nil; reflexivity.
Qed.

Lemma to_dict_records_run documents rows w :
  heap w !! documents = Some (OFrame rows) →
  ∃ ds h',
    to_dict_records documents w = Return ds (set_heap h' w) ∧
    heap w ⊆ h' ∧ NoDup ds ∧
    Forall2 (λ d r, h' !! d = Some (ODict (dict_of_row r))) ds rows.
Proof.
  intros Hdoc. unfold to_dict_records. unfold_M. unfold bind, deref. rewrite Hdoc.
  destruct (alloc_records_spec rows w) as (ds & h' & -> & Hsub & Hnd & _ & Hat).
  eauto 10.
Qed.

Lemma vector_of_weaken (h h' : gmap loc pyobj) l xs :
  h ⊆ h' → vector_of h l = Some xs → vector_of h' l = Some xs.
Proof.
  intros Hsub. unfold vector_of.
  destruct (h !! l) as [o|] eqn:Hl; [|discriminate].
  now rewrite (lookup_weaken _ _ _ _ Hl Hsub).
Qed.

(** A run in which no write fails: every row is written, in row order. *)
Lemma index_documents_served documents rows w :
  heap w !! documents = Some (OFrame rows) →
  Forall (row_ok (heap w)) rows →
  no_fault_within (length rows) (faults w) →
  ∃ w', index_documents native prefix documents w = Return tt w' ∧
        commands_since w w' = row_command native prefix (heap w) <$> rows ∧
        hashes w' = served_all (hashes w) (row_command native prefix (heap w) <$> rows) ∧
        faults w' = drop (length rows) (faults w) ∧
        stdout w' = stdout w ∧ indexes w' = indexes w.
Proof.
  intros Hdoc Hok Hf. unfold index_documents.
  destruct (to_dict_records_run documents rows w Hdoc) as (ds & h' & Hrec & Hsub & Hnd & Hat).
  rewrite (bind_Return _ _ _ _ _ Hrec).
  destruct (for_each_served (heap w) ds rows (set_heap h' w))
    as (w' & Hrun & Htr & Hhs & Hf' & Hout & Hix); auto.
  - intros l xs. now apply vector_of_weaken.
  - exists w'. split; [exact Hrun|]. split; [now apply commands_since_app|]. auto.
Qed.

(** A run in which the write of row [n] is the first to fail. *)
Lemma index_documents_fault documents rows w n e :
  heap w !! documents = Some (OFrame rows) →
  Forall (row_ok (heap w)) (take (S n) rows) →
  no_fault_within n (faults w) →
  faults w !! n = Some (Some e) →
  (n < length rows)%nat →
  ∃ w', index_documents native prefix documents w = Raise e w' ∧
        commands_since w w' = row_command native prefix (heap w) <$> take (S n) rows ∧
        hashes w' = served_all (hashes w) (row_command native prefix (heap w) <$> take n rows) ∧
        faults w' = drop (S n) (faults w) ∧
        stdout w' = stdout w ∧ indexes w' = indexes w.
Proof.
  intros Hdoc Hok Hf He Hn. unfold index_documents.
  destruct (to_dict_records_run documents rows w Hdoc) as (ds & h' & Hrec & Hsub & Hnd & Hat).
  rewrite (bind_Return _ _ _ _ _ Hrec).
  destruct (for_each_fault (heap w) ds rows (set_heap h' w) n e)
    as (w' & Hrun & Htr & Hhs & Hf' & Hout & Hix); auto.
  - intros l xs. now apply vector_of_weaken.
  - exists w'. split; [exact Hrun|]. split; [now apply commands_since_app|]. auto.
Qed.

End IngestionFaults.

(** ** Ingestion: what the store holds afterwards *)

Global Instance writes_under_preorder prefix : PreOrder (writes_under prefix).
Proof.
  split.
  - intros w. exists []. split; [constructor|reflexivity].
  - intros w1 w2 w3 (cs1 & H1 & E1) (cs2 & H2 & E2). exists (cs1 ++ cs2).
    split; [now apply Forall_app|]. now rewrite served_all_app, <- E1.
Qed.

Lemma respects_hset R `{!PreOrder R} name d :
  blind_to_trace R → blind_to_faults R →
  (∀ items w, R w (set_hashes (hset_served name items (hashes w)) w)) →
  respects R (hset name d).
Proof.
  intros Ht Hf Hs. unfold hset.
  apply respects_bind; [apply _|apply respects_deref, _|].
  intros [xs|m|rows]; try (apply respects_raise, _).
  destruct (size m =? 0)%nat; [apply respects_raise, _|].
  destruct (encode_mapping m) as [items|]; [|apply respects_raise, _].
  apply respects_send; [apply _|assumption..|]. intros w. apply Hs.
Qed.

Lemma respects_index_documents R `{!PreOrder R} native prefix documents :
  blind_to_heap R → blind_to_trace R → blind_to_faults R →
  (∀ s items w, R w (set_hashes (hset_served (prefix +:+ ":" +:+ s) items (hashes w)) w)) →
  respects R (index_documents native prefix documents).
Proof.
  intros Hh Ht Hf Hs. unfold index_documents.
  apply respects_bind; [apply _|now apply respects_to_dict_records|]. intros ds.
  apply respects_for_each; [apply _|]. intros d. unfold index_documents_body.
  repeat first
    [ apply respects_ret, _
    | apply respects_getitem, _ | apply respects_py_str, _
    | apply respects_np_array_float32, _
    | apply respects_setitem; [apply _|assumption]
    | apply respects_hset; [apply _|assumption..|intros; apply Hs]
    | apply respects_bind; [apply _| |intros ?] ].
Qed.

Lemma row_command_HSET native prefix h r :
  ∃ m, row_command native prefix h r = HSET (row_key prefix r) m ∧
       dom m = list_to_set columns.
Proof.
  eexists. split; [reflexivity|].
  apply set_eq. intros col.
  rewrite elem_of_dom, lookup_omap, elem_of_list_to_set.
  unfold final_dict, dict_of_row, columns.
  repeat match goal with
         | |- context [<[?k := _]> _ !! col] =>
             destruct (decide (k = col)) as [<-|?];
             [ first [ match goal with H : ?x ≠ ?x |- _ => now destruct H end
                     | rewrite lookup_insert_eq; simpl;
                       split; [intros _; set_solver | intros _; eauto] ]
             | rewrite lookup_insert_ne by assumption ]
         end.
  rewrite lookup_empty. simpl. split; [intros [? [=]]|].
  intros Hin. repeat (apply elem_of_cons in Hin as [->|Hin]; [congruence|]).
  now apply elem_of_nil in Hin.
Qed.

Lemma row_commands_same_fields native prefix h (rows : list article) :
  same_fields (list_to_set columns) (row_command native prefix h <$> rows).
Proof.
  apply Forall_fmap, Forall_forall. intros r _ k m Hc. simpl in Hc.
  destruct (row_command_HSET native prefix h r) as (m' & Hm' & Hdom).
  rewrite Hm' in Hc. now injection Hc as _ <-.
Qed.

Lemma row_key_inj prefix r1 r2 :
  row_key prefix r1 = row_key prefix r2 → row_id r1 = row_id r2.
Proof.
  unfold row_key. intros Heq.
  apply string_app_cancel_l, string_app_cancel_l in Heq.
  now apply (inj pretty) in Heq.
Qed.

Lemma elem_of_row_commands native prefix h (rows : list article) key m :
  HSET key m ∈ row_command native prefix h <$> rows →
  ∃ r, r ∈ rows ∧ key = row_key prefix r.
Proof.
  intros Hin. apply list_elem_of_fmap in Hin as (r & Hc & Hr).
  exists r. split; [exact Hr|].
  destruct (row_command_HSET native prefix h r) as (m' & Hm' & _).
  rewrite Hm' in Hc. now injection Hc as -> _.
Qed.

Lemma no_fault_within_nil n : no_fault_within n [].
Proof. intros i e _. discriminate. Qed.

Lemma no_fault_within_replicate n fs : no_fault_within n (replicate n None ++ fs).
Proof.
  intros i e Hi. rewrite lookup_app_l by (rewrite length_replicate; lia).
  rewrite lookup_replicate_2 by exact Hi. discriminate.
Qed.

(** X13: on an empty frame [index_documents] returns at once: no command is
    sent, so not even a store that is out of reach makes the call fail,
    and the world is left as it is. *)
Theorem index_documents_empty_frame native prefix documents w :
  heap w !! documents = Some (OFrame []) →
  index_documents native prefix documents w = Return tt w.
Proof.
  intros Hdoc. unfold index_documents, to_dict_records. unfold_M. unfold bind, deref.
  rewrite Hdoc. reflexivity.
Qed.

(** X14: what [index_documents] never does, in any run, returning or
    raising, whatever its arguments and whatever commands fail: it prints
    nothing, leaves the indexes alone, leaves every key that does not start
    with the prefix and a colon as it is, and removes no hash and no field
    of a hash. *)
Theorem index_documents_frame native prefix documents w :
  let w' := world_of (index_documents native prefix documents w) in
  stdout w' = stdout w ∧
  indexes w' = indexes w ∧
  (∀ key, (∀ s, key ≠ prefix +:+ ":" +:+ s) → hashes w' !! key = hashes w !! key) ∧
  (∀ key old, hashes w !! key = Some old →
     ∃ new, hashes w' !! key = Some new ∧ dom old ⊆ dom new).
Proof.
  intros w'.
  assert (Hw : writes_under prefix w w').
  { apply respects_index_documents; try apply _.
    - intros h w0. exists []. split; [constructor|reflexivity].
    - intros t w0. exists []. split; [constructor|reflexivity].
    - intros fs w0. exists []. split; [constructor|reflexivity].
    - intros s items w0. exists [HSET (prefix +:+ ":" +:+ s) items].
      split; [|reflexivity]. constructor; [eauto|constructor]. }
  destruct Hw as (cs & Hcs & Hhs).
  split; [|split; [|split]].
  - now apply (respects_index_documents (same stdout)).
  - now apply (respects_index_documents (same indexes)).
  - intros key Hkey. rewrite Hhs. apply served_all_other. intros m Hin.
    rewrite Forall_forall in Hcs. destruct (Hcs _ Hin) as (s & m' & [= -> _]).
    now apply (Hkey s).
  - intros key old Hold. rewrite Hhs. now apply served_all_grows.
Qed.

(** X15: after a run in which no write fails, the hash at the key of a row
    holds the fields written for the last row of that id, on top of the
    fields the hash had before: for a row with no later row of the same
    id, the hash is the row's mapping joined with the old hash, the row's
    fields first. *)
Theorem index_documents_stores_last_row native prefix documents rows w :
  heap w !! documents = Some (OFrame rows) →
  Forall (row_ok (heap w)) rows →
  faults w = [] →
  ∃ w', index_documents native prefix documents w = Return tt w' ∧
    ∀ i r, rows !! i = Some r →
      (∀ j r', rows !! j = Some r' → (i < j)%nat → row_id r' ≠ row_id r) →
      ∃ m, commands_since w w' !! i = Some (HSET (row_key prefix r) m) ∧
           hashes w' !! row_key prefix r
           = Some (m ∪ default ∅ (hashes w !! row_key prefix r)).
Proof.
  intros Hdoc Hok Hf.
  destruct (index_documents_served native prefix documents rows w Hdoc Hok)
    as (w' & Hrun & Hcmds & Hhs & _); [rewrite Hf; apply no_fault_within_nil|].
  exists w'. split; [exact Hrun|]. intros i r Hi Hlast.
  destruct (row_command_HSET native prefix (heap w) r) as (m & Hm & _).
  exists m. split.
  { rewrite Hcmds, list_lookup_fmap, Hi. simpl. now rewrite Hm. }
  rewrite Hhs, (served_all_lookup (list_to_set columns)) by apply row_commands_same_fields.
  rewrite <- (take_drop_middle rows i r Hi), fmap_app, fmap_cons, Hm.
  rewrite last_write_app_last; [reflexivity|].
  intros m' Hin. apply elem_of_row_commands in Hin as (r' & Hr' & Hkey).
  apply list_elem_of_lookup in Hr' as [j Hj]. rewrite lookup_drop in Hj.
  apply (Hlast _ _ Hj); [lia|]. symmetry. now apply (row_key_inj prefix).
Qed.

(** X16: after a run in which no write fails, the keys of the store are the
    keys it had and the keys of the rows: one key per id of the frame, so
    rows that share an id share a hash. *)
Theorem index_documents_keys native prefix documents rows w :
  heap w !! documents = Some (OFrame rows) →
  Forall (row_ok (heap w)) rows →
  faults w = [] →
  ∃ w', index_documents native prefix documents w = Return tt w' ∧
        dom (hashes w') = dom (hashes w) ∪ list_to_set (row_key prefix <$> rows).
Proof.
  intros Hdoc Hok Hf.
  destruct (index_documents_served native prefix documents rows w Hdoc Hok)
    as (w' & Hrun & Hcmds & Hhs & _); [rewrite Hf; apply no_fault_within_nil|].
  exists w'. split; [exact Hrun|].
  apply set_eq. intros key.
  rewrite elem_of_union, !elem_of_dom, elem_of_list_to_set, Hhs, served_all_dom.
  - split; (intros [H|H]; [now left|right]).
    + destruct H as [m Hin]. apply elem_of_row_commands in Hin as (r & Hr & ->).
      apply list_elem_of_fmap. eauto.
    + apply list_elem_of_fmap in H as (r & -> & Hr).
      destruct (row_command_HSET native prefix (heap w) r) as (m & Hm & _).
      exists m. rewrite <- Hm. apply list_elem_of_fmap. eauto.
  - intros c Hc. apply list_elem_of_fmap in Hc as (r & -> & _).
    destruct (row_command_HSET native prefix (heap w) r) as (m & Hm & _). eauto.
Qed.

(** X17: ingesting the same frame a second time sends the same writes again
    and leaves the store as the first run left it. *)
Theorem index_documents_twice native prefix documents rows w :
  heap w !! documents = Some (OFrame rows) →
  Forall (row_ok (heap w)) rows →
  faults w = [] →
  ∃ w1 w2,
    index_documents native prefix documents w = Return tt w1 ∧
    index_documents native prefix documents w1 = Return tt w2 ∧
    commands_since w1 w2 = commands_since w w1 ∧
    hashes w2 = hashes w1.
Proof.
  intros Hdoc Hok Hf.
  destruct (index_documents_served native prefix documents rows w Hdoc Hok)
    as (w1 & Hrun1 & Hcmds1 & Hhs1 & Hf1 & _); [rewrite Hf; apply no_fault_within_nil|].
  assert (Hsub : heap w ⊆ heap w1).
  { pose proof (index_documents_heap native prefix documents w) as H.
    now rewrite Hrun1 in H. }
  assert (Hok1 : Forall (row_ok (heap w1)) rows).
  { eapply Forall_impl; [exact Hok|]. intros r [[tv Htv] [cv Hcv]].
    split; eexists; eapply vector_of_weaken; eassumption. }
  destruct (index_documents_served native prefix documents rows w1)
    as (w2 & Hrun2 & Hcmds2 & Hhs2 & _); auto.
  { eapply lookup_weaken; eassumption. }
  { rewrite Hf1, Hf, drop_nil. apply no_fault_within_nil. }
  assert (Hsame : row_command native prefix (heap w1) <$> rows
                  = row_command native prefix (heap w) <$> rows).
  { apply Forall_fmap_ext. rewrite Forall_forall in Hok |- *. intros r Hr.
    apply row_command_agree; [now apply Hok|].
    intros l xs. now apply vector_of_weaken. }
  exists w1, w2. split; [exact Hrun1|]. split; [exact Hrun2|].
  split; [now rewrite Hcmds1, Hcmds2|].
  rewrite Hhs2, Hsame. apply map_eq. intros key.
  rewrite (served_all_lookup (list_to_set columns)) by apply row_commands_same_fields.
  destruct (last_write key _) as [m|] eqn:Hlast; [|reflexivity].
  rewrite Hhs1, (served_all_lookup (list_to_set columns)) by apply row_commands_same_fields.
  rewrite Hlast. simpl. f_equal. now apply union_absorb.
Qed.

(** X18: a write that fails ends the run where it stands, with no roll-back:
    when the store serves the first [n] writes and fails the next one with
    [e], [index_documents] raises [e]; the writes of the first [n + 1] rows
    have been sent and no other, the first [n] rows are in the store, and
    every key that is not theirs is as it was. *)
Theorem index_documents_partial_failure native prefix documents rows w n e fs :
  heap w !! documents = Some (OFrame rows) →
  Forall (row_ok (heap w)) (take (S n) rows) →
  faults w = replicate n None ++ Some e :: fs →
  (n < length rows)%nat →
  ∃ w', index_documents native prefix documents w = Raise e w' ∧
    commands_since w w' = row_command native prefix (heap w) <$> take (S n) rows ∧
    hashes w' = served_all (hashes w) (row_command native prefix (heap w) <$> take n rows) ∧
    faults w' = fs ∧
    (∀ i r, rows !! i = Some r → (i < n)%nat → is_Some (hashes w' !! row_key prefix r)) ∧
    (∀ key, (∀ r, r ∈ take n rows → key ≠ row_key prefix r) →
            hashes w' !! key = hashes w !! key).
Proof.
  intros Hdoc Hok Hf Hn.
  destruct (index_documents_fault native prefix documents rows w n e Hdoc Hok)
    as (w' & Hrun & Hcmds & Hhs & Hf' & _).
  { rewrite Hf. apply no_fault_within_replicate. }
  { rewrite Hf, lookup_app_r by (rewrite length_replicate; lia).
    rewrite length_replicate, Nat.sub_diag. reflexivity. }
  { exact Hn. }
  exists w'. split; [exact Hrun|]. split; [exact Hcmds|]. split; [exact Hhs|].
  split; [|split].
  - rewrite Hf', Hf. change (Some e :: fs) with ([Some e] ++ fs).
    rewrite app_assoc. apply drop_app_length'.
    rewrite length_app, length_replicate. simpl. lia.
  - intros i r Hi Hlt. rewrite Hhs. apply served_all_dom.
    + intros c Hc. apply list_elem_of_fmap in Hc as (r' & -> & _).
      destruct (row_command_HSET native prefix (heap w) r') as (m & Hm & _). eauto.
    + right. destruct (row_command_HSET native prefix (heap w) r) as (m & Hm & _).
      exists m. rewrite <- Hm. apply list_elem_of_fmap. exists r. split; [reflexivity|].
      apply list_elem_of_lookup. exists i. now rewrite lookup_take_lt.
  - intros key Hkey. rewrite Hhs. apply served_all_other.
    intros m Hin. apply elem_of_row_commands in Hin as (r & Hr & ->).
    now apply (Hkey r).
Qed.


Global Instance row_key_inj_id prefix :
  Inj eq eq (λ n : Z, prefix +:+ ":" +:+ pretty n).
Proof.
  intros n1 n2 Heq. apply string_app_cancel_l, string_app_cancel_l in Heq.
  now apply (inj pretty) in Heq.
Qed.


(** ** The constants cell, the schema and the writes *)

(** X20: on a frame without rows the constants cell fails: the first title
    vector is looked up under the label 0, which an empty frame does not
    have, so the cell raises [KeyError] and the notebook stops before any
    command is sent. *)
Theorem constants_cell_empty_frame article_df w :
  heap w !! article_df = Some (OFrame []) →
  constants_cell article_df w = Raise (KeyError "0") w.
Proof.
  intros Hdoc. unfold constants_cell, frame_column_first. unfold_M. unfold bind, deref.
  rewrite Hdoc. reflexivity.
Qed.



(** ** Ingestion and search together *)

Lemma tobytes_inj order a b :
  Forall (λ x, NumPy.valid_float32 x = true) a →
  Forall (λ x, NumPy.valid_float32 x = true) b →
  NumPy.tobytes order a = NumPy.tobytes order b → a = b.
Proof.
  intros Ha Hb Heq.
  pose proof (NumPyFacts.frombuffer_tobytes order a Ha) as H1.
  pose proof (NumPyFacts.frombuffer_tobytes order b Hb) as H2.
  rewrite Heq in H1. congruence.
Qed.

Section Pipeline.
Variable native : NumPy.byteorder.
Variable rnd : Q → Q.
Variable embedding_create : string → string → exn + list spec_float.
Variable engine :
  gmap string (gmap string (list byte)) → list field * IndexDefinition →
  string → option Z → list (string * list byte) → exn + list Document.

Lemma search_redis_trace user_query index_name vector_field fields hybrid_fields k w v :
  embedding_create EMBEDDING_MODEL user_query = inr v →
  commands_since w
    (world_of (search_redis native rnd embedding_create engine user_query index_name
                 vector_field fields hybrid_fields k w))
  = [FT_SEARCH index_name (knn_query hybrid_fields vector_field fields k)
       (knn_params native v)].
Proof.
  intros Hv. apply commands_since_app.
  rewrite search_redis_unfold. unfold_M. unfold bind at 1.
  unfold openai_Embedding_create. rewrite Hv. unfold ret.
  unfold bind at 1.
  pose proof (ft_search_trace engine index_name (knn_query hybrid_fields vector_field fields k)
                (knn_params native v) w) as Ht.
  destruct (ft_search _ _ _ _ w) as [docs w1|e w1]; simpl in Ht; [|exact Ht].
  unfold bind.
  pose proof (for_enumerate_trace rnd 0 docs w1) as Hl.
  destruct (for_enumerate (print_result rnd) 0 docs w1) as [[] w2|e w2];
    unfold ret; simpl in *; rewrite Hl, Ht; reflexivity.
Qed.

(** X22: ingestion and search serialize a vector in the same way.  The
    [$vector] parameter of the query a search sends is the very blob stored
    for a vector cell exactly when the query embedding and the stored
    vector have the same float32 conversion; two vectors that differ only
    beyond float32 precision are the same bytes. *)
Theorem search_redis_blob_agrees_with_stored
    prefix documents rows w user_query index_name vector_field fields hybrid_fields k v w2 :
  heap w !! documents = Some (OFrame rows) →
  Forall (row_ok (heap w)) rows →
  faults w = [] →
  embedding_create EMBEDDING_MODEL user_query = inr v →
  ∃ w1 blob,
    index_documents native prefix documents w = Return tt w1 ∧
    commands_since w2
      (world_of (search_redis native rnd embedding_create engine user_query index_name
                   vector_field fields hybrid_fields k w2))
    = [FT_SEARCH index_name (knn_query hybrid_fields vector_field fields k)
         [("vector"%string, blob)]] ∧
    ∀ i r col l xs, rows !! i = Some r → (col, l) ∈ vector_cells r →
      vector_of (heap w) l = Some xs →
      ∃ key m stored, commands_since w w1 !! i = Some (HSET key m) ∧
        m !! col = Some stored ∧
        (stored = blob ↔ NumPy.array_float32 xs = NumPy.array_float32 v).
Proof.
  intros Hdoc Hok Hf Hv.
  destruct (index_documents_run native prefix documents rows w Hdoc Hok Hf)
    as (w1 & Hrun & Hcmds & _ & _).
  exists w1, (NumPy.tobytes native (NumPy.array_float32 v)).
  split; [exact Hrun|]. split; [now apply search_redis_trace|].
  intros i r col l xs Hi Hin Hxs.
  destruct (row_command native prefix (heap w) r) as [| |key m|] eqn:Hc; try discriminate.
  exists key, m, (NumPy.tobytes native (NumPy.array_float32 xs)).
  split; [rewrite Hcmds, list_lookup_fmap, Hi; simpl; now rewrite Hc|].
  split; [eapply row_command_vector; eassumption|].
  split; [|now intros ->].
  apply tobytes_inj; apply NumPyFacts.array_float32_valid.
Qed.

(** X23: the cells in the order of the notebook.  With a store that serves
    every command, a frame whose vector cells hold lists, an embedding
    service that answers and an engine whose answers carry a title and a
    numeral for the distance, provisioning, ingestion and search all
    return: the search finds the index the first step made and evaluates
    the query on the keyspace the second step left. *)
Theorem provision_ingest_search_returns
    index_name schema prefix documents rows w user_query vector_field fields hybrid_fields k v :
  faults w = [] →
  heap w !! documents = Some (OFrame rows) →
  Forall (row_ok (heap w)) rows →
  embedding_create EMBEDDING_MODEL user_query = inr v →
  0 <= k →
  fields = [] ∨ ("title"%string ∈ fields ∧ "vector_score"%string ∈ fields) →
  (∀ keyspace ix,
     ∃ matched,
       engine keyspace ix (query_string (knn_query hybrid_fields vector_field fields k))
         (Some 2) (knn_params native v) = inr matched ∧
       Forall (λ d, ∀ j, is_Some (result_line rnd j d)) matched) →
  ∃ w1 w2 docs w3,
    ensure_index index_name schema prefix w = Return tt w1 ∧
    index_documents native prefix documents w1 = Return tt w2 ∧
    search_redis native rnd embedding_create engine user_query index_name vector_field
      fields hybrid_fields k w2 = Return docs w3 ∧
    index_lookup index_name (indexes w3) ≠ None ∧
    hashes w3 = served_all (hashes w) (row_command native prefix (heap w) <$> rows) ∧
    Z.of_nat (length docs) <= k.
Proof.
  intros Hf Hdoc Hok Hv Hk Hfields Heng.
  assert (H1 : ∃ w1, ensure_index index_name schema prefix w = Return tt w1 ∧
                     faults w1 = [] ∧ heap w1 = heap w ∧ hashes w1 = hashes w ∧
                     index_lookup index_name (indexes w1) ≠ None).
  { destruct (index_lookup index_name (indexes w)) as [s|] eqn:Hix.
    - eexists. split; [apply ensure_index_present; [exact Hf|congruence]|].
      cbn. rewrite Hix. auto.
    - eexists. split; [now apply ensure_index_absent|].
      cbn. split; [exact Hf|]. split; [reflexivity|]. split; [reflexivity|].
      apply index_lookup_app_new. }
  destruct H1 as (w1 & Hrun1 & Hf1 & Hheap1 & Hhs1 & Hix1).
  destruct (index_documents_served native prefix documents rows w1)
    as (w2 & Hrun2 & _ & Hhs2 & Hf2 & _ & Hix2).
  { now rewrite Hheap1. }
  { now rewrite Hheap1. }
  { rewrite Hf1. apply no_fault_within_nil. }
  rewrite Hf1, drop_nil in Hf2. rewrite Hheap1, Hhs1 in Hhs2.
  destruct (index_lookup index_name (indexes w2)) as [ix|] eqn:Hix;
    [|now rewrite Hix2 in Hix].
  destruct (Heng (hashes w2) ix) as (matched & Hm & Hall).
  destruct (search_redis_returns native rnd embedding_create engine user_query index_name
              vector_field fields hybrid_fields k w2 v ix matched)
    as (docs & w3 & Hrun3); auto.
  exists w1, w2, docs, w3.
  split; [exact Hrun1|]. split; [exact Hrun2|]. split; [exact Hrun3|].
  pose proof (respects_search_redis native rnd embedding_create engine (same indexes)
                user_query index_name vector_field fields hybrid_fields k
                ltac:(done) ltac:(done) ltac:(done) w2) as Hi3.
  pose proof (respects_search_redis native rnd embedding_create engine (same hashes)
                user_query index_name vector_field fields hybrid_fields k
                ltac:(done) ltac:(done) ltac:(done) w2) as Hh3.
  rewrite Hrun3 in Hi3, Hh3. unfold same in Hi3, Hh3. simpl in Hi3, Hh3.
  split; [rewrite Hi3, Hix; discriminate|]. split; [now rewrite Hh3|].
  apply search_redis_inv in Hrun3 as (v' & w' & lines & _ & Hs & _).
  apply ft_search_inv in Hs as (matched' & Hdocs & _).
  cbn [knn_query query_return_fields query_offset query_num query_sortby] in Hdocs.
  rewrite Hdocs, length_fmap. now apply apply_limit_length.
Qed.

End Pipeline.

(** ** Query fragments: values without quotes *)

Lemma scan_phrases_plain_outside a b :
  plain a = true → scan_phrases None (a +:+ b) = scan_phrases None b.
Proof.
  induction a as [|c a IH]; simpl; [reflexivity|].
  destruct (Ascii.eqb c "034"); [discriminate|].
  destruct (Ascii.eqb c "\"); [discriminate|]. simpl. exact IH.
Qed.

Lemma string_app_cons c (a b : string) : String c a +:+ b = String c (a +:+ b).
Proof. reflexivity. Qed.

Lemma string_app_assoc (a b c : string) : (a +:+ b) +:+ c = a +:+ (b +:+ c).
Proof.
  induction a as [|x a IH]; [reflexivity|]. rewrite !string_app_cons. now rewrite IH.
Qed.

Lemma string_app_nil_r (a : string) : a +:+ "" = a.
Proof. induction a as [|x a IH]; [reflexivity|]. rewrite string_app_cons. now rewrite IH. Qed.

Lemma scan_phrases_plain_inside cur a b :
  plain a = true → scan_phrases (Some cur) (a +:+ b) = scan_phrases (Some (cur +:+ a)) b.
Proof.
  revert cur. induction a as [|c a IH]; intros cur; simpl.
  - now rewrite string_app_nil_r.
  - destruct (Ascii.eqb c "034"); [discriminate|].
    destruct (Ascii.eqb c "\"); [discriminate|]. simpl. intros Ha.
    rewrite IH by exact Ha. now rewrite string_app_assoc.
Qed.

Lemma scan_phrases_plain a : plain a = true → scan_phrases None a = Some [].
Proof.
  intros Ha. rewrite <- (string_app_nil_r a). now rewrite scan_phrases_plain_outside.
Qed.

Lemma plain_app a b : plain (a +:+ b) = plain a && plain b.
Proof.
  induction a as [|c a IH]; simpl; [reflexivity|]. rewrite IH.
  now rewrite !andb_assoc.
Qed.

Lemma plain_pretty_N_char x : plain (String (pretty_N_char x) "") = true.
Proof.
  destruct x as [|p]; [reflexivity|].
  do 4 (try destruct p as [p|p|]); reflexivity.
Qed.

Lemma plain_pretty_N_go x s : plain s = true → plain (pretty_N_go x s) = true.
Proof.
  revert s. induction (N.lt_wf_0 x) as [x _ IH]; intros s Hs.
  destruct (decide (x = 0%N)) as [->|Hx].
  - now rewrite pretty_N_go_0.
  - rewrite pretty_N_go_step by lia. apply IH.
    + apply N.div_lt; lia.
    + change (String ?c s) with (String c "" +:+ s).
      now rewrite plain_app, plain_pretty_N_char.
Qed.

Lemma plain_pretty_Z (k : Z) : plain (pretty k) = true.
Proof.
  assert (HN : ∀ n : N, plain (pretty n) = true).
  { intros n. unfold pretty, pretty_N. destruct (decide (n = 0%N)); [reflexivity|].
    now apply plain_pretty_N_go. }
  destruct k as [|p|p]; [reflexivity|apply (HN (Npos p))|].
  change (pretty (Z.neg p)) with ("-" +:+ pretty (Npos p)).
  rewrite plain_app. now rewrite HN.
Qed.

Lemma quoted_phrases_hybrid_field field_name value rest :
  plain field_name = true → plain value = true →
  quoted_phrases (create_hybrid_field field_name value +:+ rest)
  = cons value <$> quoted_phrases rest.
Proof.
  intros Hf Hv. unfold quoted_phrases, create_hybrid_field.
  rewrite !string_app_assoc.
  change ("@" +:+ ?s) with (String "@" s). cbn [scan_phrases Ascii.eqb Bool.eqb].
  rewrite scan_phrases_plain_outside by exact Hf.
  change (scan_phrases None (":" +:+ dquote +:+ ?s))
    with (scan_phrases (Some EmptyString) s).
  rewrite scan_phrases_plain_inside by exact Hv.
  reflexivity.
Qed.

(** X24: for a field name and a value without double quote and backslash,
    the fragment [create_hybrid_field] builds reads as one quoted phrase,
    the value itself, and so does the whole expression [search_redis]
    builds from the fragment, whatever [k] is, when the vector field is
    without these characters too. *)
Theorem create_hybrid_field_one_phrase field_name value vector_field fields k :
  plain field_name = true →
  plain value = true →
  plain vector_field = true →
  quoted_phrases (create_hybrid_field field_name value) = Some [value] ∧
  quoted_phrases
    (query_string (knn_query (create_hybrid_field field_name value) vector_field fields k))
  = Some [value].
Proof.
  intros Hf Hv Hvf. split.
  - rewrite <- (string_app_nil_r (create_hybrid_field field_name value)).
    now rewrite quoted_phrases_hybrid_field.
  - cbn [knn_query query_string]. rewrite quoted_phrases_hybrid_field by assumption.
    unfold quoted_phrases. rewrite scan_phrases_plain; [reflexivity|].
    rewrite !plain_app, plain_pretty_Z, Hvf. reflexivity.
Qed.

Lemma string_length_app (a b : string) :
  String.length (a +:+ b) = (String.length a + String.length b)%nat.
Proof.
  induction a as [|x a IH]; [reflexivity|]. rewrite string_app_cons. simpl. now rewrite IH.
Qed.

Lemma string_app_cancel_r (a b c : string) : a +:+ c = b +:+ c → a = b.
Proof.
  intros H.
  assert (Hlen : String.length a = String.length b).
  { apply (f_equal String.length) in H. rewrite !string_length_app in H. lia. }
  revert b H Hlen. induction a as [|x a IH]; intros [|y b] H Hlen;
    try discriminate; [reflexivity|].
  rewrite !string_app_cons in H. injection H as -> H. f_equal.
  apply IH; [exact H|simpl in Hlen; lia].
Qed.

Lemma split_at_first_char c a1 b1 a2 b2 :
  has_char c a1 = false → has_char c a2 = false →
  a1 +:+ String c b1 = a2 +:+ String c b2 → a1 = a2 ∧ b1 = b2.
Proof.
  revert a2. induction a1 as [|x a1 IH]; intros [|y a2]; simpl.
  - intros _ _ [= ->]. auto.
  - intros _ Hy [= <- _]. now rewrite Ascii.eqb_refl in Hy.
  - intros Hx _ [= -> _]. now rewrite Ascii.eqb_refl in Hx.
  - intros Hx Hy [= -> H].
    apply orb_false_elim in Hx as [_ Hx]. apply orb_false_elim in Hy as [_ Hy].
    destruct (IH a2 Hx Hy H) as [-> ->]. auto.
Qed.

(** X25: the fragment determines the field name and the value when field
    names have no colon, and does not without that: a value may carry a
    colon and quotes and make the fragment of another field. *)
Theorem create_hybrid_field_inj :
  (∀ field1 value1 field2 value2,
     has_char ":" field1 = false → has_char ":" field2 = false →
     create_hybrid_field field1 value1 = create_hybrid_field field2 value2 →
     field1 = field2 ∧ value1 = value2) ∧
  (∃ field1 value1 field2 value2,
     create_hybrid_field field1 value1 = create_hybrid_field field2 value2 ∧
     field1 ≠ field2).
Proof.
  split.
  - intros f1 v1 f2 v2 H1 H2 Heq. unfold create_hybrid_field in Heq.
    injection Heq as Heq.
    change (":" +:+ ?s) with (String ":" s) in Heq.
    apply (split_at_first_char ":") in Heq as [-> Heq]; [|assumption..].
    split; [reflexivity|].
    apply (string_app_cancel_l dquote) in Heq.
    now apply string_app_cancel_r in Heq.
  - exists "a"%string, ("b" +:+ dquote +:+ ":" +:+ dquote +:+ "c")%string,
           ("a:" +:+ dquote +:+ "b" +:+ dquote)%string, "c"%string.
    split; [reflexivity|discriminate].
Qed.

(** ** The last cell: the first mention *)

Lemma prefix_cons a p b s :
  String.prefix (String a p) (String b s) = Ascii.eqb a b && String.prefix p s.
Proof.
  simpl. destruct (ascii_dec a b) as [->|Hne].
  - now rewrite Ascii.eqb_refl.
  - apply Ascii.eqb_neq in Hne. now rewrite Hne.
Qed.

Lemma prefix_empty s : String.prefix "" s = true.
Proof. now destruct s. Qed.

Lemma str_split_nonempty sep s : str_split sep s ≠ [].
Proof.
  destruct s as [|c s]; simpl; [discriminate|].
  destruct (Ascii.eqb c sep); [discriminate|].
  destruct (str_split sep s); discriminate.
Qed.

(** A phrase without the separator starts a text exactly when it starts
    its first piece. *)
Lemma prefix_first_piece sep p s :
  has_char sep p = false →
  String.prefix p s = String.prefix p (hd "" (str_split sep s)).
Proof.
  revert p. induction s as [|c s IH]; intros p Hp; [reflexivity|].
  destruct p as [|a p]; [now rewrite !prefix_empty|].
  simpl in Hp. apply orb_false_elim in Hp as [Ha Hp].
  cbn [str_split]. destruct (Ascii.eqb c sep) eqn:Hc.
  - apply Ascii.eqb_eq in Hc as ->. cbn [hd]. rewrite prefix_cons, Ha. reflexivity.
  - pose proof (str_split_nonempty sep s) as Hne.
    specialize (IH p Hp).
    destruct (str_split sep s) as [|piece pieces]; [contradiction|].
    cbn [hd] in *. rewrite !prefix_cons. now rewrite IH.
Qed.

Lemma str_contains_empty p : str_contains p "" = String.prefix p "".
Proof. simpl. apply orb_false_r. Qed.

(** A phrase without the separator is in a text exactly when it is in one
    of its pieces. *)
Lemma str_contains_split sep p s :
  has_char sep p = false →
  existsb (str_contains p) (str_split sep s) = str_contains p s.
Proof.
  intros Hp. induction s as [|c s IH].
  - cbn [str_split existsb]. now rewrite orb_false_r.
  - cbn [str_split]. destruct (Ascii.eqb c sep) eqn:Hc.
    + apply Ascii.eqb_eq in Hc as ->. cbn [existsb]. rewrite IH.
      cbn [str_contains]. rewrite orb_false_r.
      destruct p as [|a p]; [now rewrite !prefix_empty|].
      simpl in Hp. apply orb_false_elim in Hp as [Ha _].
      rewrite prefix_cons, Ha. reflexivity.
    + pose proof (str_split_nonempty sep s) as Hne.
      pose proof (prefix_first_piece sep p (String c s) Hp) as Hpre.
      cbn [str_split] in Hpre. rewrite Hc in Hpre.
      destruct (str_split sep s) as [|piece pieces]; [contradiction|].
      cbn [hd] in Hpre. cbn [existsb] in *. cbn [str_contains].
      rewrite <- IH, <- Hpre. now rewrite orb_assoc.
Qed.

Lemma filter_head {A} (p : A → bool) l x xs :
  List.filter p l = x :: xs →
  ∃ before after, l = before ++ x :: after ∧ p x = true ∧
                  Forall (λ y, p y = false) before.
Proof.
  induction l as [|y l IH]; simpl; [discriminate|].
  destruct (p y) eqn:Hy.
  - intros [= -> _]. exists [], l. auto.
  - intros H. destruct (IH H) as (before & after & -> & Hx & Hb).
    exists (y :: before), after. auto.
Qed.

Lemma filter_nil_existsb {A} (p : A → bool) l :
  List.filter p l = [] ↔ existsb p l = false.
Proof.
  induction l as [|y l IH]; simpl; [tauto|].
  destruct (p y); simpl; [split; discriminate|exact IH].
Qed.

Lemma str_split_pieces sep s : Forall (λ piece, has_char sep piece = false) (str_split sep s).
Proof.
  induction s as [|c s IH]; simpl.
  - repeat constructor.
  - destruct (Ascii.eqb c sep) eqn:Hc; [now constructor|].
    destruct (str_split sep s) as [|piece pieces]; [now repeat constructor; simpl; rewrite Hc|].
    apply Forall_cons in IH as [Hp Hps]. constructor; [|exact Hps].
    simpl. now rewrite Hc.
Qed.

(** X26: what the last cell returns is the first line of the text of the
    first result that holds the phrase: a piece of the text between line
    breaks, with no line break in it, holding the phrase, and with no
    earlier line that holds it. *)
Theorem first_mention_first_line phrase results sentence :
  first_mention phrase results = inr sentence →
  ∃ article rest text before after,
    results = article :: rest ∧
    attr article "text" = Some text ∧
    str_split newline text = before ++ sentence :: after ∧
    str_contains phrase sentence = true ∧
    has_char newline sentence = false ∧
    Forall (λ line, str_contains phrase line = false) before.
Proof.
  unfold first_mention. destruct results as [|article rest]; [discriminate|].
  destruct (attr article "text") as [text|] eqn:Ht; [|discriminate].
  destruct (List.filter _ _) as [|s ss] eqn:Hfilter; [discriminate|].
  intros [= ->].
  apply filter_head in Hfilter as (before & after & Hsplit & Hs & Hb).
  exists article, rest, text, before, after.
  split; [reflexivity|]. split; [exact Ht|]. split; [exact Hsplit|].
  split; [exact Hs|]. split; [|exact Hb].
  pose proof (str_split_pieces newline text) as Hp.
  rewrite Hsplit in Hp. apply Forall_app in Hp as [_ Hp].
  now apply Forall_cons in Hp as [Hp _].
Qed.

(** X27: when the last cell fails.  Without results the first subscript
    raises [IndexError]; a first result without a [text] attribute raises
    [AttributeError]; and for a phrase without line break, the second
    subscript raises [IndexError] exactly when the text does not hold the
    phrase: the cell returns for every text that holds it. *)
Theorem first_mention_failures phrase :
  first_mention phrase [] = inl (IndexError "list index out of range") ∧
  (∀ article rest, attr article "text" = None →
     first_mention phrase (article :: rest) = inl (Raised (AttributeError "text"))) ∧
  (∀ article rest text,
     has_char newline phrase = false →
     attr article "text" = Some text →
     (first_mention phrase (article :: rest) = inl (IndexError "list index out of range")
      ↔ str_contains phrase text = false) ∧
     (is_Some (match first_mention phrase (article :: rest) with
               | inr sentence => Some sentence
               | inl _ => None
               end)
      ↔ str_contains phrase text = true)).
Proof.
  split; [reflexivity|]. split.
  - intros article rest Ht. unfold first_mention. now rewrite Ht.
  - intros article rest text Hp Ht. unfold first_mention. rewrite Ht.
    rewrite <- (str_contains_split newline phrase text Hp).
    destruct (List.filter _ _) as [|s ss] eqn:Hfilter.
    + apply filter_nil_existsb in Hfilter. rewrite Hfilter.
      split; [tauto|]. split; [intros [? [=]]|discriminate].
    + assert (Hex : existsb (str_contains phrase) (str_split newline text) = true).
      { destruct (existsb _ _) eqn:Hex; [reflexivity|].
        apply filter_nil_existsb in Hex. congruence. }
      rewrite Hex. split; [split; discriminate|]. split; [reflexivity|eauto].
Qed.

(** ** Provisioning and ingestion in either order *)

(** X28: ingestion does not depend on the index, and provisioning does not
    depend on the keyspace: with a store that serves every command, the
    two steps return in either order and leave the same keyspace, the same
    indexes and the same output. *)
Theorem provisioning_and_ingestion_commute
    native index_name schema prefix documents rows w :
  faults w = [] →
  heap w !! documents = Some (OFrame rows) →
  Forall (row_ok (heap w)) rows →
  ∃ w1 w2 w1' w2',
    ensure_index index_name schema prefix w = Return tt w1 ∧
    index_documents native prefix documents w1 = Return tt w2 ∧
    index_documents native prefix documents w = Return tt w1' ∧
    ensure_index index_name schema prefix w1' = Return tt w2' ∧
    hashes w2 = hashes w2' ∧ indexes w2 = indexes w2' ∧ stdout w2 = stdout w2'.
Proof.
  intros Hf Hdoc Hok.
  destruct (index_documents_served native prefix documents rows w Hdoc Hok)
    as (w1' & Hrun1' & _ & Hhs1' & Hf1' & Hout1' & Hix1');
    [rewrite Hf; apply no_fault_within_nil|].
  rewrite Hf, drop_nil in Hf1'.
  destruct (index_lookup index_name (indexes w)) as [s|] eqn:Hix.
  - assert (Hp : index_lookup index_name (indexes w) ≠ None) by congruence.
    pose proof (ensure_index_present index_name schema prefix w Hf Hp) as Hrun1.
    set (w1 := set_stdout _ _) in Hrun1.
    destruct (index_documents_served native prefix documents rows w1 Hdoc Hok)
      as (w2 & Hrun2 & _ & Hhs2 & _ & Hout2 & Hix2);
      [cbn; rewrite Hf; apply no_fault_within_nil|].
    assert (Hp' : index_lookup index_name (indexes w1') ≠ None) by (rewrite Hix1'; congruence).
    pose proof (ensure_index_present index_name schema prefix w1' Hf1' Hp') as Hrun2'.
    eexists w1, w2, w1', _. split; [exact Hrun1|]. split; [exact Hrun2|].
    split; [exact Hrun1'|]. split; [exact Hrun2'|].
    cbn. rewrite Hhs2, Hhs1', Hix2, Hix1', Hout2, Hout1'. auto.
  - pose proof (ensure_index_absent index_name schema prefix w Hf Hix) as Hrun1.
    set (w1 := set_indexes _ _) in Hrun1.
    destruct (index_documents_served native prefix documents rows w1 Hdoc Hok)
      as (w2 & Hrun2 & _ & Hhs2 & _ & Hout2 & Hix2);
      [cbn; rewrite Hf; apply no_fault_within_nil|].
    assert (Hp' : index_lookup index_name (indexes w1') = None) by (now rewrite Hix1').
    pose proof (ensure_index_absent index_name schema prefix w1' Hf1' Hp') as Hrun2'.
    eexists w1, w2, w1', _. split; [exact Hrun1|]. split; [exact Hrun2|].
    split; [exact Hrun1'|]. split; [exact Hrun2'|].
    cbn. rewrite Hhs2, Hhs1', Hix2, Hix1', Hout2, Hout1'. auto.
Qed.

(** ** Query fragments: values that leave the quote open *)

Lemma scan_phrases_open cur a : plain a = true → scan_phrases (Some cur) a = None.
Proof.
  intros Ha. rewrite <- (string_app_nil_r a).
  now rewrite scan_phrases_plain_inside.
Qed.

Lemma scan_hybrid_field_prefix field_name s :
  plain field_name = true →
  scan_phrases None ("@" +:+ field_name +:+ ":" +:+ dquote +:+ s)
  = scan_phrases (Some EmptyString) s.
Proof.
  intros Hf. change ("@" +:+ ?t) with (String "@" t). cbn [scan_phrases Ascii.eqb Bool.eqb].
  rewrite scan_phrases_plain_outside by exact Hf. reflexivity.
Qed.

(** X29: a value with one double quote, or ending in a backslash, leaves the
    quoting of the fragment open, whatever stands around the quote: for
    field names and pieces without quote and backslash, the fragment for
    the value made of a, a quote and b, and the fragment for a followed
    by a backslash, have no reading as quoted phrases, and neither has the
    query expression [search_redis] builds from them. *)
Theorem create_hybrid_field_open_quote field_name a b vector_field fields k :
  plain field_name = true → plain a = true → plain b = true →
  plain vector_field = true →
  quoted_phrases (create_hybrid_field field_name (a +:+ dquote +:+ b)) = None ∧
  quoted_phrases (create_hybrid_field field_name (a +:+ "\")) = None ∧
  quoted_phrases
    (query_string (knn_query (create_hybrid_field field_name (a +:+ dquote +:+ b))
                     vector_field fields k)) = None ∧
  quoted_phrases
    (query_string (knn_query (create_hybrid_field field_name (a +:+ "\"))
                     vector_field fields k)) = None.
Proof.
  intros Hf Ha Hb Hvf.
  assert (Hrest : plain ("=>[KNN " +:+ pretty k +:+ " @" +:+ vector_field
                           +:+ " $vector AS vector_score]") = true).
  { rewrite !plain_app, plain_pretty_Z, Hvf. reflexivity. }
  unfold quoted_phrases, create_hybrid_field. cbn [knn_query query_string].
  unfold create_hybrid_field. rewrite !string_app_assoc.
  rewrite !scan_hybrid_field_prefix by exact Hf.
  rewrite !(scan_phrases_plain_inside _ a) by exact Ha.
  change (scan_phrases (Some ?cur) (dquote +:+ ?s)) with (cons cur <$> scan_phrases None s).
  rewrite !(scan_phrases_plain_outside b) by exact Hb.
  change (scan_phrases None (dquote +:+ ?s)) with (scan_phrases (Some EmptyString) s).
  change (scan_phrases (Some ?cur) ("\" +:+ dquote +:+ ?s))
    with (scan_phrases (Some (cur +:+ dquote)) s).
  change (scan_phrases (Some ?cur) ("\" +:+ dquote))
    with (scan_phrases (Some (cur +:+ dquote)) "").
  rewrite !scan_phrases_open by (exact Hrest || reflexivity).
  auto.
Qed.

(* ===================================================================== *)
(** * The theorems at the small instance *)
(* ===================================================================== *)


(** 1.0 is a float32 as it stands; 0.1 is not, and is rounded to
    13421773 * 2^-27. *)
Example float_one_representable : NumPy.float32_representable float_one.
Proof.
  exists (S754_finite false 8388608 (-23)). split; [reflexivity|].
  split; reflexivity.
Qed.

Example float_tenth_rounded :
  NumPy.float32_of_float float_tenth = S754_finite false 13421773 (-27) ∧
  ¬ NumPy.same_float float_tenth (NumPy.float32_of_float float_tenth).
Proof.
  split; [reflexivity|]. vm_compute. intros [_ H]. discriminate.
Qed.

(** The buffer of [1.0, 0.1] is 00 00 80 3f cd cc cc 3d on a little-endian
    machine, and the same bytes in the other order per element on a
    big-endian one. *)
Example tobytes_demo :
  NumPy.tobytes NumPy.LittleEndian (NumPy.array_float32 [float_one; float_tenth])
  = [x00; x00; x80; x3f; xcd; xcc; xcc; x3d] ∧
  NumPy.tobytes NumPy.BigEndian (NumPy.array_float32 [float_one; float_tenth])
  = [x3f; x80; x00; x00; x3d; xcc; xcc; xcd].
Proof. split; reflexivity. Qed.

(** Ingesting the two articles leaves two hashes, [doc:1] and [doc:2]. *)
Example index_documents_demo_store :
  dom (hashes (world_of (index_documents NumPy.LittleEndian PREFIX 5%positive demo_world)))
  = {["doc:1"%string; "doc:2"%string]}.
Proof. vm_compute. reflexivity. Qed.

(** With the index in place and the connection failing on the probe, the
    provisioning step tries to create the index again and the store refuses. *)
Example ensure_index_unreachable :
  ensure_index INDEX_NAME (fields 3 2) PREFIX demo_unreachable
  = Raise (ResponseError "Index already exists")
      (set_faults []
         (set_trace [FT_INFO INDEX_NAME;
                     FT_CREATE INDEX_NAME (fields 3 2) (hash_definition PREFIX)]
            demo_unreachable)).
Proof. reflexivity. Qed.

(** A value can also close the quote itself and bring a condition of its
    own: the fragment for one value reads as two conditions. *)
Example create_hybrid_field_injection :
  let value := "x" +:+ dquote +:+ " | @title:" +:+ dquote +:+ "y" in
  create_hybrid_field "title" value
  = create_hybrid_field "title" "x" +:+ " | " +:+ create_hybrid_field "title" "y" ∧
  quoted_phrases (create_hybrid_field "title" value) = Some ["x"; "y"]%string.
Proof. split; reflexivity. Qed.

(** The run prints the two nearest articles and returns their documents. *)
Example demo_search_output :
  stdout (world_of demo_search) = ["0. April (Score: 0.875)"; "1. August (Score: 0.86)"]%string ∧
  doc_id <$> demo_docs = ["doc:1"; "doc:2"]%string.
Proof. split; vm_compute; reflexivity. Qed.

Lemma index_documents_vector_round_trip_demo :
  ∃ w', index_documents NumPy.LittleEndian PREFIX 5%positive demo_world = Return tt w' ∧
    ∀ i r, demo_rows !! i = Some r →
      ∃ key m, commands_since demo_world w' !! i = Some (HSET key m) ∧
        ∀ col l, (col, l) ∈ vector_cells r →
          ∃ xs b, vector_of (heap demo_world) l = Some xs ∧ m !! col = Some b ∧
            length b = (4 * length xs)%nat ∧
            NumPy.frombuffer NumPy.LittleEndian b = Some (NumPy.array_float32 xs) ∧
            (Forall NumPy.float32_representable xs →
             ∃ ys, NumPy.frombuffer NumPy.LittleEndian b = Some ys ∧
                   Forall2 NumPy.same_float xs ys).
Proof.
  apply (index_documents_vector_round_trip NumPy.LittleEndian PREFIX 5%positive
           demo_rows demo_world).
  - vm_compute. reflexivity.
  - repeat constructor; vm_compute; eexists; reflexivity.
  - reflexivity.
Defined.

Lemma index_documents_one_write_per_record_demo :
  ∃ w', index_documents NumPy.LittleEndian PREFIX 5%positive demo_world = Return tt w' ∧
    length (commands_since demo_world w') = length demo_rows ∧
    (∀ i r, demo_rows !! i = Some r →
       ∃ m, commands_since demo_world w' !! i
            = Some (HSET (PREFIX +:+ ":" +:+ pretty (row_id r)) m)) ∧
    (∀ r1 r2 : article, row_id r1 ≠ row_id r2 →
       PREFIX +:+ ":" +:+ pretty (row_id r1) ≠ PREFIX +:+ ":" +:+ pretty (row_id r2)).
Proof.
  apply (index_documents_one_write_per_record NumPy.LittleEndian PREFIX 5%positive
           demo_rows demo_world).
  - vm_compute. reflexivity.
  - repeat constructor; vm_compute; eexists; reflexivity.
  - reflexivity.
Defined.

Lemma index_documents_other_fields_unchanged_demo :
  ∃ w', index_documents NumPy.LittleEndian PREFIX 5%positive demo_world = Return tt w' ∧
    ∀ i r, demo_rows !! i = Some r →
      ∃ key m, commands_since demo_world w' !! i = Some (HSET key m) ∧
        (∀ col s, (col, s) ∈ scalar_cells r →
           m !! col = Some (list_byte_of_string s)) ∧
        (∀ col, col ≠ "title_vector"%string → col ≠ "content_vector"%string →
           m !! col = dict_of_row r !! col ≫= encode_value).
Proof.
  apply (index_documents_other_fields_unchanged NumPy.LittleEndian PREFIX 5%positive
           demo_rows demo_world).
  - vm_compute. reflexivity.
  - repeat constructor; vm_compute; eexists; reflexivity.
  - reflexivity.
Defined.

Lemma ensure_index_twice_demo :
  ∃ w1 w2,
    ensure_index INDEX_NAME (fields 3 2) PREFIX demo_world = Return tt w1 ∧
    ensure_index INDEX_NAME (fields 3 2) PREFIX w1 = Return tt w2 ∧
    commands_since w1 w2 = [FT_INFO INDEX_NAME] ∧
    indexes w2 = indexes w1 ∧
    index_count INDEX_NAME w2 = 1%nat.
Proof.
  apply (ensure_index_twice INDEX_NAME (fields 3 2) PREFIX demo_world).
  - reflexivity.
  - vm_compute. constructor.
Defined.

Lemma ensure_index_probe_failure_demo :
  ensure_index INDEX_NAME (fields 3 2) PREFIX demo_unreachable
  = ft_create_index INDEX_NAME (fields 3 2) (hash_definition PREFIX)
      (set_faults [] (set_trace [FT_INFO INDEX_NAME] demo_unreachable)) ∧
  commands_since demo_unreachable
    (world_of (ensure_index INDEX_NAME (fields 3 2) PREFIX demo_unreachable))
  = [FT_INFO INDEX_NAME; FT_CREATE INDEX_NAME (fields 3 2) (hash_definition PREFIX)].
Proof.
  apply (ensure_index_probe_failure INDEX_NAME (fields 3 2) PREFIX demo_unreachable
           (ConnectionError "Connection refused")).
  vm_compute. reflexivity.
Defined.

Lemma search_redis_query_demo :
  commands_since demo_indexed (world_of demo_search)
  = [FT_SEARCH default_index_name
       {| query_string :=
            default_hybrid_fields +:+ "=>[KNN " +:+ pretty 2 +:+ " @"
              +:+ default_vector_field +:+ " $vector AS vector_score]";
          query_offset := 0;
          query_num := 2;
          query_return_fields := default_return_fields;
          query_sortby := Some ("vector_score"%string, true);
          query_dialect := Some 2 |}
       [("vector"%string,
         NumPy.tobytes NumPy.LittleEndian
           (NumPy.array_float32 [float_one; float_zero; float_zero]))]] ∧
  (default_hybrid_fields = "*"%string →
   query_string (knn_query default_hybrid_fields default_vector_field default_return_fields 2)
   = "*=>[KNN " +:+ pretty 2 +:+ " @" +:+ default_vector_field
       +:+ " $vector AS vector_score]").
Proof.
  apply (search_redis_query NumPy.LittleEndian exact demo_embedding demo_engine
           "the fourth month" default_index_name default_vector_field
           default_return_fields default_hybrid_fields 2 demo_indexed
           [float_one; float_zero; float_zero]).
  reflexivity.
Defined.




(** ** The further properties at the small instance *)

Lemma ensure_index_returns_with_index_demo :
  index_lookup INDEX_NAME
    (indexes (world_of (ensure_index INDEX_NAME (fields 3 2) PREFIX demo_world))) ≠ None.
Proof.
  apply (ensure_index_returns_with_index INDEX_NAME (fields 3 2) PREFIX demo_world).
  vm_compute. reflexivity.
Defined.

Lemma ensure_index_ignores_new_schema_demo :
  ∃ w', ensure_index INDEX_NAME (fields 1536 25000) "article" demo_indexed = Return tt w' ∧
        index_lookup INDEX_NAME (indexes w') = Some (fields 3 2, hash_definition PREFIX) ∧
        commands_since demo_indexed w' = [FT_INFO INDEX_NAME] ∧
        lines_since demo_indexed w' = ["Index already exists"%string].
Proof.
  apply (ensure_index_ignores_new_schema INDEX_NAME (fields 1536 25000) "article"
           demo_indexed (fields 3 2, hash_definition PREFIX)).
  - reflexivity.
  - reflexivity.
Defined.

Lemma ensure_index_existing_probe_fault_demo :
  ∃ w', ensure_index INDEX_NAME (fields 3 2) PREFIX demo_unreachable
          = Raise (ResponseError "Index already exists") w' ∧
        indexes w' = indexes demo_unreachable ∧
        commands_since demo_unreachable w'
        = [FT_INFO INDEX_NAME; FT_CREATE INDEX_NAME (fields 3 2) (hash_definition PREFIX)].
Proof.
  apply (ensure_index_existing_probe_fault INDEX_NAME (fields 3 2) PREFIX demo_unreachable
           (fields 3 2, hash_definition PREFIX) (ConnectionError "Connection refused") []).
  - reflexivity.
  - reflexivity.
  - intros e'. simpl. discriminate.
Defined.

Lemma search_redis_embedding_failure_demo :
  search_redis NumPy.LittleEndian exact demo_embedding_down demo_engine
    "the fourth month" default_index_name default_vector_field
    default_return_fields default_hybrid_fields 2 demo_indexed
  = Raise (OpenAIError "The server is overloaded") demo_indexed.
Proof.
  apply (search_redis_embedding_failure NumPy.LittleEndian exact demo_embedding_down
           demo_engine "the fourth month" default_index_name default_vector_field
           default_return_fields default_hybrid_fields 2 demo_indexed).
  reflexivity.
Defined.

Lemma search_redis_store_failure_demo :
  search_redis NumPy.LittleEndian exact demo_embedding demo_engine
    "the fourth month" default_index_name default_vector_field
    default_return_fields default_hybrid_fields 2 demo_world
  = Raise (ResponseError "embeddings-index: no such index")
      (set_trace
         [FT_SEARCH default_index_name
            (knn_query default_hybrid_fields default_vector_field default_return_fields 2)
            (knn_params NumPy.LittleEndian [float_one; float_zero; float_zero])]
         demo_world) ∧
  stdout
    (set_trace
       [FT_SEARCH default_index_name
          (knn_query default_hybrid_fields default_vector_field default_return_fields 2)
          (knn_params NumPy.LittleEndian [float_one; float_zero; float_zero])]
       demo_world) = stdout demo_world ∧
  commands_since demo_world
    (set_trace
       [FT_SEARCH default_index_name
          (knn_query default_hybrid_fields default_vector_field default_return_fields 2)
          (knn_params NumPy.LittleEndian [float_one; float_zero; float_zero])]
       demo_world)
  = [FT_SEARCH default_index_name
       (knn_query default_hybrid_fields default_vector_field default_return_fields 2)
       (knn_params NumPy.LittleEndian [float_one; float_zero; float_zero])].
Proof.
  apply (search_redis_store_failure NumPy.LittleEndian exact demo_embedding demo_engine
           "the fourth month" default_index_name default_vector_field
           default_return_fields default_hybrid_fields 2 demo_world
           [float_one; float_zero; float_zero]).
  - reflexivity.
  - reflexivity.
Defined.

Lemma search_redis_missing_field_demo :
  ∃ e,
    search_redis NumPy.LittleEndian exact demo_embedding demo_engine
      "the fourth month" default_index_name default_vector_field
      ["title"%string] default_hybrid_fields 2 demo_indexed
    = Raise e (world_of (ft_search demo_engine default_index_name
                           (knn_query default_hybrid_fields default_vector_field
                              ["title"%string] 2)
                           (knn_params NumPy.LittleEndian [float_one; float_zero; float_zero])
                           demo_indexed)) ∧
    stdout (world_of (ft_search demo_engine default_index_name
                        (knn_query default_hybrid_fields default_vector_field
                           ["title"%string] 2)
                        (knn_params NumPy.LittleEndian [float_one; float_zero; float_zero])
                        demo_indexed)) = stdout demo_indexed ∧
    ("vector_score"%string ∉ ["title"%string] → e = AttributeError "vector_score") ∧
    ("vector_score"%string ∈ ["title"%string] →
     is_Some (attr {| doc_id := "doc:1"; doc_fields := <["title" := "April"]> ∅ |}%string
                "vector_score" ≫= decimal_value) →
     e = AttributeError "title").
Proof.
  eapply (search_redis_missing_field NumPy.LittleEndian exact demo_embedding
            demo_engine "the fourth month" default_index_name default_vector_field
            ["title"%string] default_hybrid_fields 2 demo_indexed
            [float_one; float_zero; float_zero]).
  - discriminate.
  - left. intros Hin. apply list_elem_of_singleton in Hin. discriminate.
  - reflexivity.
  - vm_compute. reflexivity.
Defined.

Lemma search_redis_top_k_demo :
  ∃ v schema matched kept rest,
    demo_embedding EMBEDDING_MODEL "the fourth month" = inr v ∧
    index_lookup default_index_name (indexes demo_indexed) = Some schema ∧
    demo_engine (hashes demo_indexed) schema
      (query_string (knn_query default_hybrid_fields default_vector_field
                       default_return_fields 2)) (Some 2)
      (knn_params NumPy.LittleEndian v) = inr matched ∧
    matched ≡ₚ kept ++ rest ∧
    demo_docs = apply_return default_return_fields <$> kept ∧
    length demo_docs = (Z.to_nat 2 `min` length matched)%nat ∧
    ∀ d1 d2, d1 ∈ kept → d2 ∈ rest → doc_le "vector_score" true d1 d2.
Proof.
  apply (search_redis_top_k NumPy.LittleEndian exact demo_embedding demo_engine
           "the fourth month" default_index_name default_vector_field
           default_return_fields default_hybrid_fields 2 demo_indexed
           demo_docs (world_of demo_search)).
  vm_compute. reflexivity.
Defined.

Lemma index_documents_empty_frame_demo :
  index_documents NumPy.LittleEndian PREFIX 1%positive demo_empty_frame
  = Return tt demo_empty_frame.
Proof.
  apply (index_documents_empty_frame NumPy.LittleEndian PREFIX 1%positive demo_empty_frame).
  reflexivity.
Defined.

Lemma index_documents_stores_last_row_demo :
  ∃ w', index_documents NumPy.LittleEndian PREFIX 5%positive demo_world = Return tt w' ∧
    ∀ i r, demo_rows !! i = Some r →
      (∀ j r', demo_rows !! j = Some r' → (i < j)%nat → row_id r' ≠ row_id r) →
      ∃ m, commands_since demo_world w' !! i = Some (HSET (row_key PREFIX r) m) ∧
           hashes w' !! row_key PREFIX r
           = Some (m ∪ default ∅ (hashes demo_world !! row_key PREFIX r)).
Proof.
  apply (index_documents_stores_last_row NumPy.LittleEndian PREFIX 5%positive
           demo_rows demo_world).
  - vm_compute. reflexivity.
  - repeat constructor; vm_compute; eexists; reflexivity.
  - reflexivity.
Defined.

Lemma index_documents_keys_demo :
  ∃ w', index_documents NumPy.LittleEndian PREFIX 5%positive demo_world = Return tt w' ∧
        dom (hashes w') = dom (hashes demo_world) ∪ list_to_set (row_key PREFIX <$> demo_rows).
Proof.
  apply (index_documents_keys NumPy.LittleEndian PREFIX 5%positive demo_rows demo_world).
  - vm_compute. reflexivity.
  - repeat constructor; vm_compute; eexists; reflexivity.
  - reflexivity.
Defined.

Lemma index_documents_twice_demo :
  ∃ w1 w2,
    index_documents NumPy.LittleEndian PREFIX 5%positive demo_world = Return tt w1 ∧
    index_documents NumPy.LittleEndian PREFIX 5%positive w1 = Return tt w2 ∧
    commands_since w1 w2 = commands_since demo_world w1 ∧
    hashes w2 = hashes w1.
Proof.
  apply (index_documents_twice NumPy.LittleEndian PREFIX 5%positive demo_rows demo_world).
  - vm_compute. reflexivity.
  - repeat constructor; vm_compute; eexists; reflexivity.
  - reflexivity.
Defined.

Lemma index_documents_partial_failure_demo :
  ∃ w', index_documents NumPy.LittleEndian PREFIX 5%positive demo_flaky
          = Raise (TimeoutError "Timeout reading from socket") w' ∧
    commands_since demo_flaky w'
    = row_command NumPy.LittleEndian PREFIX (heap demo_flaky) <$> take 2 demo_rows ∧
    hashes w'
    = served_all (hashes demo_flaky)
        (row_command NumPy.LittleEndian PREFIX (heap demo_flaky) <$> take 1 demo_rows) ∧
    faults w' = [] ∧
    (∀ i r, demo_rows !! i = Some r → (i < 1)%nat →
            is_Some (hashes w' !! row_key PREFIX r)) ∧
    (∀ key, (∀ r, r ∈ take 1 demo_rows → key ≠ row_key PREFIX r) →
            hashes w' !! key = hashes demo_flaky !! key).
Proof.
  apply (index_documents_partial_failure NumPy.LittleEndian PREFIX 5%positive demo_rows
           demo_flaky 1 (TimeoutError "Timeout reading from socket") []).
  - vm_compute. reflexivity.
  - repeat constructor; vm_compute; eexists; reflexivity.
  - reflexivity.
  - simpl. lia.
Defined.

Lemma constants_cell_empty_frame_demo :
  constants_cell 1%positive demo_empty_frame = Raise (KeyError "0") demo_empty_frame.
Proof.
  apply (constants_cell_empty_frame 1%positive demo_empty_frame). reflexivity.
Defined.


Lemma search_redis_blob_agrees_with_stored_demo :
  ∃ w1 blob,
    index_documents NumPy.LittleEndian PREFIX 5%positive demo_world = Return tt w1 ∧
    commands_since demo_indexed
      (world_of (search_redis NumPy.LittleEndian exact demo_embedding demo_engine
                   "the fourth month" default_index_name default_vector_field
                   default_return_fields default_hybrid_fields 2 demo_indexed))
    = [FT_SEARCH default_index_name
         (knn_query default_hybrid_fields default_vector_field default_return_fields 2)
         [("vector"%string, blob)]] ∧
    ∀ i r col l xs, demo_rows !! i = Some r → (col, l) ∈ vector_cells r →
      vector_of (heap demo_world) l = Some xs →
      ∃ key m stored, commands_since demo_world w1 !! i = Some (HSET key m) ∧
        m !! col = Some stored ∧
        (stored = blob ↔
         NumPy.array_float32 xs = NumPy.array_float32 [float_one; float_zero; float_zero]).
Proof.
  apply (search_redis_blob_agrees_with_stored NumPy.LittleEndian exact demo_embedding
           demo_engine PREFIX 5%positive demo_rows demo_world "the fourth month"
           default_index_name default_vector_field default_return_fields
           default_hybrid_fields 2 [float_one; float_zero; float_zero] demo_indexed).
  - vm_compute. reflexivity.
  - repeat constructor; vm_compute; eexists; reflexivity.
  - reflexivity.
  - reflexivity.
Defined.

Lemma provision_ingest_search_returns_demo :
  ∃ w1 w2 docs w3,
    ensure_index INDEX_NAME (fields 3 2) PREFIX demo_world = Return tt w1 ∧
    index_documents NumPy.LittleEndian PREFIX 5%positive w1 = Return tt w2 ∧
    search_redis NumPy.LittleEndian exact demo_embedding demo_engine
      "the fourth month" INDEX_NAME default_vector_field
      default_return_fields default_hybrid_fields 2 w2 = Return docs w3 ∧
    index_lookup INDEX_NAME (indexes w3) ≠ None ∧
    hashes w3
    = served_all (hashes demo_world)
        (row_command NumPy.LittleEndian PREFIX (heap demo_world) <$> demo_rows) ∧
    Z.of_nat (length docs) <= 2.
Proof.
  apply (provision_ingest_search_returns NumPy.LittleEndian exact demo_embedding
           demo_engine INDEX_NAME (fields 3 2) PREFIX 5%positive demo_rows demo_world
           "the fourth month" default_vector_field default_return_fields
           default_hybrid_fields 2 [float_one; float_zero; float_zero]).
  - reflexivity.
  - vm_compute. reflexivity.
  - repeat constructor; vm_compute; eexists; reflexivity.
  - reflexivity.
  - lia.
  - right. split; unfold default_return_fields;
      repeat first [apply list_elem_of_here | apply list_elem_of_further].
  - intros keyspace ix. eexists. split; [reflexivity|].
    repeat constructor; intros j; unfold result_line;
      (match goal with
       | |- is_Some (?x ≫= _) =>
           let v := eval vm_compute in x in change x with v
       end); simpl; eauto.
Defined.

Lemma create_hybrid_field_one_phrase_demo :
  quoted_phrases (create_hybrid_field "text" "Leonardo da Vinci")
  = Some ["Leonardo da Vinci"%string] ∧
  quoted_phrases
    (query_string (knn_query (create_hybrid_field "text" "Leonardo da Vinci")
                     "title_vector" default_return_fields 5))
  = Some ["Leonardo da Vinci"%string].
Proof.
  apply (create_hybrid_field_one_phrase "text" "Leonardo da Vinci" "title_vector"
           default_return_fields 5); reflexivity.
Defined.

Lemma first_mention_first_line_demo :
  ∃ article rest text before after,
    [demo_article] = article :: rest ∧
    attr article "text" = Some text ∧
    str_split newline text
    = before ++ "Leonardo da Vinci painted the Mona Lisa."%string :: after ∧
    str_contains "Leonardo da Vinci" "Leonardo da Vinci painted the Mona Lisa." = true ∧
    has_char newline "Leonardo da Vinci painted the Mona Lisa." = false ∧
    Forall (λ line, str_contains "Leonardo da Vinci" line = false) before.
Proof.
  apply (first_mention_first_line "Leonardo da Vinci" [demo_article]
           "Leonardo da Vinci painted the Mona Lisa.").
  vm_compute. reflexivity.
Defined.

(** The cell on the instance: the second line of the text. *)
Example mention_demo :
  mention [demo_article] = inr "Leonardo da Vinci painted the Mona Lisa."%string.
Proof. vm_compute. reflexivity. Qed.


Lemma provisioning_and_ingestion_commute_demo :
  ∃ w1 w2 w1' w2',
    ensure_index INDEX_NAME (fields 3 2) PREFIX demo_world = Return tt w1 ∧
    index_documents NumPy.LittleEndian PREFIX 5%positive w1 = Return tt w2 ∧
    index_documents NumPy.LittleEndian PREFIX 5%positive demo_world = Return tt w1' ∧
    ensure_index INDEX_NAME (fields 3 2) PREFIX w1' = Return tt w2' ∧
    hashes w2 = hashes w2' ∧ indexes w2 = indexes w2' ∧ stdout w2 = stdout w2'.
Proof.
  apply (provisioning_and_ingestion_commute NumPy.LittleEndian INDEX_NAME (fields 3 2)
           PREFIX 5%positive demo_rows demo_world).
  - reflexivity.
  - vm_compute. reflexivity.
  - repeat constructor; vm_compute; eexists; reflexivity.
Defined.

Lemma create_hybrid_field_open_quote_demo :
  quoted_phrases (create_hybrid_field "title" ("Scot" +:+ dquote +:+ "tish")) = None ∧
  quoted_phrases (create_hybrid_field "title" ("Scot" +:+ "\")) = None ∧
  quoted_phrases
    (query_string (knn_query (create_hybrid_field "title" ("Scot" +:+ dquote +:+ "tish"))
                     "title_vector" default_return_fields 5)) = None ∧
  quoted_phrases
    (query_string (knn_query (create_hybrid_field "title" ("Scot" +:+ "\"))
                     "title_vector" default_return_fields 5)) = None.
Proof.
  apply (create_hybrid_field_open_quote "title" "Scot" "tish" "title_vector"
           default_return_fields 5); reflexivity.
Defined.


